(** * check-certs: a shallow embedding of [check-certs.go]

    The program reads a list of host names, dials each of them over TLS
    from a pool of worker goroutines, and reports every host whose peer
    certificate chain holds a certificate that expires within a number of
    days.

    Layout of the development:
    - the parts of the Go standard library the program calls ([strings],
      [bufio], [time], [errors]), each in a module named after its package;
    - the program itself: [readHostsFile], [checkCertificate], [worker] and
      [main], the goroutines of [main] as a step relation over two
      unbuffered channels;
    - the properties of the program.

    Conventions: a Go [string] is a [string] of bytes ([ascii]); a Go [int]
    is a [Z] (no arithmetic of the program comes near the 64-bit range, the
    loops count up to a slice length); [nil] errors are [None]. The
    package [time] computes on 64-bit seconds; the statement about it gives
    the range in which these do not wrap. *)

From Stdlib Require Import ZArith String Ascii List Lia Permutation Bool.
From stdpp Require Import base list strings.

Open Scope Z_scope.

(** The numeric value of a byte. *)
Definition b2z (c : ascii) : Z := Z.of_N (N_of_ascii c).

(** ** Package [unicode/utf8] *)

Module utf8.

Definition RuneError : Z := 0xFFFD.
Definition RuneSelf : Z := 0x80.
Definition UTFMax : nat := 4.

Definition maskx : Z := 0x3F.
Definition mask2 : Z := 0x1F.
Definition mask3 : Z := 0x0F.
Definition mask4 : Z := 0x07.
Definition locb : Z := 0x80.
Definition hicb : Z := 0xBF.

(** An entry of the table [first]: [as] (ASCII), [xx] (invalid), or the
    size of the sequence with the accepted range of its second byte. *)
Inductive firstInfo : Type :=
| AS
| XX
| Seq (sz : nat) (lo hi : Z).

Definition first (s0 : Z) : firstInfo :=
  if s0 <? 0x80 then AS
  else if s0 <? 0xC2 then XX
  else if s0 <=? 0xDF then Seq 2 locb hicb
  else if s0 =? 0xE0 then Seq 3 0xA0 hicb
  else if s0 <=? 0xEC then Seq 3 locb hicb
  else if s0 =? 0xED then Seq 3 locb 0x9F
  else if s0 <=? 0xEF then Seq 3 locb hicb
  else if s0 =? 0xF0 then Seq 4 0x90 hicb
  else if s0 <=? 0xF3 then Seq 4 locb hicb
  else if s0 =? 0xF4 then Seq 4 locb 0x8F
  else XX.

(** [DecodeRuneInString s]: the first rune of [s] and its width in bytes;
    [(RuneError, 0)] on the empty string, [(RuneError, 1)] on an invalid
    encoding. *)
Definition DecodeRuneInString (s : string) : Z * nat :=
  match s with
  | EmptyString => (RuneError, 0%nat)
  | String c0 t0 =>
      let s0 := b2z c0 in
      match first s0 with
      | AS => (s0, 1%nat)
      | XX => (RuneError, 1%nat)
      | Seq sz lo hi =>
          if (String.length s <? sz)%nat then (RuneError, 1%nat) else
          match t0 with
          | EmptyString => (RuneError, 1%nat)
          | String c1 t1 =>
              let s1 := b2z c1 in
              if (s1 <? lo) || (hi <? s1) then (RuneError, 1%nat) else
              if (sz <=? 2)%nat then
                (Z.lor (Z.shiftl (Z.land s0 mask2) 6) (Z.land s1 maskx), 2%nat)
              else
              match t1 with
              | EmptyString => (RuneError, 1%nat)
              | String c2 t2 =>
                  let s2 := b2z c2 in
                  if (s2 <? locb) || (hicb <? s2) then (RuneError, 1%nat) else
                  if (sz <=? 3)%nat then
                    (Z.lor (Z.lor (Z.shiftl (Z.land s0 mask3) 12)
                                  (Z.shiftl (Z.land s1 maskx) 6))
                           (Z.land s2 maskx), 3%nat)
                  else
                  match t2 with
                  | EmptyString => (RuneError, 1%nat)
                  | String c3 _ =>
                      let s3 := b2z c3 in
                      if (s3 <? locb) || (hicb <? s3) then (RuneError, 1%nat) else
                      (Z.lor (Z.lor (Z.lor (Z.shiftl (Z.land s0 mask4) 18)
                                           (Z.shiftl (Z.land s1 maskx) 12))
                                    (Z.shiftl (Z.land s2 maskx) 6))
                             (Z.land s3 maskx), 4%nat)
                  end
              end
          end
      end
  end.

(** [RuneStart b]: [b] is not a continuation byte. *)
Definition RuneStart (b : Z) : bool := negb (Z.land b 0xC0 =? 0x80).

(** The byte [s[i]] (0 when out of range, never the case below). *)
Definition byteAt (s : string) (i : Z) : Z :=
  match String.get (Z.to_nat i) s with
  | Some c => b2z c
  | None => 0
  end.

(** The backward search of [DecodeLastRuneInString],
    [for start--; start >= lim; start-- { if RuneStart(s[start]) { break } }],
    from the loop test on; the result is the value of [start] after the
    loop. The loop body runs at most [UTFMax - 1] times. *)
Fixpoint backToStart (s : string) (lim : Z) (fuel : nat) (start : Z) : Z :=
  match fuel with
  | O => start
  | S fuel' =>
      if start <? lim then start
      else if RuneStart (byteAt s start) then start
      else backToStart s lim fuel' (start - 1)
  end.

Definition DecodeLastRuneInString (s : string) : Z * nat :=
  let end_ := Z.of_nat (String.length s) in
  if end_ =? 0 then (RuneError, 0%nat) else
  let start := end_ - 1 in
  let r := byteAt s start in
  if r <? RuneSelf then (r, 1%nat) else
  let lim := Z.max 0 (end_ - Z.of_nat UTFMax) in
  let start := backToStart s lim UTFMax (start - 1) in
  let start := Z.max 0 start in
  let '(r, size) :=
    DecodeRuneInString
      (substring (Z.to_nat start) (Z.to_nat (end_ - start)) s) in
  if start + Z.of_nat size =? end_ then (r, size) else (RuneError, 1%nat).

End utf8.

(** ** Package [unicode] *)

Module unicode.

Definition MaxLatin1 : Z := 0xFF.

(** [IsSpace r]: the Latin-1 spaces, then the table [White_Space]. *)
Definition IsSpace (r : Z) : bool :=
  if r <=? MaxLatin1 then
    (r =? 0x09) || (r =? 0x0A) || (r =? 0x0B) || (r =? 0x0C) || (r =? 0x0D)
    || (r =? 0x20) || (r =? 0x85) || (r =? 0xA0)
  else
    (r =? 0x1680) || ((0x2000 <=? r) && (r <=? 0x200A))
    || (r =? 0x2028) || (r =? 0x2029) || (r =? 0x202F) || (r =? 0x205F)
    || (r =? 0x3000).

End unicode.

(** ** Package [strings] *)

Module strings.

(** [HasPrefix s prefix]: [s] begins with [prefix]. *)
Fixpoint HasPrefix (s prefix : string) {struct prefix} : bool :=
  match prefix with
  | EmptyString => true
  | String p prefix' =>
      match s with
      | EmptyString => false
      | String c s' => Ascii.eqb c p && HasPrefix s' prefix'
      end
  end.

(** [Contains s substr]: [substr] occurs in [s] ([Index(s, substr) >= 0]). *)
Fixpoint Contains (s substr : string) : bool :=
  HasPrefix s substr
  || match s with
     | EmptyString => false
     | String _ s' => Contains s' substr
     end.

(** The table [asciiSpace]: ['\t'], ['\n'], ['\v'], ['\f'], ['\r'], [' ']. *)
Definition asciiSpace (c : ascii) : bool :=
  let b := b2z c in
  (b =? 0x09) || (b =? 0x0A) || (b =? 0x0B) || (b =? 0x0C) || (b =? 0x0D)
  || (b =? 0x20).

(** [TrimLeftFunc s f]: [s] from its first rune that does not satisfy [f]
    ([indexFunc(s, f, false)] ranges over the runes of [s]); [skip] counts
    the bytes left of the rune being stepped over. *)
Fixpoint trimLeftFrom (f : Z -> bool) (skip : nat) (s : string) : string :=
  match s with
  | EmptyString => EmptyString
  | String _ s' =>
      match skip with
      | S k => trimLeftFrom f k s'
      | O =>
          let '(r, size) := utf8.DecodeRuneInString s in
          if f r then trimLeftFrom f (size - 1) s' else s
      end
  end.

Definition TrimLeftFunc (s : string) (f : Z -> bool) : string :=
  trimLeftFrom f 0 s.

(** [lastIndexFunc s f truth], the loop
    [for i := len(s); i > 0; { r, size := DecodeLastRuneInString(s[0:i]);
      i -= size; if f(r) == truth { return i } }; return -1]. *)
Fixpoint lastIndexLoop (fuel : nat) (s : string) (f : Z -> bool)
         (truth : bool) (i : Z) : Z :=
  match fuel with
  | O => -1
  | S fuel' =>
      if 0 <? i then
        let '(r, size) :=
          utf8.DecodeLastRuneInString (substring 0 (Z.to_nat i) s) in
        let i := i - Z.of_nat size in
        if Bool.eqb (f r) truth then i else lastIndexLoop fuel' s f truth i
      else -1
  end.

Definition lastIndexFunc (s : string) (f : Z -> bool) (truth : bool) : Z :=
  let n := String.length s in
  lastIndexLoop (S n) s f truth (Z.of_nat n).

Definition TrimRightFunc (s : string) (f : Z -> bool) : string :=
  let i := lastIndexFunc s f false in
  let i :=
    if (0 <=? i) && (utf8.RuneSelf <=? utf8.byteAt s i) then
      let '(_, wid) :=
        utf8.DecodeRuneInString
          (substring (Z.to_nat i) (String.length s - Z.to_nat i) s) in
      i + Z.of_nat wid
    else i + 1 in
  substring 0 (Z.to_nat i) s.

Definition TrimFunc (s : string) (f : Z -> bool) : string :=
  TrimRightFunc (TrimLeftFunc s f) f.

(** The second loop of [TrimSpace], on [s = s[start:]]:
    [for ; stop > start; stop-- { c := s[stop-1]; ... }], then
    [s[start:stop]]. *)
Fixpoint trimStop (s : string) (stop : nat) : string :=
  match stop with
  | O => EmptyString
  | S stop' =>
      match String.get stop' s with
      | Some c =>
          if utf8.RuneSelf <=? b2z c then
            TrimRightFunc (substring 0 stop s) unicode.IsSpace
          else if asciiSpace c then trimStop s stop'
          else substring 0 stop s
      | None => substring 0 stop s
      end
  end.

(** [TrimSpace s]: the first loop looks for the first byte that is not an
    ASCII space, and hands over to the rune-wise functions at the first
    byte that is not ASCII. *)
Fixpoint TrimSpace (s : string) : string :=
  match s with
  | EmptyString => EmptyString
  | String c s' =>
      if utf8.RuneSelf <=? b2z c then TrimFunc s unicode.IsSpace
      else if asciiSpace c then TrimSpace s'
      else trimStop s (String.length s)
  end.

End strings.

(** ** Package [time]

    A [Time] is an instant with a location: its seconds, its nanoseconds
    within the second, and the zone lookup of its [*Location]. Go keeps the
    seconds counted from January 1 of year 1 in an int64 (the field [ext]);
    [sec t] is that count less [unixToInternal], the seconds since the Unix
    epoch, so the order of the values [sec] is the order that [After]
    finds. The monotonic clock reading that [time.Now] attaches plays no
    part in the program: [AddDate] builds its result with [Date], which
    carries none, and [After] then compares wall-clock instants. The
    arithmetic is the library's (the sources of Go 1.22; later versions
    compute the same dates by other means), with the wrap-around of its
    64-bit integers written out as [uint64] and [int64]. *)

Module time.

(** The conversions [uint64(x)] and [int64(x)], and with them the result
    of an operation on 64-bit integers: [x] modulo [2^64], taken in
    [[0, 2^64)] and in [[-2^63, 2^63)]. Go's [int] has 64 bits on the
    platforms the program is built for. *)
Definition uint64 (x : Z) : Z := x mod 2 ^ 64.
Definition int64 (x : Z) : Z := (x + 2 ^ 63) mod 2 ^ 64 - 2 ^ 63.

(** [Location.lookup]: for Unix seconds, the zone in use then: its offset
    in seconds east of UTC and the interval [[start, end)] of its
    validity. *)
Definition Location : Type := Z -> Z * Z * Z.

Definition alpha : Z := - 2 ^ 63.
Definition omega : Z := 2 ^ 63 - 1.

Definition UTC : Location := fun _ => (0, alpha, omega).

Record Time : Type := mkTime { sec : Z; nsec : Z; loc : Location }.

Definition secondsPerMinute : Z := 60.
Definition secondsPerHour : Z := 60 * secondsPerMinute.
Definition secondsPerDay : Z := 24 * secondsPerHour.
Definition daysPer400Years : Z := 365 * 400 + 97.
Definition daysPer100Years : Z := 365 * 100 + 24.
Definition daysPer4Years : Z := 365 * 4 + 1.

Definition absoluteZeroYear : Z := -292277022399.
Definition absoluteToInternal : Z := -9223371966579724800.
Definition internalToAbsolute : Z := - absoluteToInternal.
Definition unixToInternal : Z :=
  (1969 * 365 + 1969 / 4 - 1969 / 100 + 1969 / 400) * secondsPerDay.
Definition internalToUnix : Z := - unixToInternal.

Definition January : Z := 1.
Definition February : Z := 2.
Definition March : Z := 3.
Definition December : Z := 12.

(** [daysBefore[m]]: the days of a non-leap year before month [m+1]. *)
Definition daysBefore (m : Z) : Z :=
  nth (Z.to_nat m)
      [0; 31; 59; 90; 120; 151; 181; 212; 243; 273; 304; 334; 365] 0.

Definition isLeap (year : Z) : bool :=
  (Z.rem year 4 =? 0)
  && (negb (Z.rem year 100 =? 0) || (Z.rem year 400 =? 0)).

(** [t.After(u)], [t.Before(u)], [t.Equal(u)] on wall-clock instants. *)
Definition After (t u : Time) : bool :=
  (sec u <? sec t) || ((sec t =? sec u) && (nsec u <? nsec t)).

Definition Before (t u : Time) : bool :=
  (sec t <? sec u) || ((sec t =? sec u) && (nsec t <? nsec u)).

Definition Equal (t u : Time) : bool :=
  (sec t =? sec u) && (nsec t =? nsec u).

(** The order of the instants: [t] is strictly before [u]. *)
Definition lt (t u : Time) : Prop :=
  sec t < sec u \/ (sec t = sec u /\ nsec t < nsec u).

(** [unixTime(sec, nsec)]: the seconds since year 1 are
    [sec + unixToInternal], an int64. *)
Definition unixTime (sec nsec : Z) (l : Location) : Time :=
  mkTime (int64 (sec + unixToInternal) - unixToInternal) nsec l.

(** [t.unixSec()]: [t.sec() + internalToUnix], an int64. *)
Definition unixSec (t : Time) : Z :=
  int64 (int64 (sec t + unixToInternal) + internalToUnix).

(** [t.abs()]: seconds since the absolute zero year, in [t]'s zone, a
    uint64. *)
Definition abs (t : Time) : Z :=
  let sec := unixSec t in
  let '(offset, _, _) := loc t sec in
  let sec := int64 (sec + offset) in
  uint64 (int64 (sec + (unixToInternal + internalToAbsolute))).

(** [absDate] after the 400-year cycles are split off: the year within
    the cycle and the day within that year, for a day [d] of the cycle.
    [absDate] and [absClock] take a uint64: on a value of [[0, 2^64)] they
    divide, and subtract what the quotients account for, so that none of
    their operations leaves the range of its type. *)
Definition cycleDate (d : Z) : Z * Z :=
  (* Cut off 100-year cycles. *)
  let n := d / daysPer100Years in
  let n := n - Z.shiftr n 2 in
  let y := 100 * n in
  let d := d - daysPer100Years * n in
  (* Cut off 4-year cycles. *)
  let n := d / daysPer4Years in
  let y := y + 4 * n in
  let d := d - daysPer4Years * n in
  (* Cut off years within a 4-year cycle. *)
  let n := d / 365 in
  let n := n - Z.shiftr n 2 in
  let y := y + n in
  let d := d - 365 * n in
  (y, d).

(** The month and day of the month for day [yday] of a year, [leap]
    telling whether the year is a leap year. *)
Definition monthDay (leap : bool) (yday : Z) : Z * Z :=
  let day := yday in
  if leap && (day =? 31 + 29 - 1) then (February, 29) else
  let day := if leap && (31 + 29 - 1 <? day) then day - 1 else day in
  (* Estimate month on assumption that every month has 31 days. *)
  let month := day / 31 in
  let end_ := daysBefore (month + 1) in
  let '(month, begin) :=
    if end_ <=? day then (month + 1, end_) else (month, daysBefore month) in
  (month + 1, day - begin + 1).

(** [absDate(abs, true)]: year, month, day, and day of the year. *)
Definition absDate (abs : Z) : Z * Z * Z * Z :=
  (* Split into time and day. *)
  let d := abs / secondsPerDay in
  (* Account for 400 year cycles. *)
  let n := d / daysPer400Years in
  let y := 400 * n in
  let d := d - daysPer400Years * n in
  let '(y', yday) := cycleDate d in
  let year := y + y' + absoluteZeroYear in
  let '(month, day) := monthDay (isLeap year) yday in
  (year, month, day, yday).

(** [absClock(abs)]: hour, minute and second of the day. *)
Definition absClock (abs : Z) : Z * Z * Z :=
  let sec := abs mod secondsPerDay in
  let hour := sec / secondsPerHour in
  let sec := sec - hour * secondsPerHour in
  let min := sec / secondsPerMinute in
  let sec := sec - min * secondsPerMinute in
  (hour, min, sec).

(** [t.Date()] and [t.Clock()]. *)
Definition civil (abs : Z) : Z * Z * Z :=
  let '(year, month, day, _) := absDate abs in (year, month, day).

Definition Date_of (t : Time) : Z * Z * Z := civil (abs t).

Definition Clock (t : Time) : Z * Z * Z := absClock (abs t).

(** [norm(hi, lo, base)]: [lo] brought into [[0, base)], the excess
    carried into [hi]. *)
Definition norm (hi lo base : Z) : Z * Z :=
  let '(hi, lo) :=
    if lo <? 0 then
      let n := int64 (Z.quot (int64 (int64 (- lo) - 1)) base + 1) in
      (int64 (hi - n), int64 (lo + int64 (n * base)))
    else (hi, lo) in
  if base <=? lo then
    let n := Z.quot lo base in
    (int64 (hi + n), int64 (lo - int64 (n * base)))
  else (hi, lo).

(** [daysSinceEpoch(year)]: the days from the absolute epoch to the
    start of [year], a uint64. *)
Definition daysSinceEpoch (year : Z) : Z :=
  let y := uint64 (int64 (year - absoluteZeroYear)) in
  (* Add in days from 400-year cycles. *)
  let n := y / 400 in
  let y := y - 400 * n in
  let d := uint64 (daysPer400Years * n) in
  (* Add in 100-year cycles. *)
  let n := y / 100 in
  let y := y - 100 * n in
  let d := uint64 (d + daysPer100Years * n) in
  (* Add in 4-year cycles. *)
  let n := y / 4 in
  let y := y - 4 * n in
  let d := uint64 (d + daysPer4Years * n) in
  (* Add in non-leap years. *)
  uint64 (d + 365 * y).

(** The end of [Date]: the Unix seconds at which the clocks of [l] show
    the reading that is [unix] when taken as UTC. The lookup expects UTC,
    so it is first tried at [unix] itself, and again when the zone found
    is not the one in use at the result. *)
Definition zoneAdjust (l : Location) (unix : Z) : Z :=
  (* Look for zone offset for expected time, so we can adjust to UTC. *)
  let '(offset, start, end_) := l unix in
  if negb (offset =? 0) then
    let utc := int64 (unix - offset) in
    let offset :=
      if (utc <? start) || (end_ <=? utc)
      then let '(offset', _, _) := l utc in offset'
      else offset in
    int64 (unix - offset)
  else unix.

(** [Date(year, month, day, hour, min, sec, nsec, loc)]: the instant of
    that wall-clock reading in [loc]; values out of range are normalised
    (October 32 is November 1). *)
Definition Date (year month day hour min sec nsec : Z) (l : Location)
  : Time :=
  (* Normalize month, overflowing into year. *)
  let m := int64 (month - 1) in
  let '(year, m) := norm year m 12 in
  let month := int64 (m + 1) in
  (* Normalize nsec, sec, min, hour, overflowing into day. *)
  let '(sec, nsec) := norm sec nsec 1000000000 in
  let '(min, sec) := norm min sec 60 in
  let '(hour, min) := norm hour min 60 in
  let '(day, hour) := norm day hour 24 in
  (* Compute days since the absolute epoch. *)
  let d := daysSinceEpoch year in
  (* Add in days before this month. *)
  let d := uint64 (d + uint64 (daysBefore (month - 1))) in
  let d := if isLeap year && (March <=? month) then uint64 (d + 1) else d in
  (* Add in days before today. *)
  let d := uint64 (d + uint64 (int64 (day - 1))) in
  (* Add in time elapsed today. *)
  let abs := uint64 (d * secondsPerDay) in
  let abs :=
    uint64 (abs + uint64 (hour * secondsPerHour + min * secondsPerMinute
                          + sec)) in
  let unix := int64 (int64 abs + (absoluteToInternal + internalToUnix)) in
  unixTime (zoneAdjust l unix) nsec l.

(** [t.AddDate(years, months, days)]. *)
Definition AddDate (t : Time) (years months days : Z) : Time :=
  let '(year, month, day) := Date_of t in
  let '(hour, min, sec) := Clock t in
  Date (int64 (year + years)) (int64 (month + months)) (int64 (day + days))
       hour min sec (nsec t) (loc t).

(** [Date] for a date and a clock reading given as triples. *)
Definition DateAt (date clock : Z * Z * Z) (nsec : Z) (l : Location)
  : Time :=
  let '(year, month, day) := date in
  let '(hour, min, sec) := clock in
  Date year month day hour min sec nsec l.

(** [t.Add(d)] for a duration [d] of [s] seconds. *)
Definition AddSeconds (t : Time) (s : Z) : Time :=
  mkTime (sec t + s) (nsec t) (loc t).

(** *** The calendar, for the statements *)

(** A location with one zone, [offset] seconds east of UTC. *)
Definition fixedZone (offset : Z) : Location :=
  fun _ => (offset, alpha, omega).

(** The days from the absolute epoch to the start of [year], as an
    integer: what [daysSinceEpoch] computes when nothing wraps around. *)
Definition epochDays (year : Z) : Z :=
  let y := year - absoluteZeroYear in
  let n := y / 400 in
  let y := y - 400 * n in
  let d := daysPer400Years * n in
  let n := y / 100 in
  let y := y - 100 * n in
  let d := d + daysPer100Years * n in
  let n := y / 4 in
  let y := y - 4 * n in
  let d := d + daysPer4Years * n in
  d + 365 * y.

(** The number of the day [year]-[month]-[day], counted from the
    absolute epoch. *)
Definition dayNumber (date : Z * Z * Z) : Z :=
  let '(year, month, day) := date in
  epochDays year + daysBefore (month - 1)
  + (if isLeap year && (March <=? month) then 1 else 0)
  + (day - 1).

(** The days of [month] in [year]. *)
Definition daysIn (month year : Z) : Z :=
  if (month =? February) && isLeap year then 29
  else daysBefore month - daysBefore (month - 1).

(** [year]-[month]-[day] is a date of the calendar. *)
Definition validDate (date : Z * Z * Z) : Prop :=
  let '(year, month, day) := date in
  1 <= month <= 12 /\ 1 <= day <= daysIn month year.

(** The leap years among the years [r] of a 400-year cycle; the cycles
    start with a year 1 modulo 400, as the absolute zero year is. *)
Definition leapInCycle (r : Z) : bool :=
  ((r + 1) mod 4 =? 0)
  && (negb ((r + 1) mod 100 =? 0) || ((r + 1) mod 400 =? 0)).

(** The days before year [r] of a cycle. *)
Definition cycleDays (r : Z) : Z :=
  36524 * (r / 100) + 1461 * ((r mod 100) / 4) + 365 * (r mod 4).

(** The day of the year of [month]-[day], from 0. *)
Definition yearDay (leap : bool) (month day : Z) : Z :=
  daysBefore (month - 1)
  + (if leap && (March <=? month) then 1 else 0)
  + (day - 1).

(** The days of [month], as [daysIn] has them. *)
Definition monthLength (leap : bool) (month : Z) : Z :=
  if (month =? February) && leap then 29
  else daysBefore month - daysBefore (month - 1).

(** [monthDay] is right on day [yday]. *)
Definition monthDayOk (leap : bool) (yday : Z) : bool :=
  let '(m, d) := monthDay leap yday in
  (1 <=? m) && (m <=? 12) && (1 <=? d) && (d <=? monthLength leap m)
  && (yearDay leap m d =? yday).

(** [monthDay] finds [month]-[day] again, when that is a date. *)
Definition monthDayInvOk (leap : bool) (month day : Z) : bool :=
  negb ((1 <=? day) && (day <=? monthLength leap month))
  || (let '(m, d) := monthDay leap (yearDay leap month day) in
      (m =? month) && (d =? day)).

(** The ranges of a uint64 and of an int64. *)
Definition inUint64 (x : Z) : Prop := 0 <= x < 2 ^ 64.
Definition inInt64 (x : Z) : Prop := - 2 ^ 63 <= x < 2 ^ 63.

(** An instant [s] seconds after the Unix epoch is one that a [Time]
    holds: its seconds since January 1 of year 1 fit an int64. *)
Definition representable (s : Z) : Prop := inInt64 (s + unixToInternal).

End time.

(** ** Errors and formatted values ([github.com/pkg/errors], [fmt])

    An error is kept as the call that built it: the format and the operands
    of [Errorf], the cause and the message of [Wrap]. The text that [%d],
    [%s] and [%v] would print is not computed, and a format is kept as the
    source writes it, escapes included. *)

Module errors.

Inductive value : Type :=
| VInt (n : Z)
| VString (s : string)
| VTime (t : time.Time)
| VError (e : error)
with error : Type :=
| Sys (msg : string)
    (** an error value of the operating system, the network stack or the
        TLS library *)
| Errorf (format : string) (args : list value)
| Wrap (err : error) (message : string).

End errors.

Abbreviation error := errors.error.

Module fmt.

(** One call [Fprintf(os.Stderr, format, args...)]. *)
Record line : Type := Fprintf { format : string; args : list errors.value }.

End fmt.

(** ** Package [bufio]: a [Scanner] with the split function [ScanLines] *)

Module bufio.

Definition MaxScanTokenSize : Z := 64 * 1024.

Definition ErrTooLong : error := errors.Sys "bufio.Scanner: token too long".

Definition newline : ascii := ascii_of_nat 10.
Definition cr : ascii := ascii_of_nat 13.

(** [dropCR data]: [data] without one trailing ['\r']. *)
Fixpoint dropCR (data : string) : string :=
  match data with
  | EmptyString => EmptyString
  | String c EmptyString =>
      if Ascii.eqb c cr then EmptyString else data
  | String c rest => String c (dropCR rest)
  end.

(** The tokens that successive calls of [Scan] deliver, and the value of
    [Err()] after the last one. The reader yields [data] and then the end
    of the file ([rerr = None]) or a read error. [pending] holds the bytes
    of the line being read: [ScanLines] returns it at a newline, and when
    the input ends on a line that is not empty; the scanner gives up with
    [ErrTooLong] when its buffer of [MaxScanTokenSize] bytes is full and
    holds no newline. *)
Fixpoint scanFrom (pending : string) (data : string) (rerr : option error)
  : list string * option error :=
  match data with
  | EmptyString =>
      (match pending with
       | EmptyString => []
       | _ => [dropCR pending]
       end, rerr)
  | String c rest =>
      if Ascii.eqb c newline then
        let '(tokens, err) := scanFrom EmptyString rest rerr in
        (dropCR pending :: tokens, err)
      else if MaxScanTokenSize <=? Z.of_nat (String.length pending) + 1 then
        ([], Some ErrTooLong)
      else scanFrom (pending +:+ String c EmptyString) rest rerr
  end.

Definition scan (data : string) (rerr : option error)
  : list string * option error :=
  scanFrom EmptyString data rerr.

End bufio.

(** ** Packages [os] and [crypto/tls]: what the environment answers *)

Module os.

(** What [os.Stat] and [os.Open] find at a path. *)
Inductive file : Type :=
| NotExist
    (** [os.Stat] fails with an error for which [os.IsNotExist] holds *)
| OpenError (err : error)
    (** [os.Open] fails *)
| File (data : string) (rerr : option error)
    (** the file opens; reading yields [data], then the end of the file
        or the error [rerr] *).

Definition FS : Type := string -> file.

End os.

Module x509.

(** The fields of [x509.Certificate] that the program reads. *)
Record Certificate : Type :=
  { NotAfter : time.Time; Subject_CommonName : string }.

End x509.

Module tls.

(** The outcome of [tls.Dial]: a connection, of which the program reads
    [ConnectionState().PeerCertificates], or an error. *)
Inductive dialed : Type :=
| Conn (PeerCertificates : list x509.Certificate)
| DialError (err : error).

End tls.

(** ** The program *)

(** [ExUsage]: from [man sysexits]. *)
Definition ExUsage : Z := 64.

(** The flags [-hosts], [-days], [-concurrency] and the positional
    arguments ([flag.Args()]) after [flag.Parse()]. *)
Record flags : Type :=
  { hostsFile : string; days : Z; concurrency : Z; Args : list string }.

Record result : Type := mkResult { Hostname : string; Err : option error }.

(** [readHostsFile]: the loop over [scanner.Scan()]. *)
Fixpoint scanLoop (hosts : list string) (tokens : list string) : list string :=
  match tokens with
  | [] => hosts
  | text :: tokens' => scanLoop (hosts ++ [strings.TrimSpace text]) tokens'
  end.

Definition readHostsFile (fs : os.FS) (hostsFile : string)
  : list string * option error :=
  let hosts : list string := [] in
  match fs hostsFile with
  | os.NotExist =>
      (hosts, Some (errors.Errorf "provided hosts file %s does not exist"
                                  [errors.VString hostsFile]))
  | os.OpenError err =>
      (hosts, Some (errors.Wrap err "error opening hosts file"))
  | os.File data rerr =>
      let '(tokens, serr) := bufio.scan data rerr in
      let hosts := scanLoop hosts tokens in
      match serr with
      | Some err => (hosts, Some (errors.Wrap err "error reading hosts file"))
      | None => (hosts, None)
      end
  end.

(** *** Effects of one check

    A check talks to the network and reads the clock. [World] holds the
    answers it gets, and the effects it performs are logged in order. *)

Record World : Type :=
  { dialAnswer : string -> string -> tls.dialed; nowAnswer : time.Time }.

Inductive Event : Type :=
| EvDial (network addr : string)
| EvClose (addr : string)
| EvNow.

Definition M (A : Type) : Type := World -> A * list Event.

Definition ret {A} (a : A) : M A := fun _ => (a, []).

Definition bind {A B} (m : M A) (k : A -> M B) : M B :=
  fun w => let '(a, e1) := m w in let '(b, e2) := k a w in (b, e1 ++ e2).

Notation "'let!' x ':=' m 'in' k" := (bind m (fun x => k))
  (at level 10, x name, m at level 100, k at level 200).

Definition tls_Dial (network addr : string) : M tls.dialed :=
  fun w => (dialAnswer w network addr, [EvDial network addr]).

Definition conn_Close (addr : string) : M unit :=
  fun _ => (tt, [EvClose addr]).

Definition time_Now : M time.Time :=
  fun w => (nowAnswer w, [EvNow]).

(** The addresses dialed in a log of effects, in order. *)
Definition dials (evs : list Event) : list (string * string) :=
  flat_map (fun ev =>
              match ev with
              | EvDial network addr => [(network, addr)]
              | _ => []
              end) evs.

(** The address that [checkCertificate] dials for [host]. *)
Definition connectHost (host : string) : string :=
  let connectHost := host in
  if negb (strings.Contains host ":") then host +:+ ":443" else connectHost.

(** The threshold [time.Now().AddDate(0, 0, *days)]. *)
Definition certExpiry (now : time.Time) (days : Z) : time.Time :=
  time.AddDate now 0 0 days.

(** The loop over [conn.ConnectionState().PeerCertificates], from index
    [i] on. *)
Fixpoint certLoop (certExpiry : time.Time) (i : Z)
         (certs : list x509.Certificate) : option error :=
  match certs with
  | [] => None
  | cert :: certs' =>
      if time.After certExpiry (x509.NotAfter cert) then
        Some (errors.Errorf "cert[%d] %s expires at %v"
                [errors.VInt i;
                 errors.VString (x509.Subject_CommonName cert);
                 errors.VTime (x509.NotAfter cert)])
      else certLoop certExpiry (i + 1) certs'
  end.

Definition checkCertificate (fl : flags) (host : string)
  : M (result * option error) :=
  let r := {| Hostname := host; Err := None |} in
  let connectHost := connectHost host in
  let! conn := tls_Dial "tcp" connectHost in
  match conn with
  | tls.DialError err => ret (r, Some (errors.Wrap err "tls dial"))
  | tls.Conn PeerCertificates =>
      let! _ := conn_Close connectHost in
      let! now := time_Now in
      let certExpiry := certExpiry now (days fl) in
      ret (r, certLoop certExpiry 0 PeerCertificates)
  end.

(** The body of the loop of [worker], up to the send on [results]. *)
Definition workerCheck (fl : flags) (host : string) : M result :=
  let! r_err := checkCertificate fl host in
  let '(r, err) := r_err in
  ret (match err with
       | Some _ => {| Hostname := Hostname r; Err := err |}
       | None => r
       end).

(** *** [main] up to the dispatch

    [main] first collects the host names, from the arguments and from the
    hosts file. It stops with [ExUsage] when the file cannot be read. *)

Inductive setup : Type :=
| Abort (stderr : list fmt.line) (code : Z)
| Dispatch (hosts : list string).

Definition mainSetup (fs : os.FS) (fl : flags) : setup :=
  let hosts : list string := [] in
  let hosts := hosts ++ Args fl in
  if (0 <? String.length (hostsFile fl))%nat then
    match readHostsFile fs (hostsFile fl) with
    | (_, Some err) =>
        Abort [fmt.Fprintf "error: %v\n" [errors.VError err]] ExUsage
    | (fileHosts, None) => Dispatch (hosts ++ fileHosts)
    end
  else Dispatch hosts.

(** *** The loop of [main] that consumes the results *)

Record consumer : Type :=
  { i : Z; anyErrors : bool; stderr : list fmt.line }.

(** One iteration, for the result [r] received from [results]. *)
Definition consume (c : consumer) (r : result) : consumer :=
  match Err r with
  | Some err =>
      {| i := i c + 1;
         anyErrors := true;
         stderr := stderr c ++
                   [fmt.Fprintf "error: %s: %v\n"
                      [errors.VString (Hostname r); errors.VError err]] |}
  | None => {| i := i c + 1; anyErrors := anyErrors c; stderr := stderr c |}
  end.

(** The loop [for i := 0; i < len(hosts); i++ { r := <-results; ... }] run
    against the values [incoming] that the channel delivers, in order: the
    state after the loop and the values never received, or [None] when the
    loop is left waiting on the channel. *)
Fixpoint consumeResults (n : Z) (c : consumer) (incoming : list result)
  : option (consumer * list result) :=
  if i c <? n then
    match incoming with
    | [] => None
    | r :: incoming' => consumeResults n (consume c r) incoming'
    end
  else Some (c, incoming).

(** The state of the loop when it is entered. *)
Definition consumer0 : consumer :=
  {| i := 0; anyErrors := false; stderr := [] |}.

(** What the loop prints for the results [rs], in order. *)
Definition report (rs : list result) : list fmt.line :=
  flat_map (fun r =>
              match Err r with
              | Some err =>
                  [fmt.Fprintf "error: %s: %v\n"
                     [errors.VString (Hostname r); errors.VError err]]
              | None => []
              end) rs.

(** [r] carries an error. *)
Definition failed (r : result) : bool :=
  match Err r with Some _ => true | None => false end.

(** The exit status at the end of [main]. *)
Definition exitStatus (c : consumer) : Z := if anyErrors c then 1 else 0.

(** *** The goroutines

    [queue] and [results] are unbuffered: a send and a receive happen
    together, as one step. *)

(** The goroutine that enqueues the work. *)
Inductive producer : Type :=
| PSend (rest : list string)
    (** in the loop over [hosts] with [rest] left to send; at
        [close(queue)] when [rest] is empty *)
| PDone
    (** [queue] is closed *).

(** One [worker]. *)
Inductive wstate : Type :=
| WRecv
    (** at [for host := range queue], waiting for a value *)
| WCheck (host : string)
    (** holds [host], before the call of [checkCertificate] *)
| WSend (r : result)
    (** at [results <- r] *)
| WDone
    (** returned: [queue] was closed *).

Record state : Type :=
  { st_producer : producer;
    st_workers : list wstate;
    st_main : consumer;
    st_exit : option Z;
    (** what [main] has received, oldest first, and the effects of the
        checks so far: kept for the statements, read by no step *)
    st_received : list result;
    st_events : list Event }.

(** The state once [main] has started the workers and the producer: the
    loop [for i := 0; i < *concurrency; i++] starts one worker for each
    [i] in [[0, concurrency)], none when [concurrency <= 0]. *)
Definition dispatch (fl : flags) (hosts : list string) : state :=
  {| st_producer := PSend hosts;
     st_workers := replicate (Z.to_nat (concurrency fl)) WRecv;
     st_main := consumer0;
     st_exit := None;
     st_received := [];
     st_events := [] |}.

Inductive step (fl : flags) (hosts : list string) : state -> state -> Prop :=
| step_handoff s j host rest :
    st_exit s = None ->
    st_producer s = PSend (host :: rest) ->
    st_workers s !! j = Some WRecv ->
    step fl hosts s
      {| st_producer := PSend rest;
         st_workers := <[j := WCheck host]> (st_workers s);
         st_main := st_main s; st_exit := None;
         st_received := st_received s; st_events := st_events s |}
| step_close s :
    st_exit s = None ->
    st_producer s = PSend [] ->
    step fl hosts s
      {| st_producer := PDone;
         st_workers := st_workers s;
         st_main := st_main s; st_exit := None;
         st_received := st_received s; st_events := st_events s |}
| step_return s j :
    st_exit s = None ->
    st_producer s = PDone ->
    st_workers s !! j = Some WRecv ->
    step fl hosts s
      {| st_producer := PDone;
         st_workers := <[j := WDone]> (st_workers s);
         st_main := st_main s; st_exit := None;
         st_received := st_received s; st_events := st_events s |}
| step_check s j host w :
    st_exit s = None ->
    st_workers s !! j = Some (WCheck host) ->
    step fl hosts s
      {| st_producer := st_producer s;
         st_workers := <[j := WSend (fst (workerCheck fl host w))]> (st_workers s);
         st_main := st_main s; st_exit := None;
         st_received := st_received s;
         st_events := st_events s ++ snd (workerCheck fl host w) |}
| step_result s j r :
    st_exit s = None ->
    st_workers s !! j = Some (WSend r) ->
    i (st_main s) < Z.of_nat (length hosts) ->
    step fl hosts s
      {| st_producer := st_producer s;
         st_workers := <[j := WRecv]> (st_workers s);
         st_main := consume (st_main s) r; st_exit := None;
         st_received := st_received s ++ [r];
         st_events := st_events s |}
| step_exit s :
    st_exit s = None ->
    ~ i (st_main s) < Z.of_nat (length hosts) ->
    step fl hosts s
      {| st_producer := st_producer s;
         st_workers := st_workers s;
         st_main := st_main s;
         st_exit := Some (exitStatus (st_main s));
         st_received := st_received s; st_events := st_events s |}.

(** [steps fl hosts n s s']: [n] steps lead from [s] to [s']. *)
Inductive steps (fl : flags) (hosts : list string)
  : nat -> state -> state -> Prop :=
| steps_O s : steps fl hosts 0 s s
| steps_S n s s' s'' :
    steps fl hosts n s s' -> step fl hosts s' s'' ->
    steps fl hosts (S n) s s''.

Definition reachable (fl : flags) (hosts : list string) (s : state) : Prop :=
  exists n, steps fl hosts n (dispatch fl hosts) s.

(** The whole program: [main] ends with status [code]. *)
Definition exits (fs : os.FS) (fl : flags) (code : Z) : Prop :=
  match mainSetup fs fl with
  | Abort _ code' => code = code'
  | Dispatch hosts =>
      exists s, reachable fl hosts s /\ st_exit s = Some code
  end.

(** The host names held by the producer and by the workers. *)
Definition pending (p : producer) : list string :=
  match p with PSend rest => rest | PDone => [] end.

Definition held (w : wstate) : list string :=
  match w with
  | WCheck host => [host]
  | WSend r => [Hostname r]
  | _ => []
  end.

Definition inflight (ws : list wstate) : list string := concat (map held ws).

(** A bound on the number of steps left. *)
Definition wweight (w : wstate) : nat :=
  match w with WCheck _ => 3 | WSend _ => 2 | WRecv => 1 | WDone => 0 end.

Fixpoint poolWeight (ws : list wstate) : nat :=
  match ws with
  | [] => 0
  | w :: ws' => wweight w + poolWeight ws'
  end.

Definition weight (s : state) : nat :=
  (match st_producer s with PSend rest => 4 * length rest + 1 | PDone => 0 end
   + poolWeight (st_workers s)
   + match st_exit s with None => 1 | Some _ => 0 end)%nat.

(** *** Invariant of the dispatch

    Every host name is in exactly one place: still with the producer, held
    by a worker, or in a result that [main] has received. The loop state of
    [main] is the one its iterations give on the results received, the pool
    keeps its size, a worker has returned only after [queue] was closed,
    and an exit status is the one [main] computes after its loop. *)
Record inv (fl : flags) (hosts : list string) (s : state) : Prop :=
  { inv_hosts :
      map Hostname (st_received s) ++ inflight (st_workers s)
        ++ pending (st_producer s) ≡ₚ hosts;
    inv_main : st_main s = fold_left consume (st_received s) consumer0;
    inv_pool : length (st_workers s) = Z.to_nat (concurrency fl);
    inv_done : In WDone (st_workers s) -> st_producer s = PDone;
    inv_exit :
      forall code, st_exit s = Some code ->
        ~ i (st_main s) < Z.of_nat (length hosts)
        /\ code = exitStatus (st_main s) }.

(** [inevitably fl hosts P s]: every run from [s] comes to a state that
    satisfies [P], whatever the order in which the goroutines move. *)
Inductive inevitably (fl : flags) (hosts : list string) (P : state -> Prop)
          (s : state) : Prop :=
| inevitably_now : P s -> inevitably fl hosts P s
| inevitably_step :
    (exists s', step fl hosts s s') ->
    (forall s', step fl hosts s s' -> inevitably fl hosts P s') ->
    inevitably fl hosts P s.

(** [main] has ended, with one result received for each host name. *)
Definition complete (hosts : list string) (s : state) : Prop :=
  (exists code, st_exit s = Some code)
  /\ length (st_received s) = length hosts
  /\ map Hostname (st_received s) ≡ₚ hosts.

(** *** Lines of a hosts file *)

(** The bytes of a file with the lines [lines], each ended by a newline,
    and then [last], which no newline ends. *)
Fixpoint unlines (lines : list string) (last : string) : string :=
  match lines with
  | [] => last
  | l :: lines' => l +:+ String bufio.newline (unlines lines' last)
  end.

(** The lines of that file: [last] counts when it is not empty. *)
Definition entries (lines : list string) (last : string) : list string :=
  lines ++ match last with EmptyString => [] | _ => [last] end.

(** A line: no newline within, and short enough for the scanner. *)
Definition noNewline (l : string) : Prop :=
  ~ In bufio.newline (list_ascii_of_string l).

Definition short (l : string) : Prop :=
  Z.of_nat (String.length l) < bufio.MaxScanTokenSize.

Definition isLine (l : string) : Prop := noNewline l /\ short l.

(** A line too long for the buffer of the scanner. *)
Definition tooLong (l : string) : Prop :=
  bufio.MaxScanTokenSize <= Z.of_nat (String.length l).

(** The lines of the bytes [data] of a file, and what follows the last
    newline; [pending] holds the bytes of the line being read. *)
Fixpoint splitFrom (pending : string) (data : string) : list string * string :=
  match data with
  | EmptyString => ([], pending)
  | String c rest =>
      if Ascii.eqb c bufio.newline then
        let '(lines, last) := splitFrom EmptyString rest in
        (pending :: lines, last)
      else splitFrom (pending +:+ String c EmptyString) rest
  end.

Abbreviation bytes := list_ascii_of_string.

(** Every byte of [s] is an ASCII space. *)
Definition allSpace (s : string) : Prop :=
  Forall (fun c => strings.asciiSpace c = true) (list_ascii_of_string s).

(** Every byte of [s] is ASCII. *)
Definition asciiOnly (s : string) : Prop :=
  Forall (fun c => b2z c < utf8.RuneSelf) (list_ascii_of_string s).

(** [s] neither begins nor ends with an ASCII space. *)
Definition trimmed (s : string) : Prop :=
  s = EmptyString
  \/ ((exists c, String.get 0 s = Some c /\ strings.asciiSpace c = false)
      /\ (exists c, String.get (String.length s - 1) s = Some c
                    /\ strings.asciiSpace c = false)).

(** A host name as a line of a hosts file keeps it: ASCII bytes, no space
    at its two ends, no newline, and short enough for the scanner. *)
Definition plainHost (h : string) : Prop :=
  asciiOnly h /\ trimmed h /\ isLine h.

(** The network and the address that [checkCertificate] dials for
    [host]. *)
Definition dialOf (host : string) : string * string :=
  ("tcp", connectHost host).

(** The host names whose check is done and whose result is still with a
    worker. *)
Definition checked (w : wstate) : list string :=
  match w with WSend r => [Hostname r] | _ => [] end.

Definition sending (ws : list wstate) : list string := concat (map checked ws).

(** [r] is what a worker sends for the host name that [r] carries, for some
    answers of the network and of the clock. *)
Definition isCheck (fl : flags) (r : result) : Prop :=
  exists w : World, r = fst (workerCheck fl (Hostname r) w).

(** The three errors a result can carry. *)
Definition checkError (err : error) : Prop :=
  (exists cause, err = errors.Wrap cause "tls dial")
  \/ (exists idx cn notAfter,
         err = errors.Errorf "cert[%d] %s expires at %v"
                 [errors.VInt idx; errors.VString cn; errors.VTime notAfter]).

(** What holds of every state of a run without workers: nothing was
    dialed or received, and [main] can only end if there is no host name. *)
Definition idle (fl : flags) (hosts : list string) (s : state) : Prop :=
  st_workers s = []
  /\ st_events s = []
  /\ st_received s = []
  /\ st_main s = consumer0
  /\ (hosts <> [] -> s = dispatch fl hosts)
  /\ (forall code, st_exit s = Some code -> hosts = [] /\ code = 0).

(** ** Sample inputs *)

(** A world in which every dial succeeds with an empty chain. *)
Definition anyWorld : World :=
  {| dialAnswer := fun _ _ => tls.Conn [];
     nowAnswer := time.mkTime 0 0 time.UTC |}.

(** A world in which every dial is refused. *)
Definition refusing : World :=
  {| dialAnswer := fun _ _ => tls.DialError (errors.Sys "connection refused");
     nowAnswer := time.mkTime 1705320000 0 time.UTC |}.


(** Two hosts, two workers, no hosts file. *)
Definition flTwo : flags :=
  {| hostsFile := ""; days := 30; concurrency := 2;
     Args := ["good.example"; "expiring.example"] |}.

(** One host and a worker pool of size zero. *)
Definition flNoWorker : flags :=
  {| hostsFile := ""; days := 30; concurrency := 0;
     Args := ["example.com"] |}.

(** A file system without files. *)
Definition fsEmpty : os.FS := fun _ => os.NotExist.

(** Hosts from a file that does not exist. *)
Definition flMissing : flags :=
  {| hostsFile := "hosts.txt"; days := 30; concurrency := 8; Args := [] |}.


(** A hosts file of three lines, the second one blank. *)
Definition hostsLines : list string := ["a.example"; ""; "  b.example "].

Definition fsHosts : os.FS :=
  fun path =>
    if String.eqb path "hosts.txt" then os.File (unlines hostsLines "") None
    else os.NotExist.

(** A location with a change of zone: one hour east of UTC, and two hours
    from 2024-03-31 01:00:00 UTC on. *)
Definition summerTime : time.Location :=
  fun sec =>
    if sec <? 1711846800 then (3600, time.alpha, 1711846800)
    else (7200, 1711846800, time.omega).

(** 2024-03-15 12:00:00 in that location. *)
Definition noonMarch15 : time.Time := time.mkTime 1710500400 0 summerTime.

(** 2024-01-15 12:00:00 UTC. *)
Definition noonJan15 : time.Time := time.mkTime 1705320000 0 time.UTC.

(** Three results, the first and the last with an error. *)
Definition threeResults : list result :=
  [ {| Hostname := "a.example";
       Err := Some (errors.Wrap (errors.Sys "connection refused") "tls dial") |};
    {| Hostname := "b.example"; Err := None |};
    {| Hostname := "c.example";
       Err := Some (errors.Wrap (errors.Sys "i/o timeout") "tls dial") |} ].

(** A world at 2024-01-15 12:00:00 UTC in which [good.example] presents a
    certificate that expires 400 days later and [expiring.example] one that
    expires 5 days later. *)
Definition certAt (cn : string) (notAfter : Z) : x509.Certificate :=
  {| x509.NotAfter := time.mkTime notAfter 0 time.UTC;
     x509.Subject_CommonName := cn |}.

Definition twoHosts : World :=
  {| dialAnswer := fun _ addr =>
       if String.eqb addr "good.example:443" then
         tls.Conn [certAt "good.example" (1705320000 + 400 * 86400)]
       else if String.eqb addr "expiring.example:443" then
         tls.Conn [certAt "expiring.example" (1705320000 + 5 * 86400)]
       else tls.DialError (errors.Sys "no such host");
     nowAnswer := noonJan15 |}.

(** Two arguments and the hosts file [hosts.txt]. *)
Definition flBoth : flags :=
  {| hostsFile := "hosts.txt"; days := 30; concurrency := 8;
     Args := ["x.example"; "y.example:8443"] |}.

(** The file [hosts.txt] with an error of the reader after its bytes. *)
Definition fsBroken : os.FS :=
  fun path =>
    if String.eqb path "hosts.txt" then
      os.File (unlines ["a.example"] "b.exam")
              (Some (errors.Sys "input/output error"))
    else os.NotExist.

(** Two hosts and a single worker. *)
Definition flOne : flags :=
  {| hostsFile := ""; days := 30; concurrency := 1;
     Args := ["a.example"; "b.example:8443"] |}.

(** No host name at all. *)
Definition flNone : flags :=
  {| hostsFile := ""; days := 30; concurrency := 8; Args := [] |}.

(** The file [hosts.txt] with three plain host names, one per line. *)
Definition plainHosts : list string :=
  ["a.example"; "b.example:8443"; "c.example"].

Definition fsPlain : os.FS :=
  fun path =>
    if String.eqb path "hosts.txt" then os.File (unlines plainHosts "") None
    else os.NotExist.

(** The state of a run once the first host name was handed to a worker,
    checked with the answers [w], and its result received by [main]. *)
Definition firstReceived (fl : flags) (host : string) (rest : list string)
           (w : World) : state :=
  {| st_producer := PSend rest;
     st_workers := replicate (Z.to_nat (concurrency fl)) WRecv;
     st_main := consume consumer0 (fst (workerCheck fl host w));
     st_exit := None;
     st_received := [fst (workerCheck fl host w)];
     st_events := snd (workerCheck fl host w) |}.

(** One host and one worker. *)
Definition flSingle : flags :=
  {| hostsFile := ""; days := 30; concurrency := 1; Args := ["a.example"] |}.

(** The end of the run of [flSingle] in which the dial is refused. *)
Definition refusedRun : state :=
  let s := firstReceived flSingle "a.example" [] refusing in
  {| st_producer := st_producer s;
     st_workers := st_workers s;
     st_main := st_main s;
     st_exit := Some (exitStatus (st_main s));
     st_received := st_received s;
     st_events := st_events s |}.

(** * Properties *)

(** ** The library on sample inputs *)

Example TrimSpace_ex1 :
  strings.TrimSpace
    (String (ascii_of_nat 9) (" a b " +:+ String (ascii_of_nat 13) ""))
  = "a b".
Proof. reflexivity. Qed.

(** 2024-01-15 12:00:00 UTC plus 30 days is 2024-02-14 12:00:00 UTC. *)
Example AddDate_ex1 :
  time.AddDate (time.mkTime 1705320000 0 time.UTC) 0 0 30
  = time.mkTime 1707912000 0 time.UTC.
Proof. reflexivity. Qed.


(** ** The dial address *)

Lemma HasPrefix_colon (s : string) :
  strings.HasPrefix s ":" =
  match s with
  | EmptyString => false
  | String c _ => Ascii.eqb ":" c
  end.
Proof.
  destruct s as [|c s']; [reflexivity|].
  cbn [strings.HasPrefix]. rewrite andb_true_r. apply Ascii.eqb_sym.
Qed.

Lemma Contains_colon (s : string) :
  strings.Contains s ":" = existsb (Ascii.eqb ":") (list_ascii_of_string s).
Proof.
  induction s as [|c s' IH].
  - reflexivity.
  - change (strings.Contains (String c s') ":")
      with (strings.HasPrefix (String c s') ":" || strings.Contains s' ":").
    rewrite HasPrefix_colon, IH. reflexivity.
Qed.

Lemma checkCertificate_dials fl host w :
  dials (snd (checkCertificate fl host w)) = [("tcp", connectHost host)].
Proof.
  unfold checkCertificate, bind, tls_Dial; simpl.
  destruct (dialAnswer w "tcp" (connectHost host)); reflexivity.
Qed.

(** C5. For every host name, [checkCertificate] dials exactly one address:
    the host name followed by [":443"] when the host name holds no [':']
    byte, and the host name itself otherwise. *)
Theorem C5_dial_address (fl : flags) (host : string) (w : World) :
  dials (snd (checkCertificate fl host w)) =
  [("tcp",
    if existsb (Ascii.eqb ":") (list_ascii_of_string host)
    then host
    else host +:+ ":443")].
Proof.
  rewrite checkCertificate_dials. unfold connectHost.
  rewrite Contains_colon.
  now destruct (existsb _ _).
Qed.

Example connectHost_ex1 : connectHost "example.com" = "example.com:443".
Proof. reflexivity. Qed.

Example connectHost_ex2 : connectHost "example.com:8443" = "example.com:8443".
Proof. reflexivity. Qed.

(** ** The host name of a result *)

Lemma checkCertificate_Hostname fl host w :
  Hostname (fst (fst (checkCertificate fl host w))) = host.
Proof.
  unfold checkCertificate, bind, tls_Dial; simpl.
  destruct (dialAnswer w "tcp" (connectHost host)); reflexivity.
Qed.

Lemma checkCertificate_result fl host w :
  fst (fst (checkCertificate fl host w)) = {| Hostname := host; Err := None |}.
Proof.
  unfold checkCertificate, bind, tls_Dial; simpl.
  destruct (dialAnswer w "tcp" (connectHost host)); reflexivity.
Qed.

Lemma workerCheck_fst fl host w :
  fst (workerCheck fl host w) =
  {| Hostname := host; Err := snd (fst (checkCertificate fl host w)) |}.
Proof.
  unfold workerCheck, bind.
  pose proof (checkCertificate_result fl host w) as Hr.
  destruct (checkCertificate fl host w) as [[r err] evs].
  cbn in Hr |- *. subst r.
  destruct err; reflexivity.
Qed.

Lemma workerCheck_snd fl host w :
  snd (workerCheck fl host w) = snd (checkCertificate fl host w).
Proof.
  unfold workerCheck, bind.
  destruct (checkCertificate fl host w) as [[r err] evs].
  cbn. apply app_nil_r.
Qed.

(** C6. The result of a check carries the host name as it was given,
    whatever the dial address and whatever the outcome of the check: both
    the result that [checkCertificate] returns and the one that the worker
    sends. *)
Theorem C6_hostname_preserved (fl : flags) (host : string) (w : World) :
  Hostname (fst (fst (checkCertificate fl host w))) = host
  /\ Hostname (fst (workerCheck fl host w)) = host.
Proof.
  split.
  - apply checkCertificate_Hostname.
  - now rewrite workerCheck_fst.
Qed.

(** ** A failed dial *)

Lemma checkCertificate_DialError fl host w err :
  dialAnswer w "tcp" (connectHost host) = tls.DialError err ->
  checkCertificate fl host w =
  ({| Hostname := host; Err := None |},
   Some (errors.Wrap err "tls dial"),
   [EvDial "tcp" (connectHost host)]).
Proof.
  intros Hd. unfold checkCertificate, bind, tls_Dial; simpl.
  rewrite Hd. reflexivity.
Qed.

Lemma checkCertificate_Conn fl host w certs :
  dialAnswer w "tcp" (connectHost host) = tls.Conn certs ->
  checkCertificate fl host w =
  ({| Hostname := host; Err := None |},
   certLoop (certExpiry (nowAnswer w) (days fl)) 0 certs,
   [EvDial "tcp" (connectHost host); EvClose (connectHost host); EvNow]).
Proof.
  intros Hd. unfold checkCertificate, bind, tls_Dial; simpl.
  rewrite Hd. reflexivity.
Qed.

(** C8. The worker puts the error that [checkCertificate] returns into the
    result it sends, so every check ends in a result. When the dial fails
    with [err], that result carries [err] wrapped as ["tls dial"], and the
    dial is the only effect of the check: the connection is not closed, the
    clock is not read and no certificate is looked at. When the dial
    succeeds, the result carries what the expiry loop returns for the chain
    of the connection. *)
Theorem C8_dial_error_captured (fl : flags) (host : string) (w : World) :
  Err (fst (workerCheck fl host w)) = snd (fst (checkCertificate fl host w))
  /\ (forall err,
        dialAnswer w "tcp" (connectHost host) = tls.DialError err ->
        workerCheck fl host w =
        ({| Hostname := host; Err := Some (errors.Wrap err "tls dial") |},
         [EvDial "tcp" (connectHost host)]))
  /\ (forall certs,
        dialAnswer w "tcp" (connectHost host) = tls.Conn certs ->
        workerCheck fl host w =
        ({| Hostname := host;
            Err := certLoop (certExpiry (nowAnswer w) (days fl)) 0 certs |},
         [EvDial "tcp" (connectHost host); EvClose (connectHost host);
          EvNow])).
Proof.
  split; [|split].
  - now rewrite workerCheck_fst.
  - intros err Hd.
    rewrite (surjective_pairing (workerCheck fl host w)).
    rewrite workerCheck_fst, workerCheck_snd.
    now rewrite (checkCertificate_DialError fl host w err Hd).
  - intros certs Hd.
    rewrite (surjective_pairing (workerCheck fl host w)).
    rewrite workerCheck_fst, workerCheck_snd.
    now rewrite (checkCertificate_Conn fl host w certs Hd).
Qed.

Lemma C8_dial_error_captured_witness :
  workerCheck (Build_flags "" 30 8 []) "example.com" refusing =
  ({| Hostname := "example.com";
      Err := Some (errors.Wrap (errors.Sys "connection refused") "tls dial") |},
   [EvDial "tcp" "example.com:443"]).
Proof.
  apply (proj1 (proj2 (C8_dial_error_captured (Build_flags "" 30 8 [])
                         "example.com" refusing))).
  reflexivity.
Defined.

(** ** The expiry loop *)

Lemma After_lt (t u : time.Time) : time.After t u = true <-> time.lt u t.
Proof.
  unfold time.After, time.lt.
  rewrite orb_true_iff, andb_true_iff, !Z.ltb_lt, Z.eqb_eq.
  intuition lia.
Qed.

Lemma After_not_lt (t u : time.Time) :
  time.After t u = false <-> ~ time.lt u t.
Proof.
  rewrite <- After_lt. destruct (time.After t u); intuition congruence.
Qed.

Lemma Before_lt (t u : time.Time) : time.Before t u = true <-> time.lt t u.
Proof.
  unfold time.Before, time.lt.
  rewrite orb_true_iff, andb_true_iff, !Z.ltb_lt, Z.eqb_eq.
  intuition lia.
Qed.

Lemma After_Before (t u : time.Time) : time.After t u = time.Before u t.
Proof.
  unfold time.After, time.Before. now rewrite (Z.eqb_sym (time.sec t)).
Qed.

Lemma Equal_not_lt (t u : time.Time) :
  time.Equal t u = true -> ~ time.lt t u.
Proof.
  unfold time.Equal, time.lt.
  rewrite andb_true_iff, !Z.eqb_eq. lia.
Qed.

(** What the loop does from index [k] on. *)
Lemma certLoop_spec (threshold : time.Time) (chain : list x509.Certificate) :
  forall k : Z,
  match certLoop threshold k chain with
  | Some err =>
      exists (idx : nat) (cert : x509.Certificate),
        chain !! idx = Some cert
        /\ time.lt (x509.NotAfter cert) threshold
        /\ (forall (j : nat) (c : x509.Certificate),
              (j < idx)%nat -> chain !! j = Some c ->
              ~ time.lt (x509.NotAfter c) threshold)
        /\ err = errors.Errorf "cert[%d] %s expires at %v"
                   [errors.VInt (k + Z.of_nat idx);
                    errors.VString (x509.Subject_CommonName cert);
                    errors.VTime (x509.NotAfter cert)]
  | None =>
      forall c : x509.Certificate,
        In c chain -> ~ time.lt (x509.NotAfter c) threshold
  end.
Proof.
  induction chain as [|cert chain IH]; intros k; cbn [certLoop].
  - intros c [].
  - destruct (time.After threshold (x509.NotAfter cert)) eqn:Haft.
    + exists 0%nat, cert. repeat split.
      * now apply After_lt.
      * intros j c Hj. lia.
      * now rewrite Z.add_0_r.
    + apply After_not_lt in Haft.
      specialize (IH (k + 1)).
      destruct (certLoop threshold (k + 1) chain) as [err|].
      * destruct IH as (idx & c & Hlk & Hlt & Hfirst & ->).
        exists (S idx), c. repeat split; try assumption.
        -- intros [|j] c' Hj Hc'; cbn in Hc'.
           ++ now inversion Hc'; subst.
           ++ apply (Hfirst j c'); [lia | assumption].
        -- do 3 f_equal. lia.
      * intros c [<-|Hin]; [assumption | now apply IH].
Qed.

(** C3. The expiry loop over a chain fails exactly at the first certificate
    whose [NotAfter] is strictly before the threshold, with an error that
    holds the index of that certificate, its subject common name and its
    [NotAfter]; it succeeds when no certificate of the chain expires
    strictly before the threshold. A certificate that expires at the
    threshold instant is not strictly before it, and the empty chain
    succeeds. *)
Theorem C3_expiry_evaluator (threshold : time.Time)
        (chain : list x509.Certificate) :
  match certLoop threshold 0 chain with
  | Some err =>
      exists (idx : nat) (cert : x509.Certificate),
        chain !! idx = Some cert
        /\ time.lt (x509.NotAfter cert) threshold
        /\ (forall (j : nat) (c : x509.Certificate),
              (j < idx)%nat -> chain !! j = Some c ->
              ~ time.lt (x509.NotAfter c) threshold)
        /\ err = errors.Errorf "cert[%d] %s expires at %v"
                   [errors.VInt (Z.of_nat idx);
                    errors.VString (x509.Subject_CommonName cert);
                    errors.VTime (x509.NotAfter cert)]
  | None =>
      forall c : x509.Certificate,
        In c chain -> ~ time.lt (x509.NotAfter c) threshold
  end
  /\ (forall c : x509.Certificate,
        time.Equal (x509.NotAfter c) threshold = true ->
        certLoop threshold 0 [c] = None)
  /\ certLoop threshold 0 [] = None.
Proof.
  split; [|split].
  - exact (certLoop_spec threshold chain 0).
  - intros c Heq. cbn [certLoop].
    apply Equal_not_lt in Heq. apply After_not_lt in Heq.
    now rewrite Heq.
  - reflexivity.
Qed.

Lemma C3_expiry_evaluator_witness :
  certLoop (time.mkTime 1707912000 0 time.UTC) 0
           [{| x509.NotAfter := time.mkTime 1707912000 0 time.UTC;
               x509.Subject_CommonName := "example.com" |}] = None.
Proof.
  apply (proj1 (proj2 (C3_expiry_evaluator
                         (time.mkTime 1707912000 0 time.UTC) []))).
  reflexivity.
Defined.

(** ** The loop that consumes the results *)

Lemma consume_i c r : i (consume c r) = i c + 1.
Proof. unfold consume. now destruct (Err r). Qed.

Lemma consume_stderr c r : stderr (consume c r) = stderr c ++ report [r].
Proof.
  unfold consume, report. cbn [flat_map].
  destruct (Err r); cbn; now rewrite ?app_nil_r.
Qed.

Lemma consume_anyErrors c r :
  anyErrors (consume c r) = anyErrors c || failed r.
Proof.
  unfold consume, failed.
  destruct (Err r); cbn; now rewrite ?orb_true_r, ?orb_false_r.
Qed.

Lemma fold_consume_i rs : forall c,
  i (fold_left consume rs c) = i c + Z.of_nat (length rs).
Proof.
  induction rs as [|r rs IH]; intros c; cbn [fold_left length].
  - lia.
  - rewrite IH, consume_i. lia.
Qed.

Lemma report_app rs1 rs2 : report (rs1 ++ rs2) = report rs1 ++ report rs2.
Proof. unfold report. apply flat_map_app. Qed.

Lemma fold_consume_stderr rs : forall c,
  stderr (fold_left consume rs c) = stderr c ++ report rs.
Proof.
  induction rs as [|r rs IH]; intros c; cbn [fold_left].
  - now rewrite app_nil_r.
  - rewrite IH, consume_stderr, <- app_assoc, <- report_app. reflexivity.
Qed.

Lemma fold_consume_anyErrors rs : forall c,
  anyErrors (fold_left consume rs c) = anyErrors c || existsb failed rs.
Proof.
  induction rs as [|r rs IH]; intros c; cbn [fold_left existsb].
  - now rewrite orb_false_r.
  - rewrite IH, consume_anyErrors. now rewrite orb_assoc.
Qed.

Lemma existsb_failed rs :
  existsb failed rs = true <-> exists r, In r rs /\ Err r <> None.
Proof.
  rewrite existsb_exists. unfold failed.
  split; intros (r & Hin & Hr); exists r; split; try assumption;
    destruct (Err r); congruence.
Qed.

(** The loop receives exactly the values it still needs. *)
Lemma consumeResults_exact n rs : forall c extra,
  i c + Z.of_nat (length rs) = n ->
  consumeResults n c (rs ++ extra) = Some (fold_left consume rs c, extra).
Proof.
  induction rs as [|r rs IH]; intros c extra Hn.
  - cbn [length] in Hn. cbn [app fold_left].
    destruct extra; cbn [consumeResults];
      (destruct (i c <? n) eqn:Hlt; [apply Z.ltb_lt in Hlt; lia | reflexivity]).
  - cbn [length] in Hn. cbn [app fold_left consumeResults].
    destruct (i c <? n) eqn:Hlt; [|apply Z.ltb_ge in Hlt; lia].
    apply IH. rewrite consume_i. lia.
Qed.

(** With fewer values than it needs, the loop is left waiting. *)
Lemma consumeResults_short n rs : forall c,
  i c + Z.of_nat (length rs) < n -> consumeResults n c rs = None.
Proof.
  induction rs as [|r rs IH]; intros c Hn; cbn [length] in Hn;
    cbn [consumeResults];
    (destruct (i c <? n) eqn:Hlt; [|apply Z.ltb_ge in Hlt; lia]).
  - reflexivity.
  - apply IH. rewrite consume_i. lia.
Qed.

(** C4. Run against any sequence of results, the loop of [main] receives
    as many of them as there are host names, failures or not: it leaves what
    comes after them, and is still waiting when given fewer. It prints one
    line, with the host name and the error, for each result that carries an
    error, in the order received, and [anyErrors] is set exactly when some
    result carries an error, in which case the exit status is 1. *)
Theorem C4_aggregator (rs extra : list result) :
  let n := Z.of_nat (length rs) in
  exists c : consumer,
    consumeResults n consumer0 (rs ++ extra) = Some (c, extra)
    /\ i c = n
    /\ stderr c = report rs
    /\ (anyErrors c = true <-> exists r, In r rs /\ Err r <> None)
    /\ (exitStatus c = 1 <-> anyErrors c = true)
    /\ (forall rs' : list result,
          (length rs' < length rs)%nat ->
          consumeResults n consumer0 rs' = None).
Proof.
  intros n. exists (fold_left consume rs consumer0).
  split; [|split; [|split; [|split; [|split]]]].
  - apply consumeResults_exact. cbn. lia.
  - rewrite fold_consume_i. cbn. lia.
  - now rewrite fold_consume_stderr.
  - rewrite fold_consume_anyErrors. cbn [consumer0 anyErrors orb].
    apply existsb_failed.
  - unfold exitStatus. destruct (anyErrors _); intuition congruence.
  - intros rs' Hlen. apply consumeResults_short. cbn. lia.
Qed.

Lemma C4_aggregator_witness :
  (length (take 1 threeResults) < length threeResults)%nat
  /\ consumeResults 3 consumer0 (take 1 threeResults) = None.
Proof.
  assert (Hlen : (length (take 1 threeResults) < length threeResults)%nat)
    by (cbn; lia).
  split; [exact Hlen|].
  destruct (C4_aggregator threeResults []) as (c & _ & _ & _ & _ & _ & Hwait).
  exact (Hwait (take 1 threeResults) Hlen).
Defined.

Example aggregator_ex1 :
  consumeResults 3 consumer0 threeResults
  = Some ({| i := 3; anyErrors := true; stderr := report threeResults |}, [])
  /\ length (report threeResults) = 2%nat.
Proof. split; reflexivity. Qed.

(** Two hosts checked in turn: the second one fails, and [main] ends with
    status 1 after one line of report. *)
Example two_hosts_ex1 :
  let rs := map (fun host => fst (workerCheck flTwo host twoHosts))
                (Args flTwo) in
  map Hostname rs = ["good.example"; "expiring.example"]
  /\ map failed rs = [false; true]
  /\ option_map (fun cr => exitStatus (fst cr))
                (consumeResults 2 consumer0 rs) = Some 1
  /\ option_map (fun cr => length (stderr (fst cr)))
                (consumeResults 2 consumer0 rs) = Some 1%nat.
Proof. vm_compute. repeat split. Qed.

(** ** The dispatch *)

Section Dispatch.

Variable fl : flags.
Variable hosts : list string.

Lemma inflight_insert (ws : list wstate) : forall (j : nat) (w0 w : wstate),
  ws !! j = Some w0 ->
  held w0 ++ inflight (<[j := w]> ws) ≡ₚ held w ++ inflight ws.
Proof.
  unfold inflight.
  induction ws as [|w1 ws IH]; intros [|j] w0 w Hj; cbn in Hj; try discriminate.
  - inversion Hj; subst. cbn. apply Permutation_app_swap_app.
  - cbn. specialize (IH j w0 w Hj).
    rewrite !(Permutation_app_swap_app _ (held w1)).
    now apply Permutation_app_head.
Qed.

Lemma wweight_insert (ws : list wstate) : forall (j : nat) (w0 w : wstate),
  ws !! j = Some w0 ->
  (poolWeight (<[j := w]> ws) + wweight w0
   = poolWeight ws + wweight w)%nat.
Proof.
  induction ws as [|w1 ws IH]; intros [|j] w0 w Hj; cbn in Hj; try discriminate.
  - inversion Hj; subst. cbn. lia.
  - change (<[S j := w]> (w1 :: ws)) with (w1 :: <[j := w]> ws).
    cbn [poolWeight]. specialize (IH j w0 w Hj). lia.
Qed.

Lemma In_insert (ws : list wstate) : forall (j : nat) (w x : wstate),
  In x (<[j := w]> ws) -> x = w \/ In x ws.
Proof.
  induction ws as [|w1 ws IH]; intros [|j] w x Hin; cbn in Hin |- *;
    try tauto.
  - destruct Hin as [<-|Hin]; auto.
  - destruct Hin as [<-|Hin]; auto.
    destruct (IH j w x Hin); auto.
Qed.

Lemma inflight_replicate (n : nat) : inflight (replicate n WRecv) = [].
Proof. induction n as [|n IHn]; [reflexivity | exact IHn]. Qed.

Lemma In_replicate_WRecv (n : nat) (w : wstate) :
  In w (replicate n WRecv) -> w = WRecv.
Proof.
  induction n as [|n IHn]; cbn; [tauto | intros [<-|Hin]; auto].
Qed.

Lemma inv_dispatch : inv fl hosts (dispatch fl hosts).
Proof.
  split; unfold dispatch;
    cbn [st_received st_workers st_producer st_main st_exit].
  - rewrite inflight_replicate. reflexivity.
  - reflexivity.
  - apply length_replicate.
  - intros Hin. apply In_replicate_WRecv in Hin. discriminate.
  - discriminate.
Qed.

Lemma inv_step (s s' : state) :
  inv fl hosts s -> step fl hosts s s' -> inv fl hosts s'.
Proof.
  intros [Hh Hm Hp Hd He] Hstep.
  destruct Hstep as [s j host rest Hex Hpr Hj | s Hex Hpr | s j Hex Hpr Hj
                    | s j host w Hex Hj | s j r Hex Hj Hlt | s Hex Hge];
    split; cbn; try assumption; try discriminate;
    try (rewrite length_insert; assumption).
  - (* handoff: the host name moves from the producer to worker [j] *)
    rewrite Hpr in Hh. cbn in Hh. rewrite <- Hh.
    pose proof (inflight_insert (st_workers s) j WRecv (WCheck host) Hj) as Hi.
    cbn in Hi. rewrite Hi.
    apply Permutation_app_head. cbn.
    apply Permutation_middle.
  - intros Hin. apply In_insert in Hin as [Hin|Hin]; [discriminate|].
    apply Hd in Hin. congruence.
  - now rewrite Hpr in Hh.
  - intros _. reflexivity.
  - (* return *)
    rewrite Hpr in Hh. cbn in Hh. rewrite <- Hh.
    pose proof (inflight_insert (st_workers s) j WRecv WDone Hj) as Hi.
    cbn in Hi. now rewrite Hi.
  - intros _. reflexivity.
  - (* check: the result carries the host name of the check *)
    rewrite <- Hh.
    pose proof (inflight_insert (st_workers s) j (WCheck host)
                  (WSend (fst (workerCheck fl host w))) Hj) as Hi.
    cbn in Hi. rewrite workerCheck_fst in Hi. cbn in Hi.
    apply Permutation_app_head, Permutation_app_tail.
    rewrite workerCheck_fst.
    apply (Permutation_cons_inv Hi).
  - intros Hin. apply In_insert in Hin as [Hin|Hin]; [discriminate | auto].
  - (* result: the host name moves from worker [j] to [main] *)
    rewrite <- Hh.
    pose proof (inflight_insert (st_workers s) j (WSend r) WRecv Hj) as Hi.
    cbn in Hi. rewrite <- Hi.
    rewrite map_app. cbn. rewrite <- !app_assoc. reflexivity.
  - rewrite fold_left_app. cbn. now rewrite Hm.
  - intros Hin. apply In_insert in Hin as [Hin|Hin]; [discriminate | auto].
  - (* exit *)
    intros code Hc. inversion Hc; subst. auto.
Qed.

Lemma inv_steps (n : nat) (s s' : state) :
  inv fl hosts s -> steps fl hosts n s s' -> inv fl hosts s'.
Proof.
  intros Hinv Hsteps. induction Hsteps as [|n s s' s'' _ IH Hstep].
  - assumption.
  - eapply inv_step; [apply IH; assumption | eassumption].
Qed.

Lemma inv_reachable (s : state) : reachable fl hosts s -> inv fl hosts s.
Proof. intros [n Hn]. eapply inv_steps; [apply inv_dispatch | eassumption]. Qed.

(** Every step uses up some of the weight. *)
Lemma step_weight (s s' : state) :
  step fl hosts s s' -> (weight s' < weight s)%nat.
Proof.
  intros Hstep.
  destruct Hstep as [s j host rest Hex Hpr Hj | s Hex Hpr | s j Hex Hpr Hj
                    | s j host w Hex Hj | s j r Hex Hj Hlt | s Hex Hge];
    unfold weight; cbn [st_producer st_workers st_exit];
    rewrite ?Hex, ?Hpr.
  - pose proof (wweight_insert (st_workers s) j WRecv (WCheck host) Hj).
    cbn [wweight length] in *. lia.
  - cbn [length]. lia.
  - pose proof (wweight_insert (st_workers s) j WRecv WDone Hj).
    cbn [wweight] in *. lia.
  - pose proof (wweight_insert (st_workers s) j (WCheck host)
                  (WSend (fst (workerCheck fl host w))) Hj).
    cbn [wweight] in *. lia.
  - pose proof (wweight_insert (st_workers s) j (WSend r) WRecv Hj).
    cbn [wweight] in *. lia.
  - lia.
Qed.

Lemma steps_weight (n : nat) (s s' : state) :
  steps fl hosts n s s' -> (n + weight s' <= weight s)%nat.
Proof.
  intros Hsteps. induction Hsteps as [|n s s' s'' _ IH Hstep].
  - lia.
  - apply step_weight in Hstep. lia.
Qed.

Lemma poolWeight_replicate (n : nat) : poolWeight (replicate n WRecv) = n.
Proof. induction n as [|n IHn]; cbn; [reflexivity | now rewrite IHn]. Qed.

Lemma weight_dispatch :
  weight (dispatch fl hosts)
  = (4 * length hosts + Z.to_nat (concurrency fl) + 2)%nat.
Proof.
  unfold weight, dispatch; cbn [st_producer st_workers st_exit].
  rewrite poolWeight_replicate. lia.
Qed.

(** A pool either has a worker with work in hand, or all its workers wait
    on [queue] or have returned. *)
Lemma pool_cases (ws : list wstate) :
  (exists j host, ws !! j = Some (WCheck host))
  \/ (exists j r, ws !! j = Some (WSend r))
  \/ (forall w, In w ws -> w = WRecv \/ w = WDone).
Proof.
  induction ws as [|w ws IH].
  - right; right. intros w [].
  - destruct w as [|host|r|].
    2:{ left. now exists 0%nat, host. }
    2:{ right; left. now exists 0%nat, r. }
    all: destruct IH as [(j & host & Hj)|[(j & r & Hj)|Hall]];
      [ left; now exists (S j), host
      | right; left; now exists (S j), r
      | right; right; intros w [<-|Hin]; auto ].
Qed.

Lemma inflight_idle (ws : list wstate) :
  (forall w, In w ws -> w = WRecv \/ w = WDone) -> inflight ws = [].
Proof.
  unfold inflight. induction ws as [|w ws IH]; intros Hall; [reflexivity|].
  cbn. rewrite IH by (intros w' Hin; apply Hall; now right).
  destruct (Hall w (or_introl eq_refl)) as [-> | ->]; reflexivity.
Qed.

(** With at least one worker, a run that has not ended can go on. *)
Lemma progress (s : state) :
  1 <= concurrency fl ->
  inv fl hosts s -> st_exit s = None -> exists s', step fl hosts s s'.
Proof.
  intros Hc [Hh Hm Hp Hd He] Hex.
  destruct (Z_lt_dec (i (st_main s)) (Z.of_nat (length hosts))) as [Hlt|Hge];
    [|eexists; now apply step_exit].
  destruct (pool_cases (st_workers s))
    as [(j & host & Hj)|[(j & r & Hj)|Hall]].
  - eexists. apply (step_check fl hosts s j host anyWorld); assumption.
  - eexists. apply (step_result fl hosts s j r); assumption.
  - (* all workers wait or have returned: a host name is left to send *)
    rewrite (inflight_idle _ Hall) in Hh. cbn [app] in Hh.
    apply Permutation_length in Hh.
    rewrite length_app, length_map in Hh.
    rewrite Hm, fold_consume_i in Hlt. cbn [consumer0 i] in Hlt.
    destruct (st_producer s) as [[|host rest]|] eqn:Hpr;
      cbn [pending length] in Hh; try lia.
    destruct (st_workers s) as [|w ws] eqn:Hws; [cbn in Hp; lia|].
    destruct (Hall w (or_introl eq_refl)) as [-> | ->].
    + eexists. apply (step_handoff fl hosts s 0 host rest); try assumption.
      now rewrite Hws.
    + discriminate (Hd (or_introl eq_refl)).
Qed.

(** The host names of the results received are among the host names
    given, each no more often than it was given. *)
Lemma received_sub (s : state) :
  inv fl hosts s ->
  (forall r, In r (st_received s) -> In (Hostname r) hosts)
  /\ exists others, map Hostname (st_received s) ++ others ≡ₚ hosts.
Proof.
  intros [Hh _ _ _ _]. split.
  - intros r Hin. eapply Permutation_in; [exact Hh|].
    apply in_or_app. left. now apply in_map.
  - eexists. exact Hh.
Qed.

(** When [main] ends after its loop, it has received one result for each
    host name. *)
Lemma exit_received (s : state) (code : Z) :
  inv fl hosts s -> st_exit s = Some code ->
  length (st_received s) = length hosts
  /\ map Hostname (st_received s) ≡ₚ hosts
  /\ code = exitStatus (fold_left consume (st_received s) consumer0).
Proof.
  intros [Hh Hm Hp Hd He] Hex.
  destruct (He code Hex) as [Hge ->].
  rewrite Hm in Hge |- *. rewrite fold_consume_i in Hge.
  cbn [consumer0 i] in Hge.
  pose proof (Permutation_length Hh) as Hlen.
  rewrite !length_app, length_map in Hlen.
  assert (Hnil : inflight (st_workers s) ++ pending (st_producer s) = []).
  { apply length_zero_iff_nil. rewrite length_app. lia. }
  rewrite Hnil, app_nil_r in Hh.
  repeat split; [lia | assumption].
Qed.

Lemma steps_app (n m : nat) (s1 s2 s3 : state) :
  steps fl hosts n s1 s2 -> steps fl hosts m s2 s3 ->
  steps fl hosts (n + m) s1 s3.
Proof.
  intros H1 H2. induction H2 as [|m s2 s3 s4 _ IH Hstep].
  - now rewrite Nat.add_0_r.
  - rewrite Nat.add_succ_r. eapply steps_S; [apply IH; assumption | eassumption].
Qed.

(** With at least one worker, every state of a run leads to the end of
    [main]. *)
Lemma run_to_exit (s : state) :
  1 <= concurrency fl ->
  inv fl hosts s ->
  exists (n : nat) (s' : state) (code : Z),
    steps fl hosts n s s' /\ st_exit s' = Some code.
Proof.
  intros Hc. remember (weight s) as w eqn:Hw. revert s Hw.
  induction w as [w IH] using lt_wf_ind. intros s Hw Hinv.
  destruct (st_exit s) as [code|] eqn:Hex.
  - exists 0%nat, s, code. split; [constructor | assumption].
  - destruct (progress s Hc Hinv Hex) as [s1 Hstep].
    pose proof (step_weight s s1 Hstep) as Hlt.
    destruct (IH (weight s1) ltac:(lia) s1 eq_refl (inv_step s s1 Hinv Hstep))
      as (n & s' & code & Hsteps & Hcode).
    exists (1 + n)%nat, s', code. split; [|assumption].
    apply (steps_app 1 n s s1 s'); [|assumption].
    eapply steps_S; [constructor | eassumption].
Qed.

Lemma reachable_exit (s : state) :
  1 <= concurrency fl ->
  reachable fl hosts s ->
  exists (s' : state) (code : Z),
    reachable fl hosts s' /\ st_exit s' = Some code.
Proof.
  intros Hc Hr.
  destruct (run_to_exit s Hc (inv_reachable s Hr))
    as (n & s' & code & Hsteps & Hcode).
  exists s', code. split; [|assumption].
  destruct Hr as [m Hm]. exists (m + n)%nat. eapply steps_app; eassumption.
Qed.

(** With at least one worker, every run ends with [main] holding one
    result for each host name. *)
Lemma inevitably_complete (s : state) :
  1 <= concurrency fl ->
  inv fl hosts s ->
  inevitably fl hosts (complete hosts) s.
Proof.
  intros Hc. remember (weight s) as w eqn:Hw. revert s Hw.
  induction w as [w IH] using lt_wf_ind. intros s Hw Hinv.
  destruct (st_exit s) as [code|] eqn:Hex.
  - apply inevitably_now.
    destruct (exit_received s code Hinv Hex) as (Hlen & Hperm & _).
    split; [now exists code | now split].
  - apply inevitably_step; [now apply progress|].
    intros s' Hstep.
    apply (IH (weight s')); [|reflexivity | now apply (inv_step s)].
    subst w. now apply step_weight.
Qed.

End Dispatch.

(** C1. For at least one host name and at least one worker: whatever the
    order in which the goroutines move, the dispatch ends with [main]
    having received exactly as many results as there are host names, their
    host names being the input up to order. In detail: a run takes a
    bounded number of steps and cannot stop before [main] ends, and there
    is a run in which [main] ends; the results that [main] has received at
    any moment carry host names of the input, none more often than the
    input has it; and when [main] ends it has received one result for each
    host name. *)
Theorem C1_dispatch_exactly_once (fl : flags) (hosts : list string) :
  (1 <= length hosts)%nat ->
  1 <= concurrency fl ->
  inevitably fl hosts (complete hosts) (dispatch fl hosts)
  /\ (forall n s,
        steps fl hosts n (dispatch fl hosts) s ->
        (n <= 4 * length hosts + Z.to_nat (concurrency fl) + 2)%nat)
  /\ (forall s,
        reachable fl hosts s -> st_exit s = None ->
        exists s', step fl hosts s s')
  /\ (exists s code, reachable fl hosts s /\ st_exit s = Some code)
  /\ (forall s,
        reachable fl hosts s ->
        (forall r, In r (st_received s) -> In (Hostname r) hosts)
        /\ exists others, map Hostname (st_received s) ++ others ≡ₚ hosts)
  /\ (forall s code,
        reachable fl hosts s -> st_exit s = Some code ->
        length (st_received s) = length hosts
        /\ map Hostname (st_received s) ≡ₚ hosts).
Proof.
  intros _ Hc. split; [|split; [|split; [|split; [|split]]]].
  - apply inevitably_complete; [assumption | apply inv_dispatch].
  - intros n s Hsteps. apply steps_weight in Hsteps.
    rewrite weight_dispatch in Hsteps. lia.
  - intros s Hr Hex. apply progress; [assumption | | assumption].
    now apply inv_reachable.
  - apply (reachable_exit fl hosts (dispatch fl hosts) Hc).
    exists 0%nat. constructor.
  - intros s Hr. apply (received_sub fl). now apply inv_reachable.
  - intros s code Hr Hex.
    destruct (exit_received fl hosts s code (inv_reachable fl hosts s Hr) Hex)
      as (Hlen & Hperm & _).
    now split.
Qed.

Lemma C1_dispatch_exactly_once_witness :
  (1 <= length (Args flTwo))%nat
  /\ 1 <= concurrency flTwo
  /\ (forall s code,
        reachable flTwo (Args flTwo) s -> st_exit s = Some code ->
        length (st_received s) = 2%nat
        /\ map Hostname (st_received s)
             ≡ₚ ["good.example"; "expiring.example"]).
Proof.
  assert (H1 : (1 <= length (Args flTwo))%nat) by (cbn; lia).
  assert (H2 : 1 <= concurrency flTwo) by (cbn; lia).
  split; [exact H1 | split; [exact H2 |]].
  exact (proj2 (proj2 (proj2 (proj2 (proj2
           (C1_dispatch_exactly_once flTwo (Args flTwo) H1 H2)))))).
Defined.

(** ** A worker pool of size zero *)

Section NoWorker.

Variable fl : flags.
Variable hosts : list string.
Hypothesis Hconc : concurrency fl <= 0.

Lemma dispatch_idle : idle fl hosts (dispatch fl hosts).
Proof.
  unfold idle, dispatch; cbn [st_workers st_events st_received st_main st_exit].
  replace (Z.to_nat (concurrency fl)) with 0%nat by lia.
  repeat split; discriminate.
Qed.

Lemma step_idle (s s' : state) :
  idle fl hosts s -> step fl hosts s s' -> idle fl hosts s'.
Proof.
  intros (Hw & Hev & Hrec & Hm & Hne & Hex) Hstep.
  destruct Hstep as [s j host rest Hex' Hpr Hj | s Hex' Hpr | s j Hex' Hpr Hj
                    | s j host w Hex' Hj | s j r Hex' Hj Hlt | s Hex' Hge];
    try (rewrite Hw in Hj; discriminate Hj).
  - (* close: only without host names *)
    assert (Hnil : hosts = []).
    { destruct hosts as [|h hs] eqn:Hh; [reflexivity|].
      rewrite Hne in Hpr by discriminate. discriminate Hpr. }
    unfold idle; cbn [st_workers st_events st_received st_main st_exit].
    repeat split; try assumption; try discriminate.
    intros Hne'. contradiction.
  - (* exit: only without host names *)
    rewrite Hm in Hge. cbn [consumer0 i] in Hge.
    assert (Hnil : hosts = []).
    { destruct hosts as [|h hs]; [reflexivity | cbn [length] in Hge; lia]. }
    unfold idle; cbn [st_workers st_events st_received st_main st_exit].
    split; [assumption | split; [assumption | split; [assumption |
      split; [assumption | split]]]].
    + intros Hne'. contradiction.
    + intros code Hcode. inversion Hcode; subst code.
      split; [assumption | now rewrite Hm].
Qed.

Lemma reachable_idle (s : state) : reachable fl hosts s -> idle fl hosts s.
Proof.
  intros [n Hn]. revert Hn. generalize dispatch_idle.
  generalize (dispatch fl hosts) as s0. intros s0 H0 Hn.
  induction Hn as [|n s0 s1 s2 _ IH Hstep].
  - assumption.
  - eapply step_idle; [apply IH; assumption | eassumption].
Qed.

(** With a host name to send, nothing can happen. *)
Lemma dispatch_stuck :
  hosts <> [] -> ~ exists s', step fl hosts (dispatch fl hosts) s'.
Proof.
  intros Hne [s' Hstep].
  pose proof dispatch_idle as (Hw & _ & _ & Hm & _ & _).
  inversion Hstep as [s j host rest Hex' Hpr Hj | s Hex' Hpr | s j Hex' Hpr Hj
                    | s j host w Hex' Hj | s j r Hex' Hj Hlt | s Hex' Hge];
    subst; try (rewrite Hw in Hj; discriminate Hj).
  - cbn in Hpr. inversion Hpr. contradiction.
  - rewrite Hm in Hge. cbn [consumer0 i] in Hge.
    destruct hosts; [contradiction | cbn [length] in Hge; lia].
Qed.

End NoWorker.

Lemma mainSetup_concurrency (fs : os.FS) (fl : flags) (c : Z) :
  mainSetup fs {| hostsFile := hostsFile fl; days := days fl;
                  concurrency := c; Args := Args fl |}
  = mainSetup fs fl.
Proof. reflexivity. Qed.

(** C2 as stated fails: with one host name and [-concurrency 0], [main]
    raises no configuration error; it reaches the dispatch and then never
    ends, with [ExUsage] or with any other status. *)
Lemma C2_no_config_error :
  concurrency flNoWorker <= 0
  /\ mainSetup fsEmpty flNoWorker = Dispatch ["example.com"]
  /\ ~ exits fsEmpty flNoWorker ExUsage
  /\ ~ exists code, exits fsEmpty flNoWorker code.
Proof.
  assert (Hc : concurrency flNoWorker <= 0) by (cbn; lia).
  assert (Hno : ~ exists code, exits fsEmpty flNoWorker code).
  { intros [code Hexit]. unfold exits in Hexit. cbn in Hexit.
    destruct Hexit as (s & Hr & Hex).
    apply (reachable_idle flNoWorker _ Hc) in Hr.
    destruct Hr as (_ & _ & _ & _ & _ & Hcode).
    destruct (Hcode code Hex) as [Hnil _]. discriminate Hnil. }
  split; [exact Hc | split; [reflexivity | split; [|exact Hno]]].
  intros Hexit. apply Hno. now exists ExUsage.
Qed.

(** C2, amended. A concurrency of zero or less is not checked: the setup of
    [main] does not depend on it. When the setup succeeds, the dispatch
    starts with no worker; in every state of the run no address has been
    dialed and no result received. With at least one host name the run
    cannot take a single step, so [main] never ends; the only status [main]
    can end with is 0, when there is no host name. *)
Theorem C2_nonpositive_concurrency (fs : os.FS) (fl : flags)
        (hosts : list string) :
  concurrency fl <= 0 ->
  mainSetup fs fl = Dispatch hosts ->
  (forall c,
      mainSetup fs {| hostsFile := hostsFile fl; days := days fl;
                      concurrency := c; Args := Args fl |} = Dispatch hosts)
  /\ st_workers (dispatch fl hosts) = []
  /\ (forall s,
        reachable fl hosts s ->
        st_workers s = [] /\ dials (st_events s) = [] /\ st_received s = [])
  /\ (hosts <> [] ->
      (~ exists s', step fl hosts (dispatch fl hosts) s')
      /\ forall s, reachable fl hosts s -> st_exit s = None)
  /\ (forall s code,
        reachable fl hosts s -> st_exit s = Some code ->
        hosts = [] /\ code = 0).
Proof.
  intros Hc Hsetup.
  split; [|split; [|split; [|split]]].
  - intros c. now rewrite mainSetup_concurrency.
  - apply (dispatch_idle fl hosts Hc).
  - intros s Hr. apply (reachable_idle fl hosts Hc) in Hr.
    destruct Hr as (Hw & Hev & Hrec & _). now rewrite Hev.
  - intros Hne. split; [now apply dispatch_stuck|].
    intros s Hr. apply (reachable_idle fl hosts Hc) in Hr.
    destruct Hr as (_ & _ & _ & _ & Hs & _).
    rewrite (Hs Hne). reflexivity.
  - intros s code Hr Hex. apply (reachable_idle fl hosts Hc) in Hr.
    destruct Hr as (_ & _ & _ & _ & _ & Hcode). now apply Hcode.
Qed.

Lemma C2_nonpositive_concurrency_witness :
  concurrency flNoWorker <= 0
  /\ mainSetup fsEmpty flNoWorker = Dispatch ["example.com"]
  /\ st_workers (dispatch flNoWorker ["example.com"]) = []
  /\ ~ exists s', step flNoWorker ["example.com"]
                    (dispatch flNoWorker ["example.com"]) s'.
Proof.
  assert (Hc : concurrency flNoWorker <= 0) by (cbn; lia).
  assert (Hs : mainSetup fsEmpty flNoWorker = Dispatch ["example.com"])
    by reflexivity.
  destruct (C2_nonpositive_concurrency fsEmpty flNoWorker ["example.com"]
              Hc Hs) as (_ & Hw & _ & Hstuck & _).
  split; [exact Hc | split; [exact Hs | split; [exact Hw |]]].
  apply Hstuck. discriminate.
Defined.

(** ** What holds of every state of a run *)

Lemma steps_ind_from (fl : flags) (hosts : list string) (P : state -> Prop) :
  P (dispatch fl hosts) ->
  (forall s s', P s -> step fl hosts s s' -> P s') ->
  forall s, reachable fl hosts s -> P s.
Proof.
  intros H0 Hstep s [n Hn]. revert Hn H0.
  generalize (dispatch fl hosts) as s0. intros s0 Hn H0.
  induction Hn as [|n s0 s1 s2 _ IH Hs].
  - assumption.
  - eapply Hstep; [apply IH; assumption | eassumption].
Qed.

(** Every result, received or ready to be sent, is the outcome of a check
    of the host name it carries. *)
Lemma isCheck_reachable (fl : flags) (hosts : list string) (s : state) :
  reachable fl hosts s ->
  Forall (isCheck fl) (st_received s)
  /\ forall j r, st_workers s !! j = Some (WSend r) -> isCheck fl r.
Proof.
  revert s. apply steps_ind_from.
  - unfold dispatch; cbn [st_received st_workers]. split; [constructor|].
    intros j r Hj. apply lookup_replicate in Hj as [Hj _]. discriminate Hj.
  - intros s s' [Hrec Hws] Hstep.
    destruct Hstep as [s j host rest Hex Hpr Hj | s Hex Hpr | s j Hex Hpr Hj
                      | s j host w Hex Hj | s j r Hex Hj Hlt | s Hex Hge];
      cbn [st_received st_workers]; (split; [|intros j' r' Hj']);
      try assumption; try (now apply (Hws j' r')).
    all: try (destruct (decide (j = j')) as [<-|Hne];
              [ rewrite list_lookup_insert_eq in Hj'
                  by (now apply lookup_lt_Some in Hj);
                inversion Hj'; subst r'
              | rewrite list_lookup_insert_ne in Hj' by assumption;
                now apply (Hws j' r') ]).
    + exists w.
      assert (Hh : Hostname (fst (workerCheck fl host w)) = host)
        by now rewrite workerCheck_fst.
      now rewrite Hh.
    + apply Forall_app. split; [assumption|].
      constructor; [|constructor]. now apply (Hws j r).
Qed.

Lemma firstReceived_reachable (fl : flags) (host : string)
      (rest : list string) (w : World) :
  1 <= concurrency fl ->
  reachable fl (host :: rest) (firstReceived fl host rest w).
Proof.
  intros Hc. exists 3%nat. unfold firstReceived.
  destruct (Z.to_nat (concurrency fl)) as [|n] eqn:Hn; [lia|].
  eapply steps_S; [eapply steps_S; [eapply steps_S; [apply steps_O|]|]|].
  - apply (step_handoff fl (host :: rest) (dispatch fl (host :: rest))
             0 host rest); [reflexivity | reflexivity|].
    unfold dispatch; cbn [st_workers]. now rewrite Hn.
  - apply (step_check fl (host :: rest) _ 0 host w); [reflexivity|].
    unfold dispatch; cbn [st_workers]. now rewrite Hn.
  - unfold dispatch; cbn [st_workers st_producer st_main st_received st_events].
    rewrite Hn. cbn [replicate].
    apply (step_result fl (host :: rest)
             {| st_producer := PSend rest;
                st_workers := WSend (fst (workerCheck fl host w))
                                :: replicate n WRecv;
                st_main := consumer0; st_exit := None;
                st_received := [];
                st_events := snd (workerCheck fl host w) |}
             0 (fst (workerCheck fl host w)));
      [reflexivity | reflexivity | cbn; lia].
Qed.

Lemma refusedRun_reachable : reachable flSingle (Args flSingle) refusedRun.
Proof.
  destruct (firstReceived_reachable flSingle "a.example" [] refusing)
    as [n Hn]; [cbn; lia|].
  exists (S n). eapply steps_S; [exact Hn|].
  apply (step_exit flSingle (Args flSingle)
           (firstReceived flSingle "a.example" [] refusing));
    [reflexivity|].
  unfold firstReceived; cbn [st_main]. rewrite consume_i. cbn. lia.
Qed.

(** ** The exit status *)

Lemma exitStatus_fold (rs : list result) :
  exitStatus (fold_left consume rs consumer0)
  = if existsb failed rs then 1 else 0.
Proof.
  unfold exitStatus. rewrite fold_consume_anyErrors. reflexivity.
Qed.

Lemma existsb_failed_false (rs : list result) :
  existsb failed rs = false <-> forall r, In r rs -> Err r = None.
Proof.
  split.
  - intros Hex r Hin.
    destruct (Err r) as [err|] eqn:Herr; [|reflexivity].
    assert (Ht : existsb failed rs = true).
    { apply existsb_failed. exists r. split; [assumption | congruence]. }
    congruence.
  - intros Hall. destruct (existsb failed rs) eqn:Hex; [|reflexivity].
    apply existsb_failed in Hex as (r & Hin & Hr).
    now rewrite (Hall r Hin) in Hr.
Qed.

(** C9. [main] ends with [ExUsage] (64) when the hosts file cannot be
    read, before anything is dispatched; with 1 when it has received a
    result for every host name and one of them carries an error; and with 0
    only when it has received a result for every host name and none carries
    an error. This holds of every run that ends: the results that [main]
    has received then are one for each host name, each the outcome of the
    check of its host name with the error that [checkCertificate] returned,
    and the status is 1 exactly when one of them carries an error and 0
    exactly when none does. With at least one worker a dispatch does lead
    to the end of [main]. The three values are distinct. *)
Theorem C9_exit_status (fs : os.FS) (fl : flags) :
  (forall code,
      exits fs fl code ->
      (code = ExUsage /\ exists out, mainSetup fs fl = Abort out ExUsage)
      \/ (exists hosts s,
            mainSetup fs fl = Dispatch hosts
            /\ reachable fl hosts s
            /\ st_exit s = Some code
            /\ length (st_received s) = length hosts
            /\ map Hostname (st_received s) ≡ₚ hosts
            /\ ((code = 1 /\ exists r, In r (st_received s) /\ Err r <> None)
                \/ (code = 0
                    /\ forall r, In r (st_received s) -> Err r = None))))
  /\ (forall hosts s code,
        mainSetup fs fl = Dispatch hosts ->
        reachable fl hosts s ->
        st_exit s = Some code ->
        length (st_received s) = length hosts
        /\ map Hostname (st_received s) ≡ₚ hosts
        /\ (forall r,
              In r (st_received s) ->
              exists w : World,
                r = {| Hostname := Hostname r;
                       Err := snd (fst (checkCertificate fl (Hostname r) w)) |})
        /\ (code = 1 <-> exists r, In r (st_received s) /\ Err r <> None)
        /\ (code = 0 <-> forall r, In r (st_received s) -> Err r = None))
  /\ (forall hosts err,
        (0 < String.length (hostsFile fl))%nat ->
        readHostsFile fs (hostsFile fl) = (hosts, Some err) ->
        exits fs fl ExUsage /\ forall code, exits fs fl code -> code = ExUsage)
  /\ (forall hosts,
        1 <= concurrency fl ->
        mainSetup fs fl = Dispatch hosts ->
        exists code, exits fs fl code)
  /\ ExUsage <> 1 /\ ExUsage <> 0.
Proof.
  assert (Hrun : forall hosts s code,
             reachable fl hosts s -> st_exit s = Some code ->
             length (st_received s) = length hosts
             /\ map Hostname (st_received s) ≡ₚ hosts
             /\ (code = 1 <-> exists r, In r (st_received s) /\ Err r <> None)
             /\ (code = 0 <-> forall r, In r (st_received s) -> Err r = None)).
  { intros hosts s code Hr Hex.
    destruct (exit_received fl hosts s code (inv_reachable fl hosts s Hr) Hex)
      as (Hlen & Hperm & Hcode).
    rewrite exitStatus_fold in Hcode.
    split; [assumption | split; [assumption|]].
    rewrite <- existsb_failed, <- existsb_failed_false.
    destruct (existsb failed (st_received s)); subst code;
      split; split; intros H; try reflexivity; discriminate H. }
  split; [|split; [|split; [|split; [|split; discriminate]]]].
  - intros code Hexit. unfold exits in Hexit.
    destruct (mainSetup fs fl) as [out code'|hosts] eqn:Hsetup.
    + left. subst code'.
      assert (Hc : code = ExUsage).
      { unfold mainSetup in Hsetup.
        destruct (0 <? String.length (hostsFile fl))%nat; [|discriminate].
        destruct (readHostsFile fs (hostsFile fl)) as [fileHosts [err|]];
          now inversion Hsetup. }
      subst code. split; [reflexivity | now exists out].
    + right. destruct Hexit as (s & Hr & Hex).
      destruct (Hrun hosts s code Hr Hex) as (Hlen & Hperm & H1 & H0).
      exists hosts, s.
      repeat (split; [assumption || reflexivity|]).
      destruct (exit_received fl hosts s code (inv_reachable fl hosts s Hr) Hex)
        as (_ & _ & Hcode).
      rewrite exitStatus_fold in Hcode.
      destruct (existsb failed (st_received s)).
      * left. split; [assumption | now apply H1].
      * right. split; [assumption | now apply H0].
  - intros hosts s code _ Hr Hex.
    destruct (Hrun hosts s code Hr Hex) as (Hlen & Hperm & H1 & H0).
    repeat (split; [assumption|]).
    split; [|split; assumption].
    intros r Hin.
    destruct (isCheck_reachable fl hosts s Hr) as [Hrec _].
    destruct (proj1 (List.Forall_forall _ _) Hrec r Hin) as [w Hw].
    exists w. rewrite Hw at 1. apply workerCheck_fst.
  - intros hosts err Hlen Hread. unfold exits, mainSetup.
    apply Nat.ltb_lt in Hlen. rewrite Hlen, Hread.
    split; [reflexivity | auto].
  - intros hosts Hc Hsetup. unfold exits. rewrite Hsetup.
    destruct (reachable_exit fl hosts (dispatch fl hosts) Hc)
      as (s & code & Hr & Hcode); [exists 0%nat; constructor|].
    now exists code, s.
Qed.

Lemma C9_exit_status_witness :
  ((0 < String.length (hostsFile flMissing))%nat
   /\ exits fsEmpty flMissing ExUsage)
  /\ (mainSetup fsEmpty flSingle = Dispatch ["a.example"]
      /\ reachable flSingle ["a.example"] refusedRun
      /\ st_exit refusedRun = Some 1
      /\ exists r, In r (st_received refusedRun) /\ Err r <> None).
Proof.
  assert (Hlen : (0 < String.length (hostsFile flMissing))%nat) by (cbn; lia).
  assert (Hs : mainSetup fsEmpty flSingle = Dispatch ["a.example"])
    by reflexivity.
  assert (Hex : st_exit refusedRun = Some 1) by reflexivity.
  split; [split; [exact Hlen|] | split; [exact Hs | split;
    [exact refusedRun_reachable | split; [exact Hex|]]]].
  - refine (proj1 (proj1 (proj2 (proj2 (C9_exit_status fsEmpty flMissing)))
                     [] _ Hlen _)).
    reflexivity.
  - destruct (proj1 (proj2 (C9_exit_status fsEmpty flSingle))
                ["a.example"] refusedRun 1 Hs refusedRun_reachable Hex)
      as (_ & _ & _ & H1 & _).
    now apply H1.
Defined.

(** ** Reading the hosts file *)

Lemma append_nil_l (s : string) : "" +:+ s = s.
Proof. reflexivity. Qed.

Lemma append_cons (c : ascii) (s1 s2 : string) :
  String c s1 +:+ s2 = String c (s1 +:+ s2).
Proof. reflexivity. Qed.

Lemma append_nil_r (s : string) : s +:+ "" = s.
Proof.
  induction s as [|c s IH]; [reflexivity | now rewrite append_cons, IH].
Qed.

Lemma append_assoc (s1 s2 s3 : string) :
  (s1 +:+ s2) +:+ s3 = s1 +:+ (s2 +:+ s3).
Proof.
  induction s1 as [|c s1 IH]; [reflexivity | now rewrite !append_cons, IH].
Qed.

Lemma length_append (s1 s2 : string) :
  String.length (s1 +:+ s2) = (String.length s1 + String.length s2)%nat.
Proof.
  induction s1 as [|c s1 IH]; [reflexivity|].
  rewrite append_cons. cbn [String.length]. now rewrite IH.
Qed.

Lemma scanLoop_map (tokens : list string) : forall hosts,
  scanLoop hosts tokens = hosts ++ map strings.TrimSpace tokens.
Proof.
  induction tokens as [|text tokens IH]; intros hosts; cbn [scanLoop map].
  - now rewrite app_nil_r.
  - rewrite IH, <- app_assoc. reflexivity.
Qed.

(** The scanner on a line that a newline ends. *)
Lemma scanFrom_line (l : string) : forall (pending rest : string) rerr,
  ~ In bufio.newline (list_ascii_of_string l) ->
  Z.of_nat (String.length pending + String.length l) < bufio.MaxScanTokenSize ->
  bufio.scanFrom pending (l +:+ String bufio.newline rest) rerr
  = (bufio.dropCR (pending +:+ l) :: fst (bufio.scanFrom "" rest rerr),
     snd (bufio.scanFrom "" rest rerr)).
Proof.
  induction l as [|c l IH]; intros pending rest rerr Hnl Hlen.
  - rewrite append_nil_l. cbn [bufio.scanFrom].
    rewrite Ascii.eqb_refl, append_nil_r.
    now destruct (bufio.scanFrom "" rest rerr).
  - rewrite append_cons. cbn [bufio.scanFrom].
    cbn [list_ascii_of_string In] in Hnl. cbn [String.length] in Hlen.
    destruct (Ascii.eqb c bufio.newline) eqn:Hc.
    { apply Ascii.eqb_eq in Hc. subst c. tauto. }
    destruct (bufio.MaxScanTokenSize <=? Z.of_nat (String.length pending) + 1)
      eqn:Hmax; [apply Z.leb_le in Hmax; lia|].
    rewrite IH.
    + now rewrite append_assoc.
    + tauto.
    + rewrite length_append. cbn [String.length]. lia.
Qed.

(** The scanner on the bytes after the last newline. *)
Lemma scanFrom_last (l : string) : forall (pending : string) rerr,
  ~ In bufio.newline (list_ascii_of_string l) ->
  Z.of_nat (String.length pending + String.length l) < bufio.MaxScanTokenSize ->
  bufio.scanFrom pending l rerr
  = (match pending +:+ l with
     | EmptyString => []
     | _ => [bufio.dropCR (pending +:+ l)]
     end, rerr).
Proof.
  induction l as [|c l IH]; intros pending rerr Hnl Hlen.
  - cbn [bufio.scanFrom]. now rewrite append_nil_r.
  - cbn [bufio.scanFrom].
    cbn [list_ascii_of_string In] in Hnl. cbn [String.length] in Hlen.
    destruct (Ascii.eqb c bufio.newline) eqn:Hc.
    { apply Ascii.eqb_eq in Hc. subst c. tauto. }
    destruct (bufio.MaxScanTokenSize <=? Z.of_nat (String.length pending) + 1)
      eqn:Hmax; [apply Z.leb_le in Hmax; lia|].
    rewrite IH.
    + now rewrite append_assoc.
    + tauto.
    + rewrite length_append. cbn [String.length]. lia.
Qed.

Lemma scan_unlines (lines : list string) (last : string) rerr :
  Forall isLine (lines ++ [last]) ->
  bufio.scan (unlines lines last) rerr
  = (map bufio.dropCR (entries lines last), rerr).
Proof.
  unfold bufio.scan, entries.
  induction lines as [|l lines IH]; intros Hall; cbn [unlines app map].
  - apply Forall_inv in Hall. destruct Hall as [Hnl Hlen].
    unfold noNewline, short in *.
    rewrite scanFrom_last by (cbn; tauto || lia).
    rewrite append_nil_l. now destruct last.
  - cbn [app] in Hall.
    pose proof (Forall_inv Hall) as [Hnl Hlen].
    apply Forall_inv_tail in Hall.
    unfold noNewline, short in *.
    rewrite scanFrom_line by (cbn; tauto || lia).
    rewrite (IH Hall). reflexivity.
Qed.

(** *** Strings as lists of bytes *)

Lemma bytes_append (s1 s2 : string) : bytes (s1 +:+ s2) = bytes s1 ++ bytes s2.
Proof.
  induction s1 as [|c s1 IH]; [reflexivity|].
  rewrite append_cons. cbn. now rewrite IH.
Qed.

Lemma bytes_length (s : string) : String.length s = length (bytes s).
Proof. induction s as [|c s IH]; cbn; [reflexivity | now rewrite IH]. Qed.

Lemma bytes_get (s : string) : forall k, String.get k s = bytes s !! k.
Proof.
  induction s as [|c s IH]; intros [|k]; cbn; try reflexivity. apply IH.
Qed.

Lemma bytes_substring (s : string) : forall n m,
  bytes (substring n m s) = take m (drop n (bytes s)).
Proof.
  induction s as [|c s IH]; intros [|n] [|m]; cbn; try reflexivity.
  - now rewrite (IH 0%nat m).
  - now rewrite (IH n 0%nat).
  - now rewrite (IH n (S m)).
Qed.

Lemma bytes_inj (s1 s2 : string) : bytes s1 = bytes s2 -> s1 = s2.
Proof.
  intros H. rewrite <- (string_of_list_ascii_of_string s1),
              <- (string_of_list_ascii_of_string s2).
  now rewrite H.
Qed.

(** *** Lines too long, and the lines of a file *)

(** The scanner on a line too long for its buffer. *)
Lemma scanFrom_long (l : string) : forall (pending rest : string) rerr,
  ~ In bufio.newline (list_ascii_of_string l) ->
  Z.of_nat (String.length pending) < bufio.MaxScanTokenSize ->
  bufio.MaxScanTokenSize <= Z.of_nat (String.length pending + String.length l) ->
  snd (bufio.scanFrom pending (l +:+ rest) rerr) = Some bufio.ErrTooLong.
Proof.
  induction l as [|c l IH]; intros pending rest rerr Hnl Hp Hlen.
  - cbn [String.length] in Hlen. lia.
  - rewrite append_cons. cbn [bufio.scanFrom].
    cbn [list_ascii_of_string In] in Hnl. cbn [String.length] in Hlen.
    destruct (Ascii.eqb c bufio.newline) eqn:Hc.
    { apply Ascii.eqb_eq in Hc. subst c. tauto. }
    destruct (bufio.MaxScanTokenSize <=? Z.of_nat (String.length pending) + 1)
      eqn:Hmax; [reflexivity|].
    apply Z.leb_gt in Hmax. apply IH.
    + tauto.
    + rewrite length_append. cbn [String.length]. lia.
    + rewrite length_append. cbn [String.length]. lia.
Qed.

Lemma isLine_dec (l : string) :
  noNewline l -> isLine l \/ tooLong l.
Proof.
  intros Hnl. unfold isLine, short, tooLong.
  destruct (Z_lt_dec (Z.of_nat (String.length l)) bufio.MaxScanTokenSize);
    [left; now split | right; lia].
Qed.

Lemma scan_unlines_long (lines : list string) (last : string) rerr :
  Forall noNewline (lines ++ [last]) ->
  Exists tooLong (lines ++ [last]) ->
  snd (bufio.scan (unlines lines last) rerr) = Some bufio.ErrTooLong.
Proof.
  unfold bufio.scan.
  induction lines as [|l lines IH]; intros Hnl Hlong; cbn [unlines app] in *.
  - apply Forall_inv in Hnl. unfold noNewline in Hnl.
    apply Exists_cons in Hlong as [Hlong|Hlong]; [|now apply Exists_nil in Hlong].
    rewrite <- (append_nil_r last).
    apply scanFrom_long; [assumption | now cbn |].
    unfold tooLong in Hlong. cbn [String.length]. lia.
  - pose proof (Forall_inv Hnl) as Hl. unfold noNewline in Hl.
    apply Forall_inv_tail in Hnl.
    destruct (isLine_dec l Hl) as [[_ Hshort]|Hlg].
    + unfold short in Hshort.
      rewrite scanFrom_line by (cbn [String.length Nat.add]; tauto || lia).
      cbn [snd].
      apply IH; [assumption|].
      apply Exists_cons in Hlong as [Hlong|Hlong]; [|assumption].
      unfold tooLong in Hlong. lia.
    + apply scanFrom_long; [assumption | now cbn |].
      unfold tooLong in Hlg. cbn [String.length]. lia.
Qed.

Lemma readHostsFile_long (fs : os.FS) (path : string)
      (lines : list string) (last : string) :
  fs path = os.File (unlines lines last) None ->
  Forall noNewline (lines ++ [last]) ->
  Exists tooLong (lines ++ [last]) ->
  snd (readHostsFile fs path)
  = Some (errors.Wrap bufio.ErrTooLong "error reading hosts file").
Proof.
  intros Hfs Hnl Hlong. unfold readHostsFile. rewrite Hfs.
  pose proof (scan_unlines_long lines last None Hnl Hlong) as Hscan.
  destruct (bufio.scan (unlines lines last) None) as [tokens serr].
  cbn [snd] in Hscan. subst serr. reflexivity.
Qed.

(** Every file is made of lines. *)
Lemma unlines_splitFrom (data : string) : forall pending,
  unlines (fst (splitFrom pending data)) (snd (splitFrom pending data))
  = pending +:+ data
  /\ (~ In bufio.newline (list_ascii_of_string pending) ->
      Forall noNewline
             (fst (splitFrom pending data) ++ [snd (splitFrom pending data)])).
Proof.
  induction data as [|c data IH]; intros pending; cbn [splitFrom].
  - cbn. rewrite append_nil_r. split; [reflexivity|].
    intros Hp. now repeat constructor.
  - destruct (Ascii.eqb c bufio.newline) eqn:Hc.
    + apply Ascii.eqb_eq in Hc. subst c.
      destruct (IH "") as [Heq Hnl].
      destruct (splitFrom "" data) as [ls last]. cbn [fst snd] in *.
      cbn [unlines]. rewrite Heq, append_nil_l. split; [reflexivity|].
      intros Hp. cbn [app]. constructor; [assumption|].
      apply Hnl. intros [].
    + destruct (IH (pending +:+ String c "")) as [Heq Hnl].
      rewrite Heq, append_assoc. split; [reflexivity|].
      intros Hp. apply Hnl. rewrite bytes_append. cbn.
      intros Hin. apply in_app_or in Hin as [Hin|[Hin|[]]]; [tauto|].
      subst c. now rewrite Ascii.eqb_refl in Hc.
Qed.

(** *** [TrimSpace] on ASCII strings *)

Lemma asciiSpace_ascii (c : ascii) :
  strings.asciiSpace c = true -> (utf8.RuneSelf <=? b2z c) = false.
Proof.
  unfold strings.asciiSpace, utf8.RuneSelf.
  rewrite !orb_true_iff, !Z.eqb_eq, Z.leb_gt. lia.
Qed.

Lemma TrimSpace_allSpace (s : string) :
  allSpace s -> strings.TrimSpace s = "".
Proof.
  unfold allSpace.
  induction s as [|c s IH]; intros Hall; [reflexivity|].
  cbn [list_ascii_of_string] in Hall.
  pose proof (Forall_inv Hall) as Hc. apply Forall_inv_tail in Hall.
  cbn [strings.TrimSpace].
  rewrite (asciiSpace_ascii c Hc), Hc. now apply IH.
Qed.

Lemma bytes_dropCR (s : string) :
  bytes (bufio.dropCR s) = bytes s
  \/ bytes s = bytes (bufio.dropCR s) ++ [bufio.cr].
Proof.
  induction s as [|c s IH]; [now left|].
  destruct s as [|c' s'].
  - cbn [bufio.dropCR]. destruct (Ascii.eqb c bufio.cr) eqn:Hc.
    + right. apply Ascii.eqb_eq in Hc. now subst.
    + now left.
  - change (bufio.dropCR (String c (String c' s')))
      with (String c (bufio.dropCR (String c' s'))).
    destruct IH as [IH|IH].
    + left. cbn [list_ascii_of_string] in *. now rewrite IH.
    + right. cbn [list_ascii_of_string] in *. now rewrite IH.
Qed.

Lemma dropCR_allSpace (s : string) : allSpace s -> allSpace (bufio.dropCR s).
Proof.
  unfold allSpace. intros Hall.
  destruct (bytes_dropCR s) as [H|H].
  - now rewrite H.
  - rewrite H in Hall. now apply Forall_app in Hall as [Hall _].
Qed.

Lemma dropCR_asciiOnly (s : string) : asciiOnly s -> asciiOnly (bufio.dropCR s).
Proof.
  unfold asciiOnly. intros Hall.
  destruct (bytes_dropCR s) as [H|H].
  - now rewrite H.
  - rewrite H in Hall. now apply Forall_app in Hall as [Hall _].
Qed.

(** The second loop of [TrimSpace] on an ASCII string: it stops at the
    last byte that is no space. *)
Lemma trimStop_ascii (s : string) :
  asciiOnly s ->
  forall stop : nat,
    (stop <= length (bytes s))%nat ->
    exists n : nat,
      (n <= stop)%nat
      /\ bytes (strings.trimStop s stop) = take n (bytes s)
      /\ Forall (fun c => strings.asciiSpace c = true)
                (take (stop - n) (drop n (bytes s)))
      /\ (n = 0%nat
          \/ exists c, bytes s !! (n - 1)%nat = Some c
                       /\ strings.asciiSpace c = false).
Proof.
  intros Hascii. induction stop as [|stop IH]; intros Hstop.
  - exists 0%nat. cbn. repeat split; auto.
  - cbn [strings.trimStop]. rewrite bytes_get.
    destruct (lookup_lt_is_Some_2 (bytes s) stop) as [c Hc]; [lia|].
    rewrite Hc.
    assert (Hlow : (utf8.RuneSelf <=? b2z c) = false).
    { apply Z.leb_gt. exact (Forall_lookup_1 _ _ _ _ Hascii Hc). }
    rewrite Hlow.
    destruct (strings.asciiSpace c) eqn:Hsp.
    + destruct IH as (n & Hn & Hb & Hsps & Hlast); [lia|].
      exists n. split; [lia | split; [assumption | split; [|assumption]]].
      replace (S stop - n)%nat with (S (stop - n)) by lia.
      rewrite (take_S_r _ _ c).
      * apply Forall_app. split; [assumption | now constructor].
      * rewrite lookup_drop. now replace (n + (stop - n))%nat with stop by lia.
    + exists (S stop). split; [lia | split; [|split]].
      * now rewrite bytes_substring.
      * rewrite Nat.sub_diag. constructor.
      * right. exists c. now replace (S stop - 1)%nat with stop by lia.
Qed.

Lemma allSpace_cons (c : ascii) (s : string) :
  strings.asciiSpace c = true -> allSpace s -> allSpace (String c s).
Proof. intros Hc Hs. unfold allSpace. cbn. now constructor. Qed.

(** [TrimSpace] on an ASCII string: the string without the ASCII spaces at
    its two ends. *)
Lemma TrimSpace_ascii (s : string) :
  asciiOnly s ->
  exists pre post : string,
    s = pre +:+ (strings.TrimSpace s +:+ post)
    /\ allSpace pre /\ allSpace post /\ trimmed (strings.TrimSpace s).
Proof.
  induction s as [|c s IH]; intros Hascii.
  - exists "", "".
    split; [reflexivity | split; [constructor | split; [constructor | now left]]].
  - pose proof Hascii as Hall. unfold asciiOnly in Hall.
    cbn [list_ascii_of_string] in Hall.
    pose proof (Forall_inv Hall) as Hc. apply Forall_inv_tail in Hall.
    apply Z.leb_gt in Hc.
    cbn [strings.TrimSpace]. rewrite Hc.
    destruct (strings.asciiSpace c) eqn:Hsp.
    + destruct (IH Hall) as (pre & post & Heq & Hpre & Hpost & Htr).
      exists (String c pre), post.
      split; [now rewrite append_cons, <- Heq|].
      split; [now apply allSpace_cons | now split].
    + set (s0 := String c s) in *.
      destruct (trimStop_ascii s0 Hascii (String.length s0))
        as (n & Hn & Hb & Hsps & Hlast); [now rewrite bytes_length|].
      rewrite bytes_length in Hsps, Hn.
      exists "", (string_of_list_ascii (drop n (bytes s0))).
      rewrite append_nil_l.
      split; [|split; [constructor | split]].
      * apply bytes_inj.
        rewrite bytes_append, Hb, list_ascii_of_string_of_list_ascii.
        now rewrite take_drop.
      * unfold allSpace. rewrite list_ascii_of_string_of_list_ascii.
        rewrite take_ge in Hsps; [assumption|].
        rewrite length_drop. lia.
      * destruct Hlast as [-> | (c' & Hc' & Hsp')].
        -- left. apply bytes_inj. now rewrite Hb.
        -- destruct n as [|n]; [left; apply bytes_inj; now rewrite Hb|].
           right.
           rewrite !bytes_get, (bytes_length (strings.trimStop _ _)), Hb.
           rewrite length_take_le by lia.
           rewrite !lookup_take_lt by lia.
           split; [exists c; now split | exists c'; now split].
Qed.

Lemma readHostsFile_File (fs : os.FS) (path data : string) :
  fs path = os.File data None ->
  snd (bufio.scan data None) = None ->
  readHostsFile fs path
  = (map strings.TrimSpace (fst (bufio.scan data None)), None).
Proof.
  intros Hfs Hscan. unfold readHostsFile. rewrite Hfs.
  destruct (bufio.scan data None) as [tokens serr]. cbn in Hscan |- *.
  subst serr. now rewrite scanLoop_map.
Qed.

Lemma readHostsFile_unlines (fs : os.FS) (path : string)
      (lines : list string) (last : string) :
  fs path = os.File (unlines lines last) None ->
  Forall isLine (lines ++ [last]) ->
  readHostsFile fs path
  = (map (fun l => strings.TrimSpace (bufio.dropCR l)) (entries lines last),
     None).
Proof.
  intros Hfs Hlines.
  rewrite (readHostsFile_File fs path _ Hfs);
    rewrite (scan_unlines lines last None Hlines); [|reflexivity].
  cbn [fst]. now rewrite map_map.
Qed.

(** A line with a carriage return at its end, seen from [dropCR]. *)
Lemma dropCR_split (l : string) :
  exists tail : string, l = bufio.dropCR l +:+ tail /\ allSpace tail.
Proof.
  destruct (bytes_dropCR l) as [H|H].
  - exists "". split; [|constructor].
    rewrite append_nil_r. apply bytes_inj. now rewrite H.
  - exists (String bufio.cr ""). split; [|now repeat constructor].
    apply bytes_inj. now rewrite bytes_append.
Qed.

Lemma allSpace_append (s1 s2 : string) :
  allSpace s1 -> allSpace s2 -> allSpace (s1 +:+ s2).
Proof.
  unfold allSpace. intros H1 H2. rewrite bytes_append.
  apply Forall_app. now split.
Qed.

(** The entries that [readHostsFile] returns for a file given by its
    lines. *)
Lemma readHostsFile_entries (fs : os.FS) (path : string)
      (lines : list string) (last : string) :
  fs path = os.File (unlines lines last) None ->
  Forall isLine (lines ++ [last]) ->
  readHostsFile fs path
  = (map (fun l => strings.TrimSpace (bufio.dropCR l)) (entries lines last),
     None)
  /\ length (fst (readHostsFile fs path)) = length (entries lines last)
  /\ (forall (k : nat) (l : string),
        entries lines last !! k = Some l ->
        allSpace l ->
        fst (readHostsFile fs path) !! k = Some "")
  /\ (forall (k : nat) (l : string),
        entries lines last !! k = Some l ->
        asciiOnly l ->
        exists host pre post : string,
          fst (readHostsFile fs path) !! k = Some host
          /\ l = pre +:+ (host +:+ post)
          /\ allSpace pre /\ allSpace post /\ trimmed host).
Proof.
  intros Hfs Hlines.
  rewrite (readHostsFile_unlines fs path lines last Hfs Hlines). cbn [fst].
  split; [reflexivity | split; [apply length_map | split]].
  - intros k l Hk Hsp.
    rewrite list_lookup_fmap, Hk. cbn.
    now rewrite (TrimSpace_allSpace _ (dropCR_allSpace l Hsp)).
  - intros k l Hk Hascii.
    destruct (TrimSpace_ascii _ (dropCR_asciiOnly l Hascii))
      as (pre & post & Heq & Hpre & Hpost & Htr).
    destruct (dropCR_split l) as (tail & Hl & Htail).
    exists (strings.TrimSpace (bufio.dropCR l)), pre, (post +:+ tail).
    split; [|split; [|split; [assumption | split; [|assumption]]]].
    + rewrite list_lookup_fmap, Hk. reflexivity.
    + rewrite <- (append_assoc _ post tail), <- (append_assoc pre), <- Heq.
      exact Hl.
    + now apply allSpace_append.
Qed.

(** C10. For a hosts file that opens and is read to its end: the bytes of
    the file are lines, each ended by a newline, and what follows the last
    newline, which counts as a line when it is not empty. When all of them
    fit the buffer of the scanner, [readHostsFile] returns, without error,
    one entry for each line, in the order of the file, which is the line
    without one carriage return at its end and then trimmed by [TrimSpace].
    A line of ASCII spaces only, the empty line among them, gives the entry
    [""] at its place and is not left out. For a line of ASCII bytes the
    entry is the line without the ASCII spaces at its two ends. When a line
    does not fit the buffer, the scanner fails and [readHostsFile] returns
    the error of a file that cannot be read. *)
Theorem C10_readHostsFile (fs : os.FS) (path data : string) :
  fs path = os.File data None ->
  let lines := fst (splitFrom "" data) in
  let last := snd (splitFrom "" data) in
  data = unlines lines last
  /\ Forall noNewline (lines ++ [last])
  /\ (Forall short (lines ++ [last]) ->
      readHostsFile fs path
      = (map (fun l => strings.TrimSpace (bufio.dropCR l))
             (entries lines last), None)
      /\ length (fst (readHostsFile fs path)) = length (entries lines last)
      /\ (forall (k : nat) (l : string),
            entries lines last !! k = Some l ->
            allSpace l ->
            fst (readHostsFile fs path) !! k = Some "")
      /\ (forall (k : nat) (l : string),
            entries lines last !! k = Some l ->
            asciiOnly l ->
            exists host pre post : string,
              fst (readHostsFile fs path) !! k = Some host
              /\ l = pre +:+ (host +:+ post)
              /\ allSpace pre /\ allSpace post /\ trimmed host))
  /\ (Exists tooLong (lines ++ [last]) ->
      snd (readHostsFile fs path)
      = Some (errors.Wrap bufio.ErrTooLong "error reading hosts file")).
Proof.
  intros Hfs lines last.
  destruct (unlines_splitFrom data "") as [Heq Hnl].
  fold lines last in Heq, Hnl. rewrite append_nil_l in Heq.
  specialize (Hnl ltac:(intros [])).
  rewrite <- Heq in Hfs.
  split; [now symmetry | split; [assumption | split]].
  - intros Hshort.
    apply (readHostsFile_entries fs path lines last Hfs).
    apply Forall_forall. intros l Hin.
    rewrite Forall_forall in Hnl, Hshort. split; auto.
  - intros Hlong. now apply (readHostsFile_long fs path lines last).
Qed.

Lemma C10_readHostsFile_witness :
  Forall short (hostsLines ++ [""])
  /\ readHostsFile fsHosts "hosts.txt"
     = (["a.example"; ""; "b.example"], None).
Proof.
  assert (Hshort : Forall short (hostsLines ++ [""]))
    by (repeat constructor; unfold short; cbn; lia).
  split; [exact Hshort|].
  exact (proj1 (proj1 (proj2 (proj2
           (C10_readHostsFile fsHosts "hosts.txt" (unlines hostsLines "")
              eq_refl))) Hshort)).
Defined.

(** ** The calendar of package [time] *)

Lemma two64 : 2 ^ 64 = 18446744073709551616.
Proof. reflexivity. Qed.

Lemma two63 : 2 ^ 63 = 9223372036854775808.
Proof. reflexivity. Qed.

(** Evaluates the constants and hands the wrap-around to [lia]. *)
Ltac wrap_lia :=
  unfold time.representable in *;
  unfold time.uint64, time.int64, time.inUint64, time.inInt64 in *;
  change time.unixToInternal with 62135596800 in *;
  change time.internalToUnix with (-62135596800) in *;
  change time.absoluteToInternal with (-9223371966579724800) in *;
  change time.internalToAbsolute with 9223371966579724800 in *;
  change time.secondsPerDay with 86400 in *;
  change time.secondsPerHour with 3600 in *;
  change time.secondsPerMinute with 60 in *;
  rewrite ?two64, ?two63 in *;
  Z.div_mod_to_equations; lia.

Section Calendar.

Import time.

Lemma shiftr2 (n : Z) : Z.shiftr n 2 = n / 4.
Proof. now rewrite Z.shiftr_div_pow2 by lia. Qed.

Lemma rem_eqb_mod (a b : Z) : (Z.rem a b =? 0) = (a mod b =? 0).
Proof.
  destruct (Z.eq_dec b 0) as [->|Hb].
  - now rewrite Z.rem_0_r_ext, Z.mod_0_r.
  - destruct (Z.rem a b =? 0) eqn:H1; destruct (a mod b =? 0) eqn:H2;
      try reflexivity.
    + apply Z.eqb_eq in H1. apply Z.eqb_neq in H2.
      apply Z.rem_divide in H1; [|assumption].
      apply Z.mod_divide in H1; [|assumption]. contradiction.
    + apply Z.eqb_eq in H2. apply Z.eqb_neq in H1.
      apply Z.mod_divide in H2; [|assumption].
      apply Z.rem_divide in H2; [|assumption]. contradiction.
Qed.

Lemma isLeap_cycle (q r : Z) :
  isLeap (400 * q + r + absoluteZeroYear) = leapInCycle r.
Proof.
  unfold isLeap, leapInCycle, absoluteZeroYear.
  rewrite !rem_eqb_mod.
  replace ((400 * q + r + -292277022399) mod 4) with ((r + 1) mod 4)
    by (Z.div_mod_to_equations; lia).
  replace ((400 * q + r + -292277022399) mod 100) with ((r + 1) mod 100)
    by (Z.div_mod_to_equations; lia).
  replace ((400 * q + r + -292277022399) mod 400) with ((r + 1) mod 400)
    by (Z.div_mod_to_equations; lia).
  reflexivity.
Qed.

Lemma epochDays_cycle (q r : Z) :
  0 <= r < 400 ->
  epochDays (400 * q + r + absoluteZeroYear)
  = 146097 * q + cycleDays r.
Proof.
  intros Hr.
  unfold epochDays, cycleDays, daysPer400Years, daysPer100Years,
    daysPer4Years.
  cbv zeta.
  replace (400 * q + r + absoluteZeroYear - absoluteZeroYear)
    with (400 * q + r) by lia.
  Z.div_mod_to_equations; lia.
Qed.

Lemma leapInCycle_cases (r : Z) :
  (leapInCycle r = true
   /\ (r + 1) mod 4 = 0 /\ ((r + 1) mod 100 <> 0 \/ (r + 1) mod 400 = 0))
  \/ (leapInCycle r = false
      /\ ((r + 1) mod 4 <> 0
          \/ ((r + 1) mod 100 = 0 /\ (r + 1) mod 400 <> 0))).
Proof.
  unfold leapInCycle.
  destruct ((r + 1) mod 4 =? 0) eqn:H4;
    destruct ((r + 1) mod 100 =? 0) eqn:H100;
    destruct ((r + 1) mod 400 =? 0) eqn:H400;
    rewrite ?Z.eqb_eq, ?Z.eqb_neq in *; cbn; intuition lia.
Qed.

(** [cycleDate] finds the year of a day of the cycle and its day within
    that year. *)
Lemma cycleDate_spec (d : Z) :
  0 <= d < 146097 ->
  let '(r, yday) := cycleDate d in
  0 <= r < 400
  /\ d = cycleDays r + yday
  /\ 0 <= yday < 365 + (if leapInCycle r then 1 else 0).
Proof.
  intros Hd.
  unfold cycleDate, cycleDays, daysPer100Years, daysPer4Years.
  rewrite !shiftr2. cbv zeta.
  match goal with |- context [leapInCycle ?r] =>
    destruct (leapInCycle_cases r) as [(-> & H4 & H100)|(-> & H4)]
  end; revert H4; try revert H100;
    Z.div_mod_to_equations; lia.
Qed.

Lemma cycleDate_inv (r yday : Z) :
  0 <= r < 400 ->
  0 <= yday < 365 + (if leapInCycle r then 1 else 0) ->
  cycleDate (cycleDays r + yday) = (r, yday).
Proof.
  intros Hr Hy.
  unfold cycleDate, cycleDays, daysPer100Years, daysPer4Years.
  rewrite !shiftr2. cbv zeta.
  destruct (leapInCycle_cases r) as [(Hl & H4 & H100)|(Hl & H4)];
    rewrite Hl in Hy; f_equal; revert H4; try revert H100;
    Z.div_mod_to_equations; lia.
Qed.

Lemma forallb_range (p : Z -> bool) (n : nat) :
  forallb p (map Z.of_nat (seq 0 n)) = true ->
  forall k, 0 <= k < Z.of_nat n -> p k = true.
Proof.
  intros Hall k Hk. rewrite forallb_forall in Hall. apply Hall.
  apply in_map_iff. exists (Z.to_nat k). split; [lia|].
  apply in_seq. lia.
Qed.

(** [monthDay] finds the month and the day of a day of the year. *)
Lemma monthDay_spec (leap : bool) (yday : Z) :
  0 <= yday < 365 + (if leap then 1 else 0) ->
  let '(m, d) := monthDay leap yday in
  1 <= m <= 12 /\ 1 <= d <= monthLength leap m /\ yearDay leap m d = yday.
Proof.
  intros Hy.
  assert (Hok : monthDayOk leap yday = true).
  { destruct leap.
    - apply (forallb_range (monthDayOk true) 366); [now vm_compute | lia].
    - apply (forallb_range (monthDayOk false) 365); [now vm_compute | lia]. }
  unfold monthDayOk in Hok. destruct (monthDay leap yday) as [m d].
  rewrite !andb_true_iff, !Z.leb_le, Z.eqb_eq in Hok. lia.
Qed.

Lemma monthLength_le (leap : bool) (m : Z) :
  1 <= m <= 12 -> monthLength leap m <= 31.
Proof.
  intros Hm.
  assert (Hall : forallb (fun m => monthLength leap m <=? 31)
                         (map Z.of_nat (seq 0 13)) = true)
    by (destruct leap; now vm_compute).
  apply Z.leb_le. apply (forallb_range _ 13 Hall). lia.
Qed.

Lemma monthDay_inv (leap : bool) (m d : Z) :
  1 <= m <= 12 -> 1 <= d <= monthLength leap m ->
  monthDay leap (yearDay leap m d) = (m, d).
Proof.
  intros Hm Hd.
  pose proof (monthLength_le leap m Hm) as Hle.
  assert (Hall : forallb (fun m =>
                   forallb (fun d => monthDayInvOk leap m d)
                           (map Z.of_nat (seq 0 32)))
                   (map Z.of_nat (seq 0 13)) = true)
    by (destruct leap; now vm_compute).
  pose proof (forallb_range _ 13 Hall m ltac:(lia)) as Hm'.
  cbv beta in Hm'.
  pose proof (forallb_range _ 32 Hm' d ltac:(lia)) as Hok.
  cbv beta in Hok. unfold monthDayInvOk in Hok.
  destruct (monthDay leap (yearDay leap m d)) as [m' d'].
  rewrite orb_true_iff, negb_true_iff, !andb_true_iff, andb_false_iff,
    !Z.leb_gt, !Z.eqb_eq in Hok.
  f_equal; lia.
Qed.

Lemma yearDay_range (leap : bool) (m d : Z) :
  1 <= m <= 12 -> 1 <= d <= monthLength leap m ->
  0 <= yearDay leap m d < 365 + (if leap then 1 else 0).
Proof.
  intros Hm Hd.
  pose proof (monthLength_le leap m Hm) as Hle.
  assert (Hall : forallb (fun m =>
                   forallb (fun d =>
                     negb ((1 <=? d) && (d <=? monthLength leap m))
                     || ((0 <=? yearDay leap m d)
                         && (yearDay leap m d
                             <? 365 + (if leap then 1 else 0))))
                     (map Z.of_nat (seq 0 32)))
                   (map Z.of_nat (seq 0 13)) = true)
    by (destruct leap; now vm_compute).
  pose proof (forallb_range _ 13 Hall m ltac:(lia)) as Hm'.
  cbv beta in Hm'.
  pose proof (forallb_range _ 32 Hm' d ltac:(lia)) as Hok.
  cbv beta in Hok.
  rewrite orb_true_iff, negb_true_iff, !andb_true_iff, andb_false_iff,
    !Z.leb_gt, Z.leb_le, Z.ltb_lt in Hok.
  lia.
Qed.

(** [absDate] gives a date of the calendar, whose number is the day of
    [abs]. *)
Lemma absDate_dayNumber (abs : Z) :
  let '(y, m, d, _) := absDate abs in
  validDate (y, m, d) /\ dayNumber (y, m, d) = abs / secondsPerDay.
Proof.
  unfold absDate, daysPer400Years. cbv zeta.
  set (D := abs / secondsPerDay).
  set (q := D / (365 * 400 + 97)).
  assert (Hd : 0 <= D - (365 * 400 + 97) * q < 146097)
    by (unfold q; Z.div_mod_to_equations; lia).
  pose proof (cycleDate_spec _ Hd) as Hc.
  destruct (cycleDate (D - (365 * 400 + 97) * q)) as [r yday].
  destruct Hc as (Hr & HD & Hy).
  rewrite <- (isLeap_cycle q r) in Hy.
  pose proof (monthDay_spec _ _ Hy) as Hmd.
  destruct (monthDay (isLeap (400 * q + r + absoluteZeroYear)) yday)
    as [m d].
  destruct Hmd as (Hm & Hdd & Hyd).
  unfold validDate, dayNumber, daysIn.
  unfold monthLength in Hdd. unfold yearDay in Hyd.
  split; [split; assumption|].
  rewrite epochDays_cycle by assumption. lia.
Qed.

(** [absDate] finds a date of the calendar again. *)
Lemma absDate_inv (y m d secs : Z) :
  validDate (y, m, d) -> 0 <= secs < secondsPerDay ->
  absDate (dayNumber (y, m, d) * secondsPerDay + secs)
  = (y, m, d, yearDay (isLeap y) m d).
Proof.
  unfold validDate, daysIn. intros [Hm Hd] Hs.
  set (q := (y - absoluteZeroYear) / 400).
  set (r := (y - absoluteZeroYear) mod 400).
  assert (Hy : y = 400 * q + r + absoluteZeroYear)
    by (unfold q, r; Z.div_mod_to_equations; lia).
  assert (Hr : 0 <= r < 400) by (unfold r; Z.div_mod_to_equations; lia).
  pose proof (monthDay_inv (isLeap y) m d Hm Hd) as Hmd.
  pose proof (yearDay_range (isLeap y) m d Hm Hd) as Hrange.
  set (yd := yearDay (isLeap y) m d) in *.
  assert (Hnum : dayNumber (y, m, d) = epochDays y + yd)
    by (unfold dayNumber, yd, yearDay; lia).
  assert (Hday : (dayNumber (y, m, d) * secondsPerDay + secs) / secondsPerDay
                 = epochDays y + yd).
  { rewrite Hnum, Z.add_comm, Z.div_add, (Z.div_small secs) by
      (unfold secondsPerDay, secondsPerHour, secondsPerMinute in *; lia).
    lia. }
  assert (Hepoch : epochDays y = 146097 * q + cycleDays r).
  { rewrite Hy at 1. now apply epochDays_cycle. }
  assert (Hleap : leapInCycle r = isLeap y).
  { rewrite Hy at 1. symmetry. apply isLeap_cycle. }
  assert (Hcyc : 0 <= cycleDays r + yd < 146097).
  { rewrite <- Hleap in Hrange. clear - Hr Hrange.
    unfold cycleDays.
    destruct (leapInCycle_cases r) as [(Hl & H4 & H100)|(Hl & H4)];
      rewrite Hl in Hrange; revert H4; try revert H100;
      Z.div_mod_to_equations; lia. }
  assert (Hq : (epochDays y + yd) / daysPer400Years = q).
  { rewrite Hepoch. unfold daysPer400Years.
    Z.div_mod_to_equations; lia. }
  unfold absDate. cbv zeta. rewrite Hday, Hq.
  replace (epochDays y + yd - daysPer400Years * q)
    with (cycleDays r + yd) by (rewrite Hepoch; unfold daysPer400Years; lia).
  rewrite cycleDate_inv by (rewrite ?Hleap; assumption).
  rewrite <- Hy, Hmd. reflexivity.
Qed.

Lemma absClock_spec (abs : Z) :
  let '(h, mi, s) := absClock abs in
  0 <= h < 24 /\ 0 <= mi < 60 /\ 0 <= s < 60
  /\ h * secondsPerHour + mi * secondsPerMinute + s = abs mod secondsPerDay.
Proof.
  unfold absClock, secondsPerDay, secondsPerHour, secondsPerMinute.
  cbv zeta. Z.div_mod_to_equations; lia.
Qed.

Lemma norm_id (hi lo base : Z) :
  0 <= lo < base -> norm hi lo base = (hi, lo).
Proof.
  intros H. unfold norm.
  destruct (lo <? 0) eqn:H0; [apply Z.ltb_lt in H0; lia|].
  destruct (base <=? lo) eqn:H1; [apply Z.leb_le in H1; lia|].
  reflexivity.
Qed.

Lemma epochDays_succ (y : Z) :
  epochDays (y + 1) = epochDays y + 365 + (if isLeap y then 1 else 0).
Proof.
  set (q := (y - absoluteZeroYear) / 400).
  set (r := (y - absoluteZeroYear) mod 400).
  assert (Hy : y = 400 * q + r + absoluteZeroYear)
    by (unfold q, r; Z.div_mod_to_equations; lia).
  assert (Hr : 0 <= r < 400) by (unfold r; Z.div_mod_to_equations; lia).
  rewrite Hy. rewrite isLeap_cycle, epochDays_cycle by assumption.
  destruct (Z.eq_dec r 399) as [->|Hne].
  - replace (400 * q + 399 + absoluteZeroYear + 1)
      with (400 * (q + 1) + 0 + absoluteZeroYear) by lia.
    rewrite epochDays_cycle by lia.
    change (leapInCycle 399) with true.
    change (cycleDays 0) with 0. change (cycleDays 399) with 145731.
    cbv iota. lia.
  - replace (400 * q + r + absoluteZeroYear + 1)
      with (400 * q + (r + 1) + absoluteZeroYear) by lia.
    rewrite epochDays_cycle by lia. unfold cycleDays.
    destruct (leapInCycle_cases r) as [(Hl & H4 & H100)|(Hl & H4)];
      rewrite Hl; revert H4; try revert H100;
      Z.div_mod_to_equations; lia.
Qed.

Lemma civil_dayNumber (abs : Z) :
  validDate (civil abs) /\ dayNumber (civil abs) = abs / secondsPerDay.
Proof.
  unfold civil. pose proof (absDate_dayNumber abs) as H.
  destruct (absDate abs) as [[[y m] d] yday]. exact H.
Qed.

Lemma civil_inv (date : Z * Z * Z) (abs : Z) :
  validDate date -> abs / secondsPerDay = dayNumber date -> civil abs = date.
Proof.
  intros Hv Hn. destruct date as [[y m] d].
  pose proof (Z.div_mod abs secondsPerDay ltac:(discriminate)) as Hdm.
  pose proof (Z.mod_pos_bound abs secondsPerDay ltac:(reflexivity)) as Hb.
  rewrite Hdm, Hn, Z.mul_comm. unfold civil.
  now rewrite absDate_inv.
Qed.

Lemma uint64_small (x : Z) : inUint64 x -> uint64 x = x.
Proof. intros H. wrap_lia. Qed.

Lemma int64_small (x : Z) : inInt64 x -> int64 x = x.
Proof. intros H. wrap_lia. Qed.

Lemma uint64_range (x : Z) : inUint64 (uint64 x).
Proof. wrap_lia. Qed.

Lemma abs_range (t : Time) : inUint64 (abs t).
Proof.
  unfold abs. destruct (loc t (unixSec t)) as [[offset start] end_].
  apply uint64_range.
Qed.

(** Two integers that differ by a multiple of [2^64] wrap to the same
    int64. *)
Lemma int64_congr (a b k : Z) : a = b + k * 2 ^ 64 -> int64 a = int64 b.
Proof.
  intros ->. unfold int64.
  replace (b + k * 2 ^ 64 + 2 ^ 63) with (b + 2 ^ 63 + k * 2 ^ 64) by lia.
  now rewrite Z.mod_add by discriminate.
Qed.

Lemma uint64_congr (a b k : Z) : a = b + k * 2 ^ 64 -> uint64 a = uint64 b.
Proof. intros ->. unfold uint64. now rewrite Z.mod_add by discriminate. Qed.

Lemma uint64_spec (x : Z) : exists k, uint64 x = x + k * 2 ^ 64.
Proof.
  exists (- (x / 2 ^ 64)). unfold uint64.
  pose proof (Z.div_mod x (2 ^ 64) ltac:(discriminate)). lia.
Qed.

Lemma int64_spec (x : Z) : exists k, int64 x = x + k * 2 ^ 64.
Proof.
  exists (- ((x + 2 ^ 63) / 2 ^ 64)). unfold int64.
  pose proof (Z.div_mod (x + 2 ^ 63) (2 ^ 64) ltac:(discriminate)). lia.
Qed.

(** In a year of the range of [absDate], [daysSinceEpoch] is exact. *)
Lemma daysSinceEpoch_exact (year : Z) :
  0 <= year - absoluteZeroYear < 2 ^ 40 ->
  daysSinceEpoch year = epochDays year.
Proof.
  intros Hy. unfold daysSinceEpoch, epochDays.
  change (2 ^ 40) with 1099511627776 in Hy.
  rewrite (int64_small (year - absoluteZeroYear)) by wrap_lia.
  rewrite (uint64_small (year - absoluteZeroYear)) by wrap_lia.
  cbv zeta. unfold daysPer400Years, daysPer100Years, daysPer4Years.
  set (y := year - absoluteZeroYear) in *.
  rewrite (uint64_small ((365 * 400 + 97) * (y / 400))) by wrap_lia.
  rewrite (uint64_small (_ + (365 * 100 + 24) * _)) by wrap_lia.
  rewrite (uint64_small (_ + (365 * 4 + 1) * _)) by wrap_lia.
  apply uint64_small. wrap_lia.
Qed.

(** The year that [absDate] finds for a uint64. *)
Lemma absDate_year (a : Z) :
  inUint64 a ->
  let '(y, _, _, _) := absDate a in 0 <= y - absoluteZeroYear < 2 ^ 40.
Proof.
  intros Ha. unfold absDate, daysPer400Years. cbv zeta.
  set (D := a / secondsPerDay).
  set (q := D / (365 * 400 + 97)).
  assert (Hd : 0 <= D - (365 * 400 + 97) * q < 146097)
    by (unfold q; Z.div_mod_to_equations; lia).
  pose proof (cycleDate_spec _ Hd) as Hc.
  destruct (cycleDate (D - (365 * 400 + 97) * q)) as [r yday].
  destruct Hc as (Hr & _ & _).
  destruct (monthDay _ yday) as [m d].
  change (2 ^ 40) with 1099511627776.
  assert (Hq : 0 <= q < 1461401000).
  { unfold q, D. clear - Ha. wrap_lia. }
  lia.
Qed.

Lemma civil_year (a : Z) :
  inUint64 a ->
  let '(y, _, _) := civil a in 0 <= y - absoluteZeroYear < 2 ^ 40.
Proof.
  intros Ha. unfold civil. pose proof (absDate_year a Ha) as H.
  destruct (absDate a) as [[[y m] d] yday]. exact H.
Qed.

(** [Date] on a year of the range of [absDate], and a month and a clock
    reading within their ranges. *)
Lemma Date_normal (y m d h mi s ns : Z) (l : Location) :
  0 <= y - absoluteZeroYear < 2 ^ 40 ->
  1 <= m <= 12 -> 0 <= h < 24 -> 0 <= mi < 60 -> 0 <= s < 60 ->
  0 <= ns < 1000000000 ->
  Date y m d h mi s ns l
  = unixTime (zoneAdjust l
                (int64 (dayNumber (y, m, d) * secondsPerDay
                        + (h * secondsPerHour + mi * secondsPerMinute + s)
                        + (absoluteToInternal + internalToUnix))))
             ns l.
Proof.
  intros Hy Hm Hh Hmi Hs Hns. unfold Date.
  rewrite (int64_small (m - 1)) by wrap_lia.
  rewrite (norm_id y (m - 1) 12) by lia.
  rewrite (int64_small (m - 1 + 1)) by wrap_lia.
  rewrite (norm_id s ns) by lia.
  rewrite (norm_id mi s) by lia.
  rewrite (norm_id h mi) by lia.
  rewrite (norm_id d h) by lia.
  rewrite (daysSinceEpoch_exact y Hy).
  unfold dayNumber.
  replace (m - 1 + 1) with m by lia.
  do 2 f_equal.
  set (e := epochDays y). set (b := daysBefore (m - 1)).
  set (c := h * secondsPerHour + mi * secondsPerMinute + s).
  clearbody e b c.
  destruct (isLeap y && (March <=? m)); wrap_lia.
Qed.

(** Adding days moves the wall-clock reading by that many days, whatever
    wraps around on the way. *)
Lemma AddDate_days (t : Time) (days : Z) :
  0 <= nsec t < 1000000000 ->
  AddDate t 0 0 days
  = unixTime (zoneAdjust (loc t)
                (int64 (abs t + days * secondsPerDay
                        + (absoluteToInternal + internalToUnix))))
             (nsec t) (loc t).
Proof.
  intros Hns. unfold AddDate, Date_of, civil, Clock.
  pose proof (absDate_dayNumber (abs t)) as Hd.
  pose proof (absDate_year (abs t) (abs_range t)) as Hy.
  pose proof (absClock_spec (abs t)) as Hc.
  destruct (absDate (abs t)) as [[[y m] d] yday].
  destruct (absClock (abs t)) as [[h mi] s].
  destruct Hd as [[Hm Hdd] Hnum]. destruct Hc as (Hh & Hmi & Hs & Hsecs).
  rewrite !Z.add_0_r.
  change (2 ^ 40) with 1099511627776 in Hy.
  rewrite (int64_small y)
    by (unfold inInt64; change absoluteZeroYear with (-292277022399) in Hy;
        rewrite two63; lia).
  rewrite (int64_small m) by (unfold inInt64; rewrite two63; lia).
  rewrite Date_normal by (assumption || (change (2 ^ 40) with 1099511627776; lia)).
  do 2 f_equal.
  destruct (int64_spec (d + days)) as [k Hk].
  apply (int64_congr _ _ (k * secondsPerDay)).
  assert (Hnum' : dayNumber (y, m, int64 (d + days))
                  = dayNumber (y, m, d) + days + k * 2 ^ 64)
    by (unfold dayNumber; lia).
  rewrite Hnum', Hnum.
  pose proof (Z.div_mod (abs t) secondsPerDay ltac:(discriminate)).
  lia.
Qed.

Lemma zoneAdjust_fixed (off x : Z) :
  zoneAdjust (fixedZone off) (int64 x) = int64 (x - off).
Proof.
  unfold zoneAdjust, fixedZone.
  destruct (off =? 0) eqn:H0; cbn [negb].
  - apply Z.eqb_eq in H0. subst off. now rewrite Z.sub_0_r.
  - destruct ((int64 (int64 x - off) <? alpha)
              || (omega <=? int64 (int64 x - off)));
      destruct (int64_spec x) as [k Hk];
      apply (int64_congr _ _ k); lia.
Qed.

(** In a location with one zone, [abs] is the seconds of the instant, the
    offset and the distance of the epochs, modulo [2^64]. *)
Lemma abs_fixed (t : Time) (off : Z) :
  loc t = fixedZone off ->
  abs t = uint64 (sec t + off + (unixToInternal + internalToAbsolute)).
Proof.
  intros Hl. unfold abs, unixSec. rewrite Hl. unfold fixedZone.
  destruct (int64_spec (sec t + unixToInternal)) as [k1 H1].
  destruct (int64_spec (int64 (sec t + unixToInternal) + internalToUnix))
    as [k2 H2].
  destruct (int64_spec
              (int64 (int64 (sec t + unixToInternal) + internalToUnix) + off))
    as [k3 H3].
  destruct (int64_spec
              (int64 (int64 (int64 (sec t + unixToInternal) + internalToUnix)
                      + off)
               + (unixToInternal + internalToAbsolute))) as [k4 H4].
  apply (uint64_congr _ _ (k1 + k2 + k3 + k4)).
  unfold internalToUnix in *. lia.
Qed.

(** In a location with one zone, adding days adds that many times 24
    hours to the seconds since year 1, in an int64. *)
Lemma AddDate_fixed (t : Time) (off days : Z) :
  0 <= nsec t < 1000000000 ->
  loc t = fixedZone off ->
  AddDate t 0 0 days
  = unixTime (sec t + days * secondsPerDay) (nsec t) (loc t).
Proof.
  intros Hns Hl. rewrite AddDate_days by assumption.
  rewrite (abs_fixed t off Hl). rewrite Hl at 1.
  rewrite zoneAdjust_fixed. unfold unixTime. do 2 f_equal.
  destruct (uint64_spec (sec t + off + (unixToInternal + internalToAbsolute)))
    as [k1 H1]. rewrite H1.
  match goal with
  | |- int64 (int64 ?x + _) = _ => destruct (int64_spec x) as [k2 H2]
  end.
  apply (int64_congr _ _ (k1 + k2)).
  rewrite H2. unfold internalToAbsolute, internalToUnix. lia.
Qed.

(** When the sum is an instant that a [Time] holds, this is [t.Add] of
    that many seconds. *)
Lemma unixTime_exact (s ns : Z) (l : Location) :
  representable s -> unixTime s ns l = mkTime s ns l.
Proof.
  intros H. unfold unixTime. f_equal.
  rewrite (int64_small _ H). lia.
Qed.

Lemma abs_unixTime_fixed (s ns off : Z) :
  abs (unixTime s ns (fixedZone off))
  = uint64 (s + off + (unixToInternal + internalToAbsolute)).
Proof.
  rewrite (abs_fixed _ off) by reflexivity.
  unfold unixTime. cbn [sec].
  destruct (int64_spec (s + unixToInternal)) as [k Hk].
  apply (uint64_congr _ _ k). lia.
Qed.

End Calendar.

(** ** The threshold *)

(** Evaluates [daysBefore] on the months that are numerals. *)
Ltac calc_daysBefore :=
  unfold time.January, time.February, time.March, time.December in *;
  repeat match goal with
         | |- context [time.daysBefore ?k] =>
             let v := eval vm_compute in (time.daysBefore k) in
             progress change (time.daysBefore k) with v
         end.

(** C7. The threshold of a check is [now.AddDate(0, 0, days)]: the instant
    at which the clocks of the location of [now] show the date that is
    [days] days after the date of [now] in the calendar, at the clock
    reading of [now]. That date is a date of the calendar and its day
    number is the one of the date of [now] plus [days], so months and years
    roll over: January 15 plus 30 days is February 14, and December 15 plus
    30 days is January 14 of the next year. In a location with a single zone
    the threshold shows that date and the clock reading of [now]; it is
    [now] plus [days] times 24 hours when that instant is one that a [Time]
    holds, and the int64 that this sum wraps around to otherwise. Across a
    change of zone it is not [now] plus [days] times 24 hours. The second
    hypothesis is the range of the library: the wall-clock seconds of the
    threshold, counted from the absolute epoch, fit the uint64 that [Date]
    computes them in. *)
Theorem C7_threshold_calendar_days (now : time.Time) (days : Z) :
  0 <= time.nsec now < 1000000000 ->
  time.inUint64 (time.abs now + days * time.secondsPerDay) ->
  let later := time.civil (time.abs now + days * time.secondsPerDay) in
  certExpiry now days
  = time.DateAt later (time.Clock now) (time.nsec now) (time.loc now)
  /\ time.validDate later
  /\ time.dayNumber later = time.dayNumber (time.Date_of now) + days
  /\ (forall off,
        time.loc now = time.fixedZone off ->
        certExpiry now days
        = time.unixTime (time.sec now + days * time.secondsPerDay)
                        (time.nsec now) (time.loc now)
        /\ (time.representable (time.sec now + days * time.secondsPerDay) ->
            certExpiry now days
            = time.AddSeconds now (days * time.secondsPerDay))
        /\ time.Date_of (certExpiry now days) = later
        /\ time.Clock (certExpiry now days) = time.Clock now)
  /\ (forall y,
        time.Date_of now = (y, time.January, 15) -> days = 30 ->
        later = (y, time.February, 14))
  /\ (forall y,
        time.Date_of now = (y, time.December, 15) -> days = 30 ->
        later = (y + 1, time.January, 14))
  /\ certExpiry noonMarch15 30
     <> time.AddSeconds noonMarch15 (30 * time.secondsPerDay)
  /\ time.sec (certExpiry (time.mkTime 1257894000 0 time.UTC) 106751991167300)
     = -9223372035596937616.
Proof.
  intros Hns Hlater later.
  pose proof (civil_dayNumber (time.abs now + days * time.secondsPerDay))
    as [Hvalid Hnum]. fold later in Hvalid, Hnum.
  pose proof (civil_year _ Hlater) as Hyear. fold later in Hyear.
  pose proof (civil_dayNumber (time.abs now)) as [Hvalid0 Hnum0].
  fold (time.Date_of now) in Hvalid0, Hnum0.
  assert (Hdiv : (time.abs now + days * time.secondsPerDay) / time.secondsPerDay
                 = time.abs now / time.secondsPerDay + days)
    by (apply Z.div_add; discriminate).
  assert (Hmod : (time.abs now + days * time.secondsPerDay) mod time.secondsPerDay
                 = time.abs now mod time.secondsPerDay)
    by (apply Z.mod_add; discriminate).
  split; [|split; [assumption | split; [lia | split; [|split; [|split;
    [|split]]]]]].
  - (* the threshold is [Date] of the later date, at the clock reading of now *)
    unfold certExpiry. rewrite AddDate_days by assumption.
    unfold time.DateAt, time.Clock.
    pose proof (absClock_spec (time.abs now)) as Hc.
    destruct later as [[y' m'] d'].
    destruct (time.absClock (time.abs now)) as [[h mi] s].
    destruct Hc as (Hh & Hmi & Hs & Hsecs).
    destruct Hvalid as [Hm' _].
    rewrite Date_normal by assumption.
    do 3 f_equal. rewrite Hnum, Hdiv, Hsecs.
    pose proof (Z.div_mod (time.abs now) time.secondsPerDay ltac:(discriminate)).
    lia.
  - (* one zone *)
    intros off Hl. unfold certExpiry.
    rewrite (AddDate_fixed now off days Hns Hl).
    assert (Habs : time.abs (time.unixTime
                                (time.sec now + days * time.secondsPerDay)
                                (time.nsec now) (time.loc now))
                   = time.abs now + days * time.secondsPerDay).
    { rewrite Hl at 1. rewrite abs_unixTime_fixed.
      rewrite <- (uint64_small _ Hlater), (abs_fixed now off Hl).
      destruct (uint64_spec
                  (time.sec now + off
                   + (time.unixToInternal + time.internalToAbsolute)))
        as [k Hk].
      apply (uint64_congr _ _ (- k)). lia. }
    split; [reflexivity | split; [|split]].
    + intros Hrep. now apply unixTime_exact.
    + unfold time.Date_of. now rewrite Habs.
    + unfold time.Clock. rewrite Habs.
      unfold time.absClock. now rewrite Hmod.
  - (* January 15 plus 30 days *)
    intros y Hdate ->. apply civil_inv.
    + unfold time.validDate, time.daysIn. calc_daysBefore.
      destruct (time.isLeap y); cbn; lia.
    + rewrite Hdiv, <- Hnum0, Hdate.
      unfold time.dayNumber. calc_daysBefore.
      destruct (time.isLeap y); cbn; lia.
  - (* December 15 plus 30 days *)
    intros y Hdate ->. apply civil_inv.
    + unfold time.validDate, time.daysIn. calc_daysBefore.
      destruct (time.isLeap (y + 1)); cbn; lia.
    + rewrite Hdiv, <- Hnum0, Hdate.
      unfold time.dayNumber. calc_daysBefore.
      rewrite epochDays_succ.
      destruct (time.isLeap y); destruct (time.isLeap (y + 1)); cbn; lia.
  - (* a change of zone within the 30 days *)
    intros H. apply (f_equal time.sec) in H.
    vm_compute in H. discriminate H.
  - (* beyond the range of a [Time], the seconds wrap around *)
    now vm_compute.
Qed.

Lemma C7_threshold_calendar_days_witness :
  0 <= time.nsec noonJan15 < 1000000000
  /\ time.inUint64 (time.abs noonJan15 + 30 * time.secondsPerDay)
  /\ time.representable (time.sec noonJan15 + 30 * time.secondsPerDay)
  /\ certExpiry noonJan15 30
     = time.AddSeconds noonJan15 (30 * time.secondsPerDay)
  /\ time.Date_of (certExpiry noonJan15 30) = (2024, 2, 14)
  /\ time.Clock (certExpiry noonJan15 30) = (12, 0, 0).
Proof.
  assert (H1 : 0 <= time.nsec noonJan15 < 1000000000) by (cbn; lia).
  assert (H2 : time.inUint64 (time.abs noonJan15 + 30 * time.secondsPerDay)).
  { unfold time.inUint64. vm_compute (time.abs _).
    vm_compute (30 * time.secondsPerDay). rewrite two64. lia. }
  assert (H3 : time.representable
                 (time.sec noonJan15 + 30 * time.secondsPerDay)).
  { unfold time.representable, time.inInt64. cbn [time.sec noonJan15].
    vm_compute (_ + time.unixToInternal). rewrite two63. lia. }
  destruct (C7_threshold_calendar_days noonJan15 30 H1 H2)
    as (_ & _ & _ & Hzone & Hjan & _).
  destruct (Hzone 0 eq_refl) as (_ & Hadd & Hdate & Hclock).
  split; [exact H1 | split; [exact H2 | split; [exact H3 | split;
    [exact (Hadd H3) | split]]]].
  - rewrite Hdate. apply (Hjan 2024); reflexivity.
  - rewrite Hclock. reflexivity.
Defined.

(** ** The dial address, further *)

Lemma existsb_colon_append (s1 s2 : string) :
  existsb (Ascii.eqb ":") (bytes (s1 +:+ s2))
  = existsb (Ascii.eqb ":") (bytes s1) || existsb (Ascii.eqb ":") (bytes s2).
Proof. now rewrite bytes_append, existsb_app. Qed.

(** X1. The address dialed for a host name always holds a [':'], it is the
    host name itself or the host name followed by [":443"], and it is kept
    as it is when given again as a host name. *)
Theorem X1_connectHost_normal (host : string) :
  strings.Contains (connectHost host) ":" = true
  /\ (connectHost host = host \/ connectHost host = host +:+ ":443")
  /\ connectHost (connectHost host) = connectHost host.
Proof.
  assert (Hc : strings.Contains (connectHost host) ":" = true).
  { unfold connectHost. destruct (strings.Contains host ":") eqn:H; cbn [negb].
    - exact H.
    - rewrite Contains_colon, existsb_colon_append. cbn. apply orb_true_r. }
  split; [exact Hc | split].
  - unfold connectHost. destruct (strings.Contains host ":"); cbn [negb]; auto.
  - unfold connectHost at 1. now rewrite Hc.
Qed.

(** ** The threshold and the expiry loop *)

Lemma lt_le_trans (t u v : time.Time) :
  time.lt t u -> ~ time.lt v u -> time.lt t v.
Proof. unfold time.lt. lia. Qed.

Lemma certLoop_earlier (t1 t2 : time.Time) (chain : list x509.Certificate) :
  ~ time.lt t2 t1 ->
  forall k, certLoop t2 k chain = None -> certLoop t1 k chain = None.
Proof.
  intros Hle. induction chain as [|cert chain IH]; intros k; cbn [certLoop];
    [reflexivity|].
  destruct (time.After t2 (x509.NotAfter cert)) eqn:H2; [discriminate|].
  intros Hrest.
  destruct (time.After t1 (x509.NotAfter cert)) eqn:H1.
  - apply After_lt in H1. apply After_not_lt in H2.
    exfalso. apply H2. now apply (lt_le_trans _ t1).
  - now apply IH.
Qed.

(** X2. A chain that passes the expiry loop for a threshold passes it for
    every threshold that is not later, and a chain that fails for a
    threshold fails for every threshold that is not earlier. For a clock in
    a location with one zone, a chain that passes with a number of days
    passes with every smaller number of days, as long as both thresholds
    are instants that a [Time] holds: beyond that the seconds wrap around
    and a larger number of days gives an earlier threshold. *)
Theorem X2_threshold_monotone (chain : list x509.Certificate) :
  (forall t1 t2 : time.Time,
      ~ time.lt t2 t1 ->
      (certLoop t2 0 chain = None -> certLoop t1 0 chain = None)
      /\ (certLoop t1 0 chain <> None -> certLoop t2 0 chain <> None))
  /\ (forall (now : time.Time) (off days1 days2 : Z),
        0 <= time.nsec now < 1000000000 ->
        time.loc now = time.fixedZone off ->
        time.representable (time.sec now + days1 * time.secondsPerDay) ->
        time.representable (time.sec now + days2 * time.secondsPerDay) ->
        days1 <= days2 ->
        certLoop (certExpiry now days2) 0 chain = None ->
        certLoop (certExpiry now days1) 0 chain = None)
  /\ time.lt (certExpiry (time.mkTime 1257894000 0 time.UTC) 106751991167300)
             (certExpiry (time.mkTime 1257894000 0 time.UTC) 100000000000000).
Proof.
  split; [|split].
  - intros t1 t2 Hle. split.
    + now apply certLoop_earlier.
    + intros H1 H2. apply H1. now apply (certLoop_earlier t1 t2).
  - intros now off days1 days2 Hns Hl H1 H2 Hd.
    apply certLoop_earlier. unfold certExpiry.
    rewrite !(AddDate_fixed now off) by assumption.
    rewrite (unixTime_exact _ _ _ H1), (unixTime_exact _ _ _ H2).
    unfold time.lt. cbn [time.sec time.nsec].
    unfold time.secondsPerDay, time.secondsPerHour, time.secondsPerMinute.
    lia.
  - unfold time.lt. left. now vm_compute.
Qed.

Lemma representable_sample (days : Z) :
  0 <= days <= 400 ->
  time.representable (time.sec noonJan15 + days * time.secondsPerDay).
Proof.
  intros H. cbn [time.sec noonJan15]. wrap_lia.
Qed.

Lemma X2_threshold_monotone_witness :
  time.representable (time.sec noonJan15 + 5 * time.secondsPerDay)
  /\ time.representable (time.sec noonJan15 + 30 * time.secondsPerDay)
  /\ (certLoop (certExpiry noonJan15 30) 0
               [certAt "good.example" (1705320000 + 400 * 86400)] = None ->
      certLoop (certExpiry noonJan15 5) 0
               [certAt "good.example" (1705320000 + 400 * 86400)] = None).
Proof.
  assert (H1 : time.representable
                 (time.sec noonJan15 + 5 * time.secondsPerDay))
    by (apply representable_sample; lia).
  assert (H2 : time.representable
                 (time.sec noonJan15 + 30 * time.secondsPerDay))
    by (apply representable_sample; lia).
  split; [exact H1 | split; [exact H2|]].
  refine (proj1 (proj2 (X2_threshold_monotone
                          [certAt "good.example" (1705320000 + 400 * 86400)]))
            noonJan15 0 5 30 _ eq_refl H1 H2 _).
  - cbn. lia.
  - lia.
Defined.

(** ** The host names that [main] dispatches *)

Lemma hostsFile_given (fl : flags) :
  hostsFile fl <> "" -> (0 <? String.length (hostsFile fl))%nat = true.
Proof.
  intros Hne. destruct (hostsFile fl); [contradiction | reflexivity].
Qed.

(** X3. Without the flag [-hosts], [main] reads no file and dispatches the
    arguments, in their order. With it, and a file that is read to its end
    with lines that fit the scanner, [main] dispatches the arguments
    followed by one host name per line of the file, in the order of the
    file. *)
Theorem X3_main_hosts_order (fs : os.FS) (fl : flags)
        (lines : list string) (last : string) :
  (hostsFile fl = "" -> mainSetup fs fl = Dispatch (Args fl))
  /\ (hostsFile fl <> "" ->
      fs (hostsFile fl) = os.File (unlines lines last) None ->
      Forall isLine (lines ++ [last]) ->
      mainSetup fs fl
      = Dispatch (Args fl
                  ++ map (fun l => strings.TrimSpace (bufio.dropCR l))
                         (entries lines last))).
Proof.
  split.
  - intros Hno. unfold mainSetup. now rewrite Hno.
  - intros Hyes Hfs Hlines. unfold mainSetup.
    rewrite (hostsFile_given fl Hyes).
    destruct (readHostsFile_entries fs (hostsFile fl) lines last Hfs Hlines)
      as [Hread _].
    now rewrite Hread.
Qed.

Lemma isLine_sample (l : string) :
  In l ["a.example"; ""; "  b.example "; "b.exam"] -> isLine l.
Proof.
  intros Hin. cbn in Hin.
  destruct Hin as [<-|[<-|[<-|[<-|[]]]]];
    (split; [unfold noNewline; cbn; intuition discriminate
            | unfold short; now vm_compute]).
Qed.

Lemma X3_main_hosts_order_witness :
  hostsFile flBoth <> ""
  /\ Forall isLine (hostsLines ++ [""])
  /\ mainSetup fsHosts flBoth
     = Dispatch ["x.example"; "y.example:8443"; "a.example"; ""; "b.example"].
Proof.
  assert (H1 : hostsFile flBoth <> "") by discriminate.
  assert (H2 : Forall isLine (hostsLines ++ [""]))
    by (repeat constructor; apply isLine_sample; cbn; auto 10).
  split; [exact H1 | split; [exact H2|]].
  exact (proj2 (X3_main_hosts_order fsHosts flBoth hostsLines "") H1 eq_refl H2).
Defined.

(** X4. When the reader of the hosts file fails after some bytes, with
    lines that fit the scanner, [readHostsFile] returns the host names of
    all lines read up to there, the last one even when no newline ends it,
    together with the error wrapped as an error of reading; [main] then
    prints that error and ends with [ExUsage] without dispatching the host
    names, those of the arguments included. *)
Theorem X4_read_error (fs : os.FS) (path : string)
        (lines : list string) (last : string) (err : error) :
  fs path = os.File (unlines lines last) (Some err) ->
  Forall isLine (lines ++ [last]) ->
  readHostsFile fs path
  = (map (fun l => strings.TrimSpace (bufio.dropCR l)) (entries lines last),
     Some (errors.Wrap err "error reading hosts file"))
  /\ (forall fl : flags,
        hostsFile fl = path -> path <> "" ->
        mainSetup fs fl
        = Abort [fmt.Fprintf "error: %v\n"
                   [errors.VError
                      (errors.Wrap err "error reading hosts file")]]
                ExUsage
        /\ forall code, exits fs fl code -> code = ExUsage).
Proof.
  intros Hfs Hlines.
  assert (Hread : readHostsFile fs path
    = (map (fun l => strings.TrimSpace (bufio.dropCR l)) (entries lines last),
       Some (errors.Wrap err "error reading hosts file"))).
  { unfold readHostsFile. rewrite Hfs.
    rewrite (scan_unlines lines last (Some err) Hlines).
    now rewrite scanLoop_map, map_map. }
  split; [exact Hread|].
  intros fl Hpath Hne. subst path.
  assert (Hsetup : mainSetup fs fl
    = Abort [fmt.Fprintf "error: %v\n"
               [errors.VError (errors.Wrap err "error reading hosts file")]]
            ExUsage).
  { unfold mainSetup. now rewrite (hostsFile_given fl Hne), Hread. }
  split; [exact Hsetup|].
  intros code Hexit. unfold exits in Hexit. now rewrite Hsetup in Hexit.
Qed.

Lemma X4_read_error_witness :
  Forall isLine (["a.example"] ++ ["b.exam"])
  /\ readHostsFile fsBroken "hosts.txt"
     = (["a.example"; "b.exam"],
        Some (errors.Wrap (errors.Sys "input/output error")
                          "error reading hosts file")).
Proof.
  assert (H : Forall isLine (["a.example"] ++ ["b.exam"]))
    by (repeat constructor; apply isLine_sample; cbn; auto 10).
  split; [exact H|].
  exact (proj1 (X4_read_error fsBroken "hosts.txt" ["a.example"] "b.exam"
                  (errors.Sys "input/output error") eq_refl H)).
Defined.

(** ** Host names written to a file and read again *)

Lemma substring_all (s : string) : substring 0 (String.length s) s = s.
Proof.
  apply bytes_inj. rewrite bytes_substring, bytes_length. cbn [drop].
  apply firstn_all.
Qed.

Lemma asciiOnly_get (s : string) (k : nat) (c : ascii) :
  asciiOnly s -> String.get k s = Some c -> (utf8.RuneSelf <=? b2z c) = false.
Proof.
  intros Hascii Hget. rewrite bytes_get in Hget.
  apply Z.leb_gt. exact (Forall_lookup_1 _ _ _ _ Hascii Hget).
Qed.

(** [TrimSpace] leaves an ASCII string without spaces at its ends as it
    is. *)
Lemma TrimSpace_trimmed (s : string) :
  asciiOnly s -> trimmed s -> strings.TrimSpace s = s.
Proof.
  intros Hascii [->|[(c0 & H0 & Hsp0) (c1 & H1 & Hsp1)]]; [reflexivity|].
  destruct s as [|c s']; [discriminate H0|].
  cbn [String.get] in H0. inversion H0; subst c0.
  cbn [strings.TrimSpace].
  rewrite (asciiOnly_get _ 0 c Hascii eq_refl), Hsp0.
  remember (String c s') as s eqn:Hs.
  assert (Hlen : String.length s = S (String.length s')) by now subst s.
  rewrite Hlen in H1 |- *. cbn [strings.trimStop].
  replace (S (String.length s') - 1)%nat with (String.length s') in H1 by lia.
  rewrite H1, (asciiOnly_get _ _ c1 Hascii H1), Hsp1.
  rewrite <- Hlen. apply substring_all.
Qed.

Lemma dropCR_trimmed (s : string) : trimmed s -> bufio.dropCR s = s.
Proof.
  intros Htr. destruct (bytes_dropCR s) as [H|H]; [now apply bytes_inj|].
  exfalso. destruct Htr as [->|[_ (c1 & H1 & Hsp1)]].
  - cbn in H. now destruct (bytes (bufio.dropCR "")).
  - rewrite bytes_get, bytes_length, H in H1.
    rewrite length_app in H1. cbn [length] in H1.
    replace (length (bytes (bufio.dropCR s)) + 1 - 1)%nat
      with (length (bytes (bufio.dropCR s))) in H1 by lia.
    rewrite list_lookup_middle in H1 by reflexivity.
    inversion H1; subst c1. discriminate Hsp1.
Qed.

(** Plain host names are lines that [dropCR] and [TrimSpace] leave as they
    are. *)
Lemma plain_entries (hosts : list string) :
  Forall plainHost hosts ->
  Forall isLine (hosts ++ [""])
  /\ map (fun l => strings.TrimSpace (bufio.dropCR l)) hosts = hosts.
Proof.
  intros Hplain. split.
  - apply Forall_app. split.
    + eapply Forall_impl; [exact Hplain|]. now intros h (_ & _ & Hl).
    + constructor; [|constructor].
      split; [unfold noNewline; cbn; tauto | unfold short; now vm_compute].
  - induction Hplain as [|h hosts' (Hascii & Htr & _) _ IH]; [reflexivity|].
    cbn [map].
    rewrite (dropCR_trimmed h Htr), (TrimSpace_trimmed h Hascii Htr).
    now f_equal.
Qed.

(** X5. Host names that are plain (ASCII bytes, no space at either end, no
    newline, shorter than the buffer of the scanner), written to a file one
    per line, are read back by [readHostsFile] as they were, in their order
    and without error; the empty host name among them. *)
Theorem X5_hosts_round_trip (fs : os.FS) (path : string)
        (hosts : list string) :
  Forall plainHost hosts ->
  fs path = os.File (unlines hosts "") None ->
  readHostsFile fs path = (hosts, None).
Proof.
  intros Hplain Hfs.
  destruct (plain_entries hosts Hplain) as [Hlines Hsame].
  destruct (readHostsFile_entries fs path hosts "" Hfs Hlines) as [Hread _].
  rewrite Hread. f_equal. unfold entries. rewrite app_nil_r.
  exact Hsame.
Qed.

Lemma plainHost_sample (h : string) : In h plainHosts -> plainHost h.
Proof.
  intros Hin. cbn in Hin.
  destruct Hin as [<-|[<-|[<-|[]]]];
    (split; [|split; [|split]];
     [ unfold asciiOnly; cbn; repeat constructor
     | right; split; eexists; (split; [reflexivity | reflexivity])
     | unfold noNewline; cbn; intuition discriminate
     | unfold short; now vm_compute ]).
Qed.

Lemma X5_hosts_round_trip_witness :
  Forall plainHost plainHosts
  /\ fsPlain "hosts.txt" = os.File (unlines plainHosts "") None
  /\ readHostsFile fsPlain "hosts.txt"
     = (["a.example"; "b.example:8443"; "c.example"], None).
Proof.
  assert (H1 : Forall plainHost plainHosts)
    by (apply List.Forall_forall; exact plainHost_sample).
  assert (H2 : fsPlain "hosts.txt" = os.File (unlines plainHosts "") None)
    by reflexivity.
  split; [exact H1 | split; [exact H2|]].
  exact (X5_hosts_round_trip fsPlain "hosts.txt" plainHosts H1 H2).
Defined.

(** ** One dial for each host name *)

Lemma dials_app (e1 e2 : list Event) : dials (e1 ++ e2) = dials e1 ++ dials e2.
Proof. unfold dials. apply flat_map_app. Qed.

Lemma sending_insert (ws : list wstate) : forall (j : nat) (w0 w : wstate),
  ws !! j = Some w0 ->
  checked w0 ++ sending (<[j := w]> ws) ≡ₚ checked w ++ sending ws.
Proof.
  unfold sending.
  induction ws as [|w1 ws IH]; intros [|j] w0 w Hj; cbn in Hj; try discriminate.
  - inversion Hj; subst. cbn. apply Permutation_app_swap_app.
  - cbn. specialize (IH j w0 w Hj).
    rewrite !(Permutation_app_swap_app _ (checked w1)).
    now apply Permutation_app_head.
Qed.

(** The host names in the hands of the workers: those checked, and the
    others. *)
Lemma sending_inflight (ws : list wstate) :
  exists others, inflight ws ≡ₚ sending ws ++ others.
Proof.
  unfold inflight, sending. induction ws as [|w ws (others & IH)].
  - now exists [].
  - destruct w as [|host|r|]; cbn.
    + now exists others.
    + exists (host :: others). rewrite IH. apply Permutation_middle.
    + exists others. now rewrite IH.
    + now exists others.
Qed.

(** The dials made so far are those of the host names whose result was
    received or is ready to be sent. *)
Lemma dials_reachable (fl : flags) (hosts : list string) (s : state) :
  reachable fl hosts s ->
  dials (st_events s)
    ≡ₚ map dialOf (map Hostname (st_received s) ++ sending (st_workers s)).
Proof.
  revert s. apply steps_ind_from.
  - unfold dispatch; cbn [st_events st_received st_workers].
    generalize (Z.to_nat (concurrency fl)) as n.
    induction n as [|n IHn]; [reflexivity | exact IHn].
  - intros s s' IH Hstep.
    destruct Hstep as [s j host rest Hex Hpr Hj | s Hex Hpr | s j Hex Hpr Hj
                      | s j host w Hex Hj | s j r Hex Hj Hlt | s Hex Hge];
      cbn [st_events st_received st_workers]; try assumption.
    + pose proof (sending_insert (st_workers s) j WRecv (WCheck host) Hj) as Hi.
      cbn in Hi. now rewrite Hi.
    + pose proof (sending_insert (st_workers s) j WRecv WDone Hj) as Hi.
      cbn in Hi. now rewrite Hi.
    + pose proof (sending_insert (st_workers s) j (WCheck host)
                    (WSend (fst (workerCheck fl host w))) Hj) as Hi.
      cbn in Hi. rewrite workerCheck_fst in Hi. cbn in Hi.
      rewrite dials_app, workerCheck_snd, checkCertificate_dials, IH.
      rewrite workerCheck_fst.
      transitivity (map dialOf (host :: map Hostname (st_received s)
                                  ++ sending (st_workers s))).
      * cbn [map]. symmetry. apply Permutation_cons_append.
      * apply Permutation_map. rewrite Hi. apply Permutation_middle.
    + pose proof (sending_insert (st_workers s) j (WSend r) WRecv Hj) as Hi.
      cbn in Hi. rewrite IH. apply Permutation_map.
      rewrite <- Hi, (map_app Hostname). cbn [map].
      now rewrite <- app_assoc.
Qed.

(** X6. In every state of a run, whatever the number of workers and the
    order in which the goroutines move, the addresses dialed so far are, up
    to order, the dial addresses of the host names whose check is done: no
    host name is dialed more often than it was given, and by the time [main]
    ends each host name was dialed exactly as often as it was given. *)
Theorem X6_one_dial_per_host (fl : flags) (hosts : list string) (s : state) :
  reachable fl hosts s ->
  dials (st_events s)
    ≡ₚ map dialOf (map Hostname (st_received s) ++ sending (st_workers s))
  /\ (exists notYet,
         dials (st_events s) ++ map dialOf notYet ≡ₚ map dialOf hosts)
  /\ (length (dials (st_events s)) <= length hosts)%nat
  /\ (forall code,
         st_exit s = Some code -> dials (st_events s) ≡ₚ map dialOf hosts).
Proof.
  intros Hr.
  pose proof (dials_reachable fl hosts s Hr) as Hd.
  pose proof (inv_reachable fl hosts s Hr) as Hinv.
  destruct (sending_inflight (st_workers s)) as (others & Hothers).
  assert (Hsub : dials (st_events s)
                   ++ map dialOf (others ++ pending (st_producer s))
                 ≡ₚ map dialOf hosts).
  { rewrite Hd, <- map_app. apply Permutation_map.
    rewrite <- (inv_hosts fl hosts s Hinv), Hothers.
    now rewrite <- !app_assoc. }
  split; [exact Hd | split; [|split]].
  - eexists. exact Hsub.
  - apply Permutation_length in Hsub.
    rewrite length_app, !length_map in Hsub. lia.
  - intros code Hex.
    destruct (exit_received fl hosts s code Hinv Hex) as (Hlen & Hperm & _).
    pose proof (Permutation_length Hsub) as Hl.
    pose proof (Permutation_length Hd) as Hl'.
    rewrite length_app, !length_map in Hl.
    rewrite length_map, length_app, length_map in Hl'.
    assert (Hnil : others ++ pending (st_producer s) = []).
    { apply length_zero_iff_nil. lia. }
    now rewrite Hnil, app_nil_r in Hsub.
Qed.

Lemma X6_one_dial_per_host_witness :
  reachable flTwo (Args flTwo)
    (firstReceived flTwo "good.example" ["expiring.example"] twoHosts)
  /\ dials (st_events
              (firstReceived flTwo "good.example" ["expiring.example"]
                 twoHosts))
       ≡ₚ [("tcp", "good.example:443")].
Proof.
  assert (Hr : reachable flTwo (Args flTwo)
                 (firstReceived flTwo "good.example" ["expiring.example"]
                    twoHosts))
    by (apply firstReceived_reachable; cbn; lia).
  split; [exact Hr|].
  exact (proj1 (X6_one_dial_per_host flTwo (Args flTwo) _ Hr)).
Defined.

(** ** The size of the pool *)

Lemma length_inflight (ws : list wstate) :
  (length (inflight ws) <= length ws)%nat.
Proof.
  unfold inflight. induction ws as [|w ws IH]; [reflexivity|].
  cbn [map concat]. rewrite length_app. cbn [length].
  destruct w; cbn [held length]; lia.
Qed.

Lemma length_sending (ws : list wstate) :
  (length (sending ws) <= length (inflight ws))%nat.
Proof.
  destruct (sending_inflight ws) as (others & H).
  apply Permutation_length in H. rewrite length_app in H. lia.
Qed.

(** X7. The pool keeps the size it was started with, so at no moment are
    more host names in the hands of the workers than [concurrency]; the
    dials made never exceed the results that [main] has received by more
    than [concurrency]; and a worker has returned only after the producer
    closed [queue]. *)
Theorem X7_pool_bound (fl : flags) (hosts : list string) (s : state) :
  reachable fl hosts s ->
  length (st_workers s) = Z.to_nat (concurrency fl)
  /\ (length (inflight (st_workers s)) <= Z.to_nat (concurrency fl))%nat
  /\ (length (dials (st_events s))
      <= length (st_received s) + Z.to_nat (concurrency fl))%nat
  /\ (In WDone (st_workers s) -> st_producer s = PDone)
  /\ (length (st_received s) + length (inflight (st_workers s))
      + length (pending (st_producer s)) = length hosts)%nat.
Proof.
  intros Hr.
  pose proof (inv_reachable fl hosts s Hr) as [Hh _ Hp Hd _].
  pose proof (length_inflight (st_workers s)) as Hin.
  pose proof (length_sending (st_workers s)) as Hs.
  pose proof (Permutation_length (dials_reachable fl hosts s Hr)) as Hdl.
  rewrite length_map, length_app, length_map in Hdl.
  apply Permutation_length in Hh. rewrite !length_app, length_map in Hh.
  repeat split; try assumption; lia.
Qed.

Lemma X7_pool_bound_witness :
  reachable flTwo (Args flTwo)
    (firstReceived flTwo "good.example" ["expiring.example"] twoHosts)
  /\ length (st_workers
               (firstReceived flTwo "good.example" ["expiring.example"]
                  twoHosts)) = 2%nat.
Proof.
  assert (Hr : reachable flTwo (Args flTwo)
                 (firstReceived flTwo "good.example" ["expiring.example"]
                    twoHosts))
    by (apply firstReceived_reachable; cbn; lia).
  split; [exact Hr|].
  exact (proj1 (X7_pool_bound flTwo (Args flTwo) _ Hr)).
Defined.

(** ** A single worker *)

Lemma lookup_singleton (ws : list wstate) (j : nat) (w : wstate) :
  length ws = 1%nat -> ws !! j = Some w -> ws = [w] /\ j = 0%nat.
Proof.
  destruct ws as [|w1 [|w2 ws]]; cbn; try discriminate.
  intros _. destruct j as [|j]; cbn; [|discriminate].
  intros H. now inversion H.
Qed.

(** With one worker the host names keep their order, and so do the
    dials. *)
Lemma single_worker_order (fl : flags) (hosts : list string) (s : state) :
  concurrency fl = 1 ->
  reachable fl hosts s ->
  length (st_workers s) = 1%nat
  /\ map Hostname (st_received s) ++ inflight (st_workers s)
       ++ pending (st_producer s) = hosts
  /\ dials (st_events s)
     = map dialOf (map Hostname (st_received s) ++ sending (st_workers s)).
Proof.
  intros Hc. revert s. apply steps_ind_from.
  - unfold dispatch; cbn [st_workers st_received st_producer st_events].
    rewrite Hc. repeat split.
  - intros s s' (Hlen & Hord & Hdial) Hstep.
    destruct Hstep as [s j host rest Hex Hpr Hj | s Hex Hpr | s j Hex Hpr Hj
                      | s j host w Hex Hj | s j r Hex Hj Hlt | s Hex Hge];
      cbn [st_workers st_received st_producer st_events];
      try (destruct (lookup_singleton _ _ _ Hlen Hj) as [Hws ->];
           rewrite Hws in *; clear Hws);
      try rewrite Hpr in *;
      cbn in Hord, Hdial |- *.
    + repeat split; assumption.
    + repeat split; assumption.
    + repeat split; assumption.
    + rewrite app_nil_r in Hdial. rewrite workerCheck_fst. cbn [Hostname].
      repeat split; [assumption|].
      rewrite dials_app, workerCheck_snd, checkCertificate_dials, Hdial.
      now rewrite map_app.
    + rewrite (map_app Hostname), <- app_assoc. cbn [map app].
      rewrite !app_nil_r. repeat split; assumption.
    + repeat split; assumption.
Qed.

(** X8. With [-concurrency 1] the run keeps the order of the host names:
    in every state the host names of the results that [main] has received,
    then the one the worker holds, then those the producer has not yet sent
    are the host names as given; the addresses are dialed in that order; and
    when [main] ends it has received the results in the order of the host
    names given, so that the report lists the failures in that order. *)
Theorem X8_single_worker_order (fl : flags) (hosts : list string) (s : state) :
  concurrency fl = 1 ->
  reachable fl hosts s ->
  map Hostname (st_received s) ++ inflight (st_workers s)
    ++ pending (st_producer s) = hosts
  /\ (exists later, dials (st_events s) ++ later = map dialOf hosts)
  /\ (forall code,
         st_exit s = Some code ->
         map Hostname (st_received s) = hosts
         /\ dials (st_events s) = map dialOf hosts
         /\ stderr (st_main s) = report (st_received s)).
Proof.
  intros Hc Hr.
  destruct (single_worker_order fl hosts s Hc Hr) as (Hlen & Hord & Hdial).
  pose proof (inv_reachable fl hosts s Hr) as Hinv.
  split; [assumption | split].
  - destruct (st_workers s) as [|w [|w' ws]]; try discriminate Hlen.
    rewrite Hdial, <- Hord.
    destruct w as [|host|r|]; cbn; rewrite ?app_nil_r;
      (eexists; rewrite <- map_app; f_equal;
       try (rewrite <- app_assoc; reflexivity); reflexivity).
  - intros code Hex.
    destruct (exit_received fl hosts s code Hinv Hex) as (Hl & _ & _).
    assert (Hnil : inflight (st_workers s) ++ pending (st_producer s) = []).
    { apply length_zero_iff_nil.
      apply (f_equal (@length string)) in Hord.
      rewrite length_app, length_map in Hord. lia. }
    pose proof (length_sending (st_workers s)) as Hs.
    assert (Hs0 : sending (st_workers s) = []).
    { apply length_zero_iff_nil.
      apply (f_equal (@length string)) in Hnil.
      rewrite length_app in Hnil. cbn in Hnil. lia. }
    rewrite Hnil, app_nil_r in Hord.
    rewrite Hs0, app_nil_r, Hord in Hdial.
    repeat split; try assumption.
    rewrite (inv_main fl hosts s Hinv), fold_consume_stderr. reflexivity.
Qed.

Lemma X8_single_worker_order_witness :
  concurrency flOne = 1
  /\ reachable flOne (Args flOne)
       (firstReceived flOne "a.example" ["b.example:8443"] refusing)
  /\ exists later,
       dials (st_events
                (firstReceived flOne "a.example" ["b.example:8443"] refusing))
       ++ later
       = [("tcp", "a.example:443"); ("tcp", "b.example:8443")].
Proof.
  assert (Hc : concurrency flOne = 1) by reflexivity.
  assert (Hr : reachable flOne (Args flOne)
                 (firstReceived flOne "a.example" ["b.example:8443"]
                    refusing))
    by (apply firstReceived_reachable; cbn; lia).
  split; [exact Hc | split; [exact Hr|]].
  exact (proj1 (proj2 (X8_single_worker_order flOne (Args flOne) _ Hc Hr))).
Defined.

(** ** No host name at all *)

Lemma inv_nohosts (fl : flags) (s : state) :
  inv fl [] s ->
  st_received s = [] /\ inflight (st_workers s) = []
  /\ st_main s = consumer0
  /\ forall code, st_exit s = Some code -> code = 0.
Proof.
  intros [Hh Hm _ _ He].
  apply Permutation_nil_r in Hh.
  apply app_eq_nil in Hh as [Hrec Hh]. apply app_eq_nil in Hh as [Hin _].
  apply map_eq_nil in Hrec.
  rewrite Hrec in Hm. cbn [fold_left] in Hm.
  repeat split; try assumption.
  intros code Hex. destruct (He code Hex) as [_ ->]. now rewrite Hm.
Qed.

Lemma inevitably_exit_nohosts (fl : flags) (s : state) :
  inv fl [] s ->
  inevitably fl [] (fun s' => st_exit s' = Some 0) s.
Proof.
  remember (weight s) as w eqn:Hw. revert s Hw.
  induction w as [w IH] using lt_wf_ind. intros s Hw Hinv.
  destruct (inv_nohosts fl s Hinv) as (_ & _ & Hm & Hcode).
  destruct (st_exit s) as [code|] eqn:Hex.
  - apply inevitably_now. cbv beta. rewrite Hex. f_equal. now apply Hcode.
  - apply inevitably_step.
    + eexists. apply step_exit; [assumption|].
      rewrite Hm. cbn. lia.
    + intros s' Hstep.
      apply (IH (weight s')); [|reflexivity | now apply (inv_step fl [] s)].
      subst w. now apply (step_weight fl []).
Qed.

(** X9. When [main] is given no host name (no argument, and no hosts file
    or one without lines), it ends with status 0 whatever the number of
    workers, also zero or less, and whatever the order in which the
    goroutines move; nothing is dialed, no result is received and nothing is
    printed. *)
Theorem X9_no_hosts (fs : os.FS) (fl : flags) :
  mainSetup fs fl = Dispatch [] ->
  inevitably fl [] (fun s => st_exit s = Some 0) (dispatch fl [])
  /\ (forall s,
         reachable fl [] s ->
         dials (st_events s) = [] /\ st_received s = []
         /\ stderr (st_main s) = [])
  /\ exits fs fl 0
  /\ (forall code, exits fs fl code -> code = 0).
Proof.
  intros Hsetup. split; [|split; [|split]].
  - apply inevitably_exit_nohosts, inv_dispatch.
  - intros s Hr.
    pose proof (dials_reachable fl [] s Hr) as Hd.
    destruct (inv_nohosts fl s (inv_reachable fl [] s Hr))
      as (Hrec & Hin & Hm & _).
    pose proof (length_sending (st_workers s)) as Hs.
    rewrite Hin in Hs. cbn [length] in Hs.
    assert (Hs0 : sending (st_workers s) = [])
      by (apply length_zero_iff_nil; lia).
    rewrite Hrec, Hs0 in Hd. cbn in Hd. apply Permutation_nil_r in Hd.
    repeat split; try assumption. now rewrite Hm.
  - unfold exits. rewrite Hsetup.
    exists {| st_producer := PSend []; 
              st_workers := replicate (Z.to_nat (concurrency fl)) WRecv;
              st_main := consumer0; st_exit := Some 0;
              st_received := []; st_events := [] |}.
    split; [|reflexivity].
    exists 1%nat. eapply steps_S; [apply steps_O|].
    apply (step_exit fl [] (dispatch fl [])); [reflexivity | cbn; lia].
  - intros code Hexit. unfold exits in Hexit. rewrite Hsetup in Hexit.
    destruct Hexit as (s & Hr & Hex).
    destruct (inv_nohosts fl s (inv_reachable fl [] s Hr)) as (_ & _ & _ & Hc).
    now apply Hc.
Qed.

Lemma X9_no_hosts_witness :
  mainSetup fsEmpty flNone = Dispatch []
  /\ exits fsEmpty flNone 0.
Proof.
  assert (Hs : mainSetup fsEmpty flNone = Dispatch []) by reflexivity.
  split; [exact Hs|].
  exact (proj1 (proj2 (proj2 (X9_no_hosts fsEmpty flNone Hs)))).
Defined.

(** ** The report of a run *)

Lemma report_nil (rs : list result) :
  report rs = [] <-> existsb failed rs = false.
Proof.
  unfold report, failed. induction rs as [|r rs IH]; [easy|].
  cbn [flat_map existsb]. destruct (Err r); cbn; [easy | exact IH].
Qed.

Lemma length_report (rs : list result) :
  (length (report rs) <= length rs)%nat.
Proof.
  unfold report. induction rs as [|r rs IH]; [reflexivity|].
  cbn [flat_map]. rewrite length_app. destruct (Err r); cbn [length]; lia.
Qed.

Lemma In_report (rs : list result) (l : fmt.line) :
  In l (report rs) ->
  exists r err,
    In r rs /\ Err r = Some err
    /\ l = fmt.Fprintf "error: %s: %v\n"
             [errors.VString (Hostname r); errors.VError err].
Proof.
  unfold report. rewrite in_flat_map. intros (r & Hin & Hl).
  destruct (Err r) as [err|] eqn:Herr; [|destruct Hl].
  destruct Hl as [<-|[]]. now exists r, err.
Qed.

(** X10. In every state of a run, what [main] has printed is the report of
    the results received so far: one line for each result with an error, in
    the order received, each naming a host name that was given. When [main]
    ends, the status is 1 exactly when a line was printed and 0 exactly when
    none was. *)
Theorem X10_report_and_status (fl : flags) (hosts : list string) (s : state) :
  reachable fl hosts s ->
  stderr (st_main s) = report (st_received s)
  /\ (length (stderr (st_main s)) <= length hosts)%nat
  /\ (forall l,
         In l (stderr (st_main s)) ->
         exists host err,
           In host hosts
           /\ l = fmt.Fprintf "error: %s: %v\n"
                    [errors.VString host; errors.VError err])
  /\ (forall code,
         st_exit s = Some code ->
         (code = 1 <-> stderr (st_main s) <> [])
         /\ (code = 0 <-> stderr (st_main s) = [])).
Proof.
  intros Hr. pose proof (inv_reachable fl hosts s Hr) as Hinv.
  assert (Hrep : stderr (st_main s) = report (st_received s)).
  { rewrite (inv_main fl hosts s Hinv), fold_consume_stderr. reflexivity. }
  split; [exact Hrep | split; [|split]].
  - rewrite Hrep. pose proof (length_report (st_received s)) as Hl.
    pose proof (Permutation_length (inv_hosts fl hosts s Hinv)) as Hp.
    rewrite !length_app, length_map in Hp. lia.
  - intros l Hin. rewrite Hrep in Hin.
    apply In_report in Hin as (r & err & Hin & _ & ->).
    exists (Hostname r), err. split; [|reflexivity].
    now apply (received_sub fl hosts s Hinv).
  - intros code Hex.
    destruct (exit_received fl hosts s code Hinv Hex) as (_ & _ & Hcode).
    rewrite exitStatus_fold in Hcode. rewrite Hrep.
    pose proof (report_nil (st_received s)) as Hnil.
    destruct (existsb failed (st_received s)); subst code.
    + split; split; try easy.
      * intros _ H. apply Hnil in H. discriminate H.
      * intros H. apply Hnil in H. discriminate H.
    + split; split; try easy.
      * intros H. exfalso. apply H. now apply Hnil.
      * intros _. now apply Hnil.
Qed.

Lemma X10_report_and_status_witness :
  reachable flOne (Args flOne)
    (firstReceived flOne "a.example" ["b.example:8443"] refusing)
  /\ stderr (st_main (firstReceived flOne "a.example" ["b.example:8443"]
                        refusing))
     = [fmt.Fprintf "error: %s: %v\n"
          [errors.VString "a.example";
           errors.VError (errors.Wrap (errors.Sys "connection refused")
                            "tls dial")]].
Proof.
  assert (Hr : reachable flOne (Args flOne)
                 (firstReceived flOne "a.example" ["b.example:8443"]
                    refusing))
    by (apply firstReceived_reachable; cbn; lia).
  split; [exact Hr|].
  exact (proj1 (X10_report_and_status flOne (Args flOne) _ Hr)).
Defined.

(** ** The results are those of the checks *)

Lemma workerCheck_cases (fl : flags) (host : string) (w : World) :
  match Err (fst (workerCheck fl host w)) with
  | None => True
  | Some err => checkError err
  end.
Proof.
  rewrite workerCheck_fst. cbn [Err].
  destruct (dialAnswer w "tcp" (connectHost host)) as [certs|err] eqn:Hd.
  - rewrite (checkCertificate_Conn fl host w certs Hd). cbn.
    pose proof (certLoop_spec (certExpiry (nowAnswer w) (days fl)) certs 0)
      as Hspec.
    destruct (certLoop _ 0 certs) as [err|]; [|exact I].
    destruct Hspec as (idx & cert & _ & _ & _ & ->).
    right. now eexists _, _, _.
  - rewrite (checkCertificate_DialError fl host w err Hd). cbn.
    left. now exists err.
Qed.

(** X11. Every result that [main] receives in a run is the outcome of one
    check of the host name it carries: the worker's result for that host
    name under some answers of the network and the clock. So a result of one
    host never carries the error of another, and the error of a result is
    either a wrapped dial error or the expiry error of a certificate. *)
Theorem X11_results_are_checks (fl : flags) (hosts : list string)
        (s : state) (r : result) :
  reachable fl hosts s ->
  In r (st_received s) ->
  In (Hostname r) hosts
  /\ (exists w : World, r = fst (workerCheck fl (Hostname r) w))
  /\ (forall err, Err r = Some err -> checkError err).
Proof.
  intros Hr Hin.
  destruct (isCheck_reachable fl hosts s Hr) as [Hrec _].
  pose proof (proj1 (List.Forall_forall _ _) Hrec r Hin) as [w Hw].
  split; [|split].
  - now apply (received_sub fl hosts s (inv_reachable fl hosts s Hr)).
  - now exists w.
  - intros err Herr.
    pose proof (workerCheck_cases fl (Hostname r) w) as Hc.
    rewrite <- Hw, Herr in Hc. exact Hc.
Qed.

Lemma X11_results_are_checks_witness :
  reachable flOne (Args flOne)
    (firstReceived flOne "a.example" ["b.example:8443"] refusing)
  /\ In (fst (workerCheck flOne "a.example" refusing))
        (st_received (firstReceived flOne "a.example" ["b.example:8443"]
                        refusing))
  /\ checkError (errors.Wrap (errors.Sys "connection refused") "tls dial").
Proof.
  assert (Hr : reachable flOne (Args flOne)
                 (firstReceived flOne "a.example" ["b.example:8443"]
                    refusing))
    by (apply firstReceived_reachable; cbn; lia).
  assert (Hin : In (fst (workerCheck flOne "a.example" refusing))
                   (st_received
                      (firstReceived flOne "a.example" ["b.example:8443"]
                         refusing)))
    by (left; reflexivity).
  split; [exact Hr | split; [exact Hin|]].
  exact (proj2 (proj2 (X11_results_are_checks flOne (Args flOne) _ _ Hr Hin))
           _ eq_refl).
Defined.

(** ** What a hosts file can give *)

Lemma bytes_trimLeftFrom (f : Z -> bool) (s : string) : forall skip : nat,
  exists k : nat, bytes (strings.trimLeftFrom f skip s) = drop k (bytes s).
Proof.
  induction s as [|c s IH]; intros skip; [now exists 0%nat|].
  cbn [strings.trimLeftFrom]. destruct skip as [|skip].
  - destruct (utf8.DecodeRuneInString (String c s)) as [r size].
    destruct (f r).
    + destruct (IH (size - 1)%nat) as [k Hk]. now exists (S k).
    + now exists 0%nat.
  - destruct (IH skip) as [k Hk]. now exists (S k).
Qed.

Lemma bytes_TrimRightFunc (s : string) (f : Z -> bool) :
  exists n : nat, bytes (strings.TrimRightFunc s f) = take n (bytes s).
Proof.
  unfold strings.TrimRightFunc. eexists. rewrite bytes_substring.
  cbn [drop]. reflexivity.
Qed.

Lemma bytes_trimStop (s : string) : forall stop : nat,
  exists n : nat, bytes (strings.trimStop s stop) = take n (bytes s).
Proof.
  induction stop as [|stop IH]; [now exists 0%nat|].
  cbn [strings.trimStop].
  destruct (String.get stop s) as [c|].
  - destruct (utf8.RuneSelf <=? b2z c).
    + destruct (bytes_TrimRightFunc (substring 0 (S stop) s) unicode.IsSpace)
        as [n Hn].
      rewrite Hn, bytes_substring. cbn [drop].
      rewrite take_take. now eexists.
    + destruct (strings.asciiSpace c); [exact IH|].
      exists (S stop). now rewrite bytes_substring.
  - exists (S stop). now rewrite bytes_substring.
Qed.

(** [TrimSpace s] is a piece of [s]. *)
Lemma bytes_TrimSpace (s : string) :
  exists k n : nat, bytes (strings.TrimSpace s) = take n (drop k (bytes s)).
Proof.
  induction s as [|c s (k & n & IH)]; [now exists 0%nat, 0%nat|].
  cbn [strings.TrimSpace].
  destruct (utf8.RuneSelf <=? b2z c).
  - unfold strings.TrimFunc, strings.TrimLeftFunc.
    destruct (bytes_trimLeftFrom unicode.IsSpace (String c s) 0) as [k' Hk].
    destruct (bytes_TrimRightFunc
                (strings.trimLeftFrom unicode.IsSpace 0 (String c s))
                unicode.IsSpace) as [n' Hn].
    exists k', n'. now rewrite Hn, Hk.
  - destruct (strings.asciiSpace c).
    + exists (S k), n. exact IH.
    + destruct (bytes_trimStop (String c s) (String.length (String c s)))
        as [n' Hn].
      exists 0%nat, n'. exact Hn.
Qed.

Lemma In_take_drop {A} (l : list A) (k n : nat) (x : A) :
  In x (take n (drop k l)) -> In x l.
Proof.
  intros Hin.
  rewrite <- (take_drop k l). apply in_or_app. right.
  rewrite <- (take_drop n (drop k l)). apply in_or_app. now left.
Qed.

Lemma length_dropCR (s : string) :
  (String.length (bufio.dropCR s) <= String.length s)%nat.
Proof.
  rewrite !bytes_length. destruct (bytes_dropCR s) as [H|H]; rewrite H.
  - reflexivity.
  - rewrite length_app. lia.
Qed.

Lemma noNewline_dropCR (s : string) : noNewline s -> noNewline (bufio.dropCR s).
Proof.
  unfold noNewline. intros Hs Hin. apply Hs.
  destruct (bytes_dropCR s) as [H|H]; rewrite H in *; [assumption|].
  apply in_or_app. now left.
Qed.

(** The tokens of the scanner hold no newline and are shorter than its
    buffer, whatever the bytes read. *)
Lemma scanFrom_tokens (data : string) (rerr : option error) :
  forall pending : string,
    isLine pending ->
    Forall isLine (fst (bufio.scanFrom pending data rerr)).
Proof.
  induction data as [|c rest IH]; intros pending [Hnl Hshort].
  - cbn [bufio.scanFrom fst].
    destruct pending as [|c0 p0]; constructor; [|constructor].
    split; [now apply noNewline_dropCR|].
    unfold short in *. pose proof (length_dropCR (String c0 p0)). lia.
  - cbn [bufio.scanFrom].
    destruct (Ascii.eqb c bufio.newline) eqn:Hc.
    + specialize (IH "").
      destruct (bufio.scanFrom "" rest rerr) as [tokens err].
      cbn [fst] in *. constructor.
      * split; [now apply noNewline_dropCR|].
        unfold short in *. pose proof (length_dropCR pending). lia.
      * apply IH. split; [intros [] | unfold short; now vm_compute].
    + destruct (bufio.MaxScanTokenSize <=? Z.of_nat (String.length pending) + 1)
        eqn:Hlen; [constructor|].
      apply IH. apply Z.leb_gt in Hlen. split.
      * unfold noNewline in *. rewrite bytes_append. cbn.
        intros Hin. apply in_app_or in Hin as [Hin|[Heq|[]]]; [auto|].
        rewrite Heq, Ascii.eqb_refl in Hc. discriminate Hc.
      * unfold short. rewrite length_append. cbn [String.length]. lia.
Qed.

(** [TrimSpace] of a line is a line. *)
Lemma TrimSpace_isLine (t : string) : isLine t -> isLine (strings.TrimSpace t).
Proof.
  intros [Hnl Hshort].
  destruct (bytes_TrimSpace t) as (k & n & Hb).
  split.
  - unfold noNewline in *. rewrite Hb. intros Hin. apply Hnl.
    now apply In_take_drop in Hin.
  - unfold short in *. rewrite !bytes_length in *. rewrite Hb.
    rewrite length_take, length_drop. lia.
Qed.

Lemma isLine_empty : isLine "".
Proof. split; [intros [] | unfold short; now vm_compute]. Qed.

(** X12. Whatever bytes the hosts file holds and however the read ends,
    with or without an error, every host name that [readHostsFile] returns
    is [TrimSpace] of a token of the scanner; it contains no newline and is
    shorter than the buffer of the scanner (64 KiB). *)
Theorem X12_hosts_are_lines (fs : os.FS) (path : string) (h : string) :
  In h (fst (readHostsFile fs path)) ->
  isLine h
  /\ exists (data : string) (rerr : option error) (token : string),
       fs path = os.File data rerr
       /\ In token (fst (bufio.scan data rerr))
       /\ isLine token
       /\ h = strings.TrimSpace token.
Proof.
  unfold readHostsFile.
  destruct (fs path) as [| err | data rerr]; try (intros []).
  pose proof (scanFrom_tokens data rerr "" isLine_empty) as Htok.
  unfold bufio.scan.
  destruct (bufio.scanFrom "" data rerr) as [tokens serr] eqn:Hscan.
  cbn [fst] in Htok. rewrite scanLoop_map. cbn [app].
  intros Hin.
  assert (Hin' : In h (map strings.TrimSpace tokens))
    by (destruct serr; exact Hin).
  apply in_map_iff in Hin' as (t & <- & Ht).
  pose proof (proj1 (List.Forall_forall _ _) Htok t Ht) as Hline.
  split; [now apply TrimSpace_isLine|].
  exists data, rerr, t. unfold bufio.scan. rewrite Hscan.
  repeat split; assumption || apply Hline.
Qed.

Lemma X12_hosts_are_lines_witness :
  In "b.exam" (fst (readHostsFile fsBroken "hosts.txt"))
  /\ isLine "b.exam".
Proof.
  assert (Hin : In "b.exam" (fst (readHostsFile fsBroken "hosts.txt")))
    by (vm_compute; auto).
  split; [exact Hin|].
  exact (proj1 (X12_hosts_are_lines fsBroken "hosts.txt" "b.exam" Hin)).
Defined.

(** ** A blank line of the hosts file *)

Lemma dials_at_exit (fl : flags) (hosts : list string) (s : state) (code : Z) :
  reachable fl hosts s -> st_exit s = Some code ->
  dials (st_events s) ≡ₚ map dialOf hosts.
Proof.
  intros Hr Hex.
  pose proof (dials_reachable fl hosts s Hr) as Hd.
  pose proof (inv_reachable fl hosts s Hr) as Hinv.
  destruct (exit_received fl hosts s code Hinv Hex) as (Hlen & Hperm & _).
  pose proof (Permutation_length (inv_hosts fl hosts s Hinv)) as Hl.
  rewrite !length_app, length_map in Hl.
  pose proof (length_sending (st_workers s)) as Hs.
  assert (Hs0 : sending (st_workers s) = [])
    by (apply length_zero_iff_nil; lia).
  rewrite Hs0, app_nil_r in Hd. rewrite Hd.
  now apply Permutation_map.
Qed.

Lemma blank_entry (lines : list string) (last l : string) :
  In l lines -> allSpace l ->
  In "" (map (fun l => strings.TrimSpace (bufio.dropCR l))
             (entries lines last)).
Proof.
  intros Hin Hsp. apply in_map_iff. exists l. split.
  - now rewrite (TrimSpace_allSpace _ (dropCR_allSpace l Hsp)).
  - unfold entries. apply in_or_app. now left.
Qed.

(** X13. A blank line of the hosts file (empty, or of ASCII spaces only) is
    not skipped by [main]: it becomes the host name [""] of the dispatch,
    and in every run that ends the address [":443"] was dialed and [main]
    received a result for the host name [""]. *)
Theorem X13_blank_line_dialed (fs : os.FS) (fl : flags)
        (lines : list string) (last l : string) :
  hostsFile fl <> "" ->
  fs (hostsFile fl) = os.File (unlines lines last) None ->
  Forall isLine (lines ++ [last]) ->
  In l lines -> allSpace l ->
  exists hosts : list string,
    mainSetup fs fl = Dispatch hosts
    /\ In "" hosts
    /\ forall s code,
         reachable fl hosts s -> st_exit s = Some code ->
         In ("tcp", ":443") (dials (st_events s))
         /\ exists r, In r (st_received s) /\ Hostname r = "".
Proof.
  intros Hne Hfs Hlines Hin Hsp.
  exists (Args fl ++ map (fun l => strings.TrimSpace (bufio.dropCR l))
                         (entries lines last)).
  assert (Hblank : In "" (Args fl
                            ++ map (fun l => strings.TrimSpace (bufio.dropCR l))
                                   (entries lines last))).
  { apply in_or_app. right. now apply (blank_entry lines last l). }
  split; [|split; [exact Hblank|]].
  - unfold mainSetup. rewrite (hostsFile_given fl Hne).
    now rewrite (readHostsFile_unlines fs _ lines last Hfs Hlines).
  - intros s code Hr Hex. split.
    + apply (Permutation_in _ (Permutation_sym (dials_at_exit _ _ s code Hr Hex))).
      change ("tcp", ":443") with (dialOf "").
      now apply in_map.
    + destruct (exit_received _ _ s code (inv_reachable _ _ s Hr) Hex)
        as (_ & Hperm & _).
      apply (Permutation_in _ (Permutation_sym Hperm)) in Hblank.
      apply in_map_iff in Hblank as (r & Hr' & Hin').
      now exists r.
Qed.

Lemma X13_blank_line_dialed_witness :
  exists hosts : list string,
    mainSetup fsHosts flBoth = Dispatch hosts
    /\ In "" hosts
    /\ forall s code,
         reachable flBoth hosts s -> st_exit s = Some code ->
         In ("tcp", ":443") (dials (st_events s))
         /\ exists r, In r (st_received s) /\ Hostname r = "".
Proof.
  apply (X13_blank_line_dialed fsHosts flBoth hostsLines "" "").
  - discriminate.
  - reflexivity.
  - apply List.Forall_forall. intros x Hx. apply isLine_sample.
    cbn in Hx |- *. tauto.
  - cbn. tauto.
  - constructor.
Defined.

(** ** The look-ahead window *)

Lemma certLoop_same_instant (t1 t2 : time.Time)
      (chain : list x509.Certificate) :
  time.sec t1 = time.sec t2 -> time.nsec t1 = time.nsec t2 ->
  forall k, certLoop t1 k chain = certLoop t2 k chain.
Proof.
  intros Hs Hn. induction chain as [|cert chain IH]; intros k;
    cbn [certLoop]; [reflexivity|].
  unfold time.After. rewrite Hs, Hn.
  destruct (_ || _); [reflexivity | apply IH].
Qed.

Lemma certLoop_expired (t : time.Time) (chain : list x509.Certificate)
      (c : x509.Certificate) :
  In c chain -> time.lt (x509.NotAfter c) t ->
  exists err, certLoop t 0 chain = Some err /\ checkError err.
Proof.
  intros Hin Hlt. pose proof (certLoop_spec t chain 0) as Hspec.
  destruct (certLoop t 0 chain) as [err|].
  - exists err. split; [reflexivity|].
    destruct Hspec as (idx & cert & _ & _ & _ & ->).
    right. now eexists _, _, _.
  - exfalso. now apply (Hspec c Hin).
Qed.

Lemma certLoop_fails (t : time.Time) (chain : list x509.Certificate) :
  certLoop t 0 chain <> None
  <-> exists c, In c chain /\ time.lt (x509.NotAfter c) t.
Proof.
  split.
  - intros Hne. pose proof (certLoop_spec t chain 0) as Hspec.
    destruct (certLoop t 0 chain) as [err|]; [|contradiction].
    destruct Hspec as (idx & cert & Hlk & Hlt & _).
    exists cert. split; [|assumption].
    apply list_elem_of_In. now apply (list_elem_of_lookup_2 _ idx).
  - intros (c & Hin & Hlt).
    destruct (certLoop_expired t chain c Hin Hlt) as (err & -> & _).
    discriminate.
Qed.

(** X14. For a clock in a location with one zone and a threshold that a
    [Time] holds, the result for a host whose dial succeeds carries what
    the expiry loop returns for the instant [days] times 24 hours after
    now: it carries an error exactly when a certificate of the chain
    expires strictly before that instant, which is the look-ahead window
    of the check. *)
Theorem X14_expiry_window (fl : flags) (host : string) (w : World)
        (certs : list x509.Certificate) (off : Z) :
  dialAnswer w "tcp" (connectHost host) = tls.Conn certs ->
  0 <= time.nsec (nowAnswer w) < 1000000000 ->
  time.loc (nowAnswer w) = time.fixedZone off ->
  time.representable
    (time.sec (nowAnswer w) + days fl * time.secondsPerDay) ->
  Err (fst (workerCheck fl host w))
  = certLoop (time.AddSeconds (nowAnswer w) (days fl * time.secondsPerDay))
             0 certs
  /\ (Err (fst (workerCheck fl host w)) <> None
      <-> exists c,
            In c certs
            /\ time.lt (x509.NotAfter c)
                       (time.AddSeconds (nowAnswer w)
                          (days fl * time.secondsPerDay))).
Proof.
  intros Hd Hns Hl Hrep.
  assert (Herr : Err (fst (workerCheck fl host w))
                 = certLoop (time.AddSeconds (nowAnswer w)
                               (days fl * time.secondsPerDay)) 0 certs).
  { rewrite workerCheck_fst, (checkCertificate_Conn fl host w certs Hd).
    cbn [fst snd Err]. unfold certExpiry.
    rewrite (AddDate_fixed (nowAnswer w) off (days fl) Hns Hl).
    now rewrite (unixTime_exact _ _ _ Hrep). }
  split; [exact Herr|].
  rewrite Herr. apply certLoop_fails.
Qed.

Lemma X14_expiry_window_witness :
  time.representable
    (time.sec (nowAnswer twoHosts) + days flTwo * time.secondsPerDay)
  /\ Err (fst (workerCheck flTwo "expiring.example" twoHosts)) <> None.
Proof.
  assert (Hrep : time.representable
                   (time.sec (nowAnswer twoHosts)
                    + days flTwo * time.secondsPerDay))
    by (apply representable_sample; cbn; lia).
  split; [exact Hrep|].
  refine (proj2 (proj2 (X14_expiry_window flTwo "expiring.example" twoHosts
                          [certAt "expiring.example" (1705320000 + 5 * 86400)]
                          0 eq_refl _ eq_refl Hrep)) _).
  - cbn. lia.
  - exists (certAt "expiring.example" (1705320000 + 5 * 86400)).
    split; [now left|].
    unfold time.lt. left. now vm_compute.
Defined.

(** ** Reading a file of host names that were read *)

Lemma asciiOnly_TrimSpace (s : string) :
  asciiOnly s -> asciiOnly (strings.TrimSpace s).
Proof.
  intros Hascii. destruct (bytes_TrimSpace s) as (k & n & Hb).
  unfold asciiOnly in *. rewrite Hb.
  apply List.Forall_forall. intros c Hin.
  apply In_take_drop in Hin.
  exact (proj1 (List.Forall_forall _ _) Hascii c Hin).
Qed.

Lemma isLine_dropCR (l : string) : isLine l -> isLine (bufio.dropCR l).
Proof.
  intros [Hnl Hshort]. split; [now apply noNewline_dropCR|].
  unfold short in *. pose proof (length_dropCR l). lia.
Qed.

Lemma entry_plain (l : string) :
  isLine l -> asciiOnly l -> plainHost (strings.TrimSpace (bufio.dropCR l)).
Proof.
  intros Hline Hascii.
  pose proof (dropCR_asciiOnly l Hascii) as Ha.
  destruct (TrimSpace_ascii _ Ha) as (pre & post & _ & _ & _ & Htr).
  split; [now apply asciiOnly_TrimSpace | split; [assumption|]].
  now apply TrimSpace_isLine, isLine_dropCR.
Qed.

(** X15. The host names that [readHostsFile] returns for a file of ASCII
    lines are plain, and reading them is idempotent: written to a second
    file, one per line, they are read back as the same list. *)
Theorem X15_read_again (fs fs' : os.FS) (path path' : string)
        (lines : list string) (last : string) :
  fs path = os.File (unlines lines last) None ->
  Forall isLine (lines ++ [last]) ->
  Forall asciiOnly (lines ++ [last]) ->
  fs' path' = os.File (unlines (fst (readHostsFile fs path)) "") None ->
  Forall plainHost (fst (readHostsFile fs path))
  /\ readHostsFile fs' path' = readHostsFile fs path.
Proof.
  intros Hfs Hlines Hascii Hfs'.
  pose proof (readHostsFile_unlines fs path lines last Hfs Hlines) as Hread.
  rewrite Hread in Hfs' |- *. cbn [fst] in *.
  assert (Hplain : Forall plainHost
                     (map (fun l => strings.TrimSpace (bufio.dropCR l))
                          (entries lines last))).
  { apply List.Forall_forall. intros h Hin.
    apply in_map_iff in Hin as (l & <- & Hin).
    assert (Hin' : In l (lines ++ [last])).
    { unfold entries in Hin. apply in_app_or in Hin as [Hin|Hin];
        apply in_or_app; [now left | right].
      destruct last; [destruct Hin | exact Hin]. }
    apply entry_plain.
    - exact (proj1 (List.Forall_forall _ _) Hlines l Hin').
    - exact (proj1 (List.Forall_forall _ _) Hascii l Hin'). }
  split; [exact Hplain|].
  destruct (plain_entries _ Hplain) as [Hlines' Hsame].
  rewrite (readHostsFile_unlines fs' path' _ "" Hfs' Hlines').
  f_equal. unfold entries. rewrite app_nil_r. exact Hsame.
Qed.

Lemma X15_read_again_witness :
  readHostsFile
    (fun _ => os.File (unlines (fst (readHostsFile fsHosts "hosts.txt")) "")
                      None)
    "again.txt"
  = readHostsFile fsHosts "hosts.txt".
Proof.
  refine (proj2 (X15_read_again fsHosts
                   (fun _ => os.File
                               (unlines (fst (readHostsFile fsHosts "hosts.txt"))
                                        "") None)
                   "hosts.txt" "again.txt" hostsLines "" eq_refl _ _ eq_refl)).
  - apply List.Forall_forall. intros x Hx. apply isLine_sample.
    cbn in Hx |- *. tauto.
  - repeat constructor.
Defined.
